(** * Ripple_DB: a shallow embedding of the storage-engine core

    The development follows the TypeScript sources file by file:
    [Format.ts] (internal keys, their comparator, the memtable),
    [BloomFilter.ts], [Filename.ts], [Compaction.ts] and the version set
    (installing an edit, the ranges and boundary files of a compaction).
    The first part holds the definitions, one module per source file or
    subject; the second part holds the properties, one section per subject.

    Conventions.
    - A JavaScript [number] that holds an integer is a [Z]; a [bigint] is a [Z].
      The 32-bit conversions that the bitwise operators of JavaScript apply
      are written out in module [JS].
    - A [Buffer] (a [Uint8Array]) and a [Slice] (a wrapper around one buffer)
      are a [list Z] of bytes.
    - A number that need not be an integer (a compaction score, the product
      of the hash count) is the rational that the double holds: [JS.double]
      rounds a quotient or a product to the nearest double.
    - A call that can throw returns an [option]; [None] is the exception.  A
      call with a loop that the source does not bound takes the number of
      rounds allowed and returns, throws or is left unfinished.
    - An object that the source mutates is threaded through as a value. *)

From Stdlib Require Import ZArith List String Ascii Bool Lia QArith Qround.
From stdpp Require Import base list gmap strings.

Local Open Scope Z_scope.

(** ** The error monad of the embedding

    A call that can throw is sequenced with stdpp's option monad,
    [x ← m; k]. *)

(** [assert] of [DBHelper]: throws when the condition is false. *)
Definition assert (b : bool) : option unit :=
  if b then Some tt else None.

(** ** JavaScript number operations used by the sources *)

Module JS.

(** [ToInt32] and [ToUint32] of ECMAScript on an integral number. *)
Definition ToUint32 (x : Z) : Z := x mod 2 ^ 32.

Definition ToInt32 (x : Z) : Z :=
  let m := x mod 2 ^ 32 in
  if 2 ^ 31 <=? m then m - 2 ^ 32 else m.

(** [NaN] is [None]; the conversions send it to 0. *)
Definition ToUint32_nan (x : option Z) : Z :=
  match x with Some v => ToUint32 v | None => 0 end.

(** [x << n] *)
Definition shl (x n : Z) : Z :=
  ToInt32 (Z.shiftl (ToInt32 x) (ToUint32 n mod 32)).

(** [x >> n], sign-propagating *)
Definition sar (x n : Z) : Z :=
  Z.shiftr (ToInt32 x) (ToUint32 n mod 32).

(** [x >>> n], zero-filling *)
Definition shr (x n : Z) : Z :=
  Z.shiftr (ToUint32 x) (ToUint32 n mod 32).

(** [x | y] and [x & y] *)
Definition bor (x y : Z) : Z := ToInt32 (Z.lor (ToInt32 x) (ToInt32 y)).
Definition band (x y : Z) : Z := ToInt32 (Z.land (ToInt32 x) (ToInt32 y)).

(** [x % y]: the sign of the dividend, [NaN] for a zero divisor. *)
Definition rem (x y : Z) : option Z :=
  if y =? 0 then None else Some (Z.rem x y).

(** [~x] *)
Definition bnot (x : Z) : Z := ToInt32 (Z.lnot (ToInt32 x)).

(** [Math.ceil] and [Math.round] on the rational that a double holds.  The
    quotients by 8 that the sources pass to [Math.ceil] are exact: halving
    an integer below [2^53] does not round. *)
Definition ceil (q : Q) : Z := Qceiling q.
Definition round (q : Q) : Z := Qfloor (q + (1 # 2))%Q.

(** The integer nearest to [n / d] for a positive [d]; a tie goes to the
    even one. *)
Definition round_div (n d : Z) : Z :=
  let q := n / d in
  let r := n mod d in
  if 2 * r <? d then q
  else if d <? 2 * r then q + 1
  else if Z.even q then q else q + 1.

(** The binary exponent of [n / d] for positive [n] and [d]: the [e] with
    [2^e <= n / d < 2^(e+1)]. *)
Definition exponent (n d : Z) : Z :=
  let e0 := Z.log2 n - Z.log2 d in
  let above :=
    if 0 <=? e0 then d * 2 ^ e0 <=? n else d <=? n * 2 ^ (- e0) in
  if above : bool then e0 else e0 - 1.

(** The double nearest to [n / d] for positive [n] and [d]: a significand
    of 53 bits, rounded to nearest, ties to even.  The exponent range of a
    double (overflow from [2^1024] on, subnormal numbers below [2^-1022]) is
    not modelled. *)
Definition double_pos (n d : Z) : Q :=
  let k := 52 - exponent n d in
  if 0 <=? k then round_div (n * 2 ^ k) d # Z.to_pos (2 ^ k)
  else inject_Z (round_div n (d * 2 ^ (- k)) * 2 ^ (- k)).

(** The value of a rational as a JavaScript number: the nearest double. *)
Definition double (q : Q) : Q :=
  match Qnum q with
  | 0 => 0
  | Z.pos _ => double_pos (Qnum q) (Z.pos (Qden q))
  | Z.neg _ => - double_pos (- Qnum q) (Z.pos (Qden q))
  end.

(** [x / y] and [x * y] on numbers: the double nearest to the exact
    result. *)
Definition fdiv (x y : Q) : Q := double (x / y).
Definition fmul (x y : Q) : Q := double (x * y).

(** An integer as a number: the nearest double, which is an integer
    again. *)
Definition number_of_Z (n : Z) : Z := Qfloor (double (inject_Z n)).

End JS.

(** ** Buffer.ts *)

Module Buffer.

(** Modelled from the spec: [Buffer.ts] is not among the sources.  The spec
    treats keys and values as byte strings; the class extends [Uint8Array],
    and a buffer is the list of its bytes. *)
Abbreviation t := (list Z).

(** Modelled from the spec: [Buffer.alloc(n)], [n] zero bytes. *)
Definition alloc (n : Z) : t := repeat 0 (Z.to_nat n).

(** Modelled from the spec: [Buffer.concat], the buffers one after the
    other. *)
Definition concat (bs : list t) : t := List.concat bs.

(** The [length] of a buffer and the [size] of a slice. *)
Definition size (b : t) : Z := Z.of_nat (length b).

(** A relative index of [slice] on a typed array: a negative index counts
    from the end, and the result is clamped to [0, len]. *)
Definition rel_index (len i : Z) : Z :=
  if i <? 0 then Z.max (len + i) 0 else Z.min i len.

(** Modelled from the spec: [b.slice(start, end)] of a typed array. *)
Definition slice (b : t) (start end_ : Z) : t :=
  let len := size b in
  let k := rel_index len start in
  let e := rel_index len end_ in
  take (Z.to_nat (e - k)) (drop (Z.to_nat k) b).

(** [b.slice(start)] *)
Definition slice_from (b : t) (start : Z) : t := slice b start (size b).

(** [b[i]] on a typed array: [None] is [undefined], the value outside the
    buffer. *)
Definition at_ (b : t) (i : Z) : option Z :=
  if (i <? 0) || (size b <=? i) then None else b !! Z.to_nat i.

(** [b[i] = v] on a typed array: the value is stored modulo 256; a write
    outside the buffer is dropped. *)
Definition put (b : t) (i : Z) (v : Z) : t :=
  if (i <? 0) || (size b <=? i) then b else <[Z.to_nat i := v mod 256]> b.

(** Writes [f i] at each of the [n] indices from [i] on. *)
Fixpoint fill_range (b : t) (f : nat -> Z) (i : nat) (n : nat) : t :=
  match n with
  | O => b
  | S n' => fill_range (put b (Z.of_nat i) (f i)) f (S i) n'
  end.

(** Modelled from the spec: [b.fillInt(value, start, end)] writes the byte
    [value] at the indices of [start, end) that are inside the buffer. *)
Definition fillInt (b : t) (value : Z) (start end_ : Z) : t :=
  let s := Z.max 0 start in
  let e := Z.min end_ (size b) in
  fill_range b (fun _ => value) (Z.to_nat s) (Z.to_nat (e - s)).

(** Modelled from the spec: [b.fillBuffer(src, start, end)] writes the bytes
    of [src], repeated when [src] is shorter than the range, at the indices
    of [start, end) that are inside the buffer. *)
Definition fillBuffer (b : t) (src : t) (start end_ : Z) : t :=
  let s := Z.max 0 start in
  let e := Z.min end_ (size b) in
  match src with
  | [] => b
  | _ =>
      fill_range b
        (fun i => nth ((i - Z.to_nat s) mod length src)%nat src 0)
        (Z.to_nat s) (Z.to_nat (e - s))
  end.

End Buffer.

(** A [Slice] wraps one buffer; its [size] and [length] are those of the
    buffer. *)
Abbreviation Slice := (list Z).

(** ** Coding.ts and the varint of DBHelper.ts *)

Module Coding.

(** The [n] low bytes of [v], least significant first. *)
Fixpoint encodeLE (n : nat) (v : Z) : Buffer.t :=
  match n with
  | O => []
  | S n' => v mod 256 :: encodeLE n' (v / 256)
  end.

(** The number that the bytes spell, least significant first. *)
Fixpoint decodeLE (b : Buffer.t) : Z :=
  match b with
  | [] => 0
  | x :: b' => x + 256 * decodeLE b'
  end.

(** Modelled from the spec: [encodeFixed64] of [Coding.ts], which is not
    among the sources: the eight little-endian bytes of a 64-bit unsigned
    number. *)
Definition encodeFixed64 (v : Z) : Buffer.t := encodeLE 8 (v mod 2 ^ 64).

(** Modelled from the spec: [decodeFixed64] of [Coding.ts]: the first eight
    bytes read as a little-endian number; a decode error, here [None], when
    there are fewer. *)
Definition decodeFixed64 (b : Buffer.t) : option Z :=
  if Buffer.size b <? 8 then None else Some (decodeLE (take 8 b)).

(** Modelled from the spec: [decodeFixed32] of [Coding.ts]: the first four
    bytes read as a little-endian number; a decode error when there are
    fewer. *)
Definition decodeFixed32 (b : Buffer.t) : option Z :=
  if Buffer.size b <? 4 then None else Some (decodeLE (take 4 b)).

(** Modelled from the spec: [varint.encode] of [DBHelper.ts], which is not
    among the sources: groups of seven bits, least significant first, the
    high bit of a byte marking a continuation.  Ten groups hold any number
    below 2^64; the fuel bounds the recursion. *)
Fixpoint varint_encode_fuel (fuel : nat) (v : Z) : Buffer.t :=
  match fuel with
  | O => [v mod 128]
  | S f =>
      if v <? 128 then [v]
      else (v mod 128 + 128) :: varint_encode_fuel f (v / 128)
  end.

Definition varint_encode (v : Z) : Buffer.t := varint_encode_fuel 9 v.

(** Modelled from the spec: [varint.decode] of [DBHelper.ts]: the value and
    the number of bytes read ([varint.decode.bytes]); a decode error when
    the bytes end inside a number. *)
Fixpoint varint_decode (b : Buffer.t) : option (Z * Z) :=
  match b with
  | [] => None
  | x :: b' =>
      if x <? 128 then Some (x, 1)
      else
        r ← varint_decode b';
        Some (x - 128 + 128 * fst r, 1 + snd r)
  end.

End Coding.

(** ** Comparator.ts *)

Module Comparator.

(** The [Comparator] interface.  [findShortestSeparator] and
    [findShortSuccessor] overwrite their first argument in the source; here
    they return its new contents. *)
Record t := {
  compare : Slice -> Slice -> Z;
  getName : string;
  findShortestSeparator : Slice -> Slice -> Slice;
  findShortSuccessor : Slice -> Slice
}.

(** What the internal-key comparator relies on: the order is reflexive and
    antisymmetric, and a separator of [start] and [limit] stays below
    [limit]. *)
Class Laws (c : t) : Prop := {
  compare_refl : forall a, compare c a a = 0;
  compare_antisym : forall a b, compare c a b < 0 -> 0 < compare c b a;
  separator_below_limit :
    forall start limit,
      compare c start limit < 0 ->
      compare c (findShortestSeparator c start limit) limit < 0
}.

(** Modelled from the spec: the byte-lexicographic user comparator
    ([Comparator.ts] is not among the sources).  The result is -1, 0 or 1. *)
Fixpoint bytewise_compare (a b : Slice) : Z :=
  match a, b with
  | [], [] => 0
  | [], _ :: _ => -1
  | _ :: _, [] => 1
  | x :: a', y :: b' =>
      if x <? y then -1
      else if y <? x then 1
      else bytewise_compare a' b'
  end.

(** Modelled from the spec: the separator of the byte-lexicographic
    comparator.  At the first index where [start] and [limit] differ, if the
    byte of [start] can be incremented and stays below the byte of [limit],
    [start] is cut after the incremented byte; otherwise (also when one key
    is a prefix of the other) [start] is left as it is.  [None] is "left as
    it is". *)
Fixpoint bytewise_shorten (start limit : Slice) : option Slice :=
  match start, limit with
  | x :: s', y :: l' =>
      if x =? y then cons x <$> bytewise_shorten s' l'
      else if (x <? 255) && (x + 1 <? y) then Some [x + 1]
      else None
  | _, _ => None
  end.

Definition bytewise_findShortestSeparator (start limit : Slice) : Slice :=
  default start (bytewise_shorten start limit).

(** Modelled from the spec: the short successor of the byte-lexicographic
    comparator: the first byte that is not 0xff is incremented and the key
    is cut after it; a key of 0xff bytes only is left as it is. *)
Fixpoint bytewise_successor (key : Slice) : option Slice :=
  match key with
  | [] => None
  | x :: k' =>
      if x =? 255 then cons x <$> bytewise_successor k'
      else Some [x + 1]
  end.

Definition bytewise_findShortSuccessor (key : Slice) : Slice :=
  default key (bytewise_successor key).

Definition BytewiseComparator : t := {|
  compare := bytewise_compare;
  getName := "leveldb.BytewiseComparator";
  findShortestSeparator := bytewise_findShortestSeparator;
  findShortSuccessor := bytewise_findShortSuccessor
|}.

End Comparator.

(** ** Format.ts *)

Module Format.

Inductive ValueType := kTypeDeletion | kTypeValue.

(** The numeric value of the enum member. *)
Definition ValueType_code (t : ValueType) : Z :=
  match t with
  | kTypeDeletion => 0
  | kTypeValue => 1
  end.

Definition kValueTypeForSeek : ValueType := kTypeValue.

(** [(1n << 56n) - 1n] *)
Definition kMaxSequenceNumber : Z := Z.shiftl 1 56 - 1.

(** [ParsedInternalKey]: at run time [valueType] is the number read from
    the key. *)
Record ParsedInternalKey := {
  userKey : Slice;
  sn : Z;
  valueType : Z
}.

Definition packSequenceAndType (seq : Z) (t : ValueType) : option Z :=
  _ ← assert (seq <=? kMaxSequenceNumber);
  _ ← assert (ValueType_code t <=? ValueType_code kValueTypeForSeek);
  Some (Z.lor (Z.shiftl seq 8) (ValueType_code t)).

Definition appendInternalKey (buf : Buffer.t) (key : ParsedInternalKey)
  : Buffer.t :=
  let sequenceBuf := Coding.encodeFixed64 (sn key) in
  let sequenceBuf := Buffer.fillInt sequenceBuf (valueType key) 7 8 in
  Buffer.concat [buf; userKey key; sequenceBuf].

Definition extractUserKey (ikey : Slice) : option Slice :=
  _ ← assert (8 <=? Buffer.size ikey);
  Some (Buffer.slice ikey 0 (Buffer.size ikey - 8)).

Module InternalKey.

(** [new InternalKey(userKey, sn, valueType)]; the buffer of a fresh
    slice is empty. *)
Definition make (userKey : Slice) (sn : Z) (valueType : ValueType)
  : Slice :=
  appendInternalKey []
    {| userKey := userKey; sn := sn;
       valueType := ValueType_code valueType |}.

Definition userKey (this : Slice) : option Slice := extractUserKey this.

Definition type (this : Slice) : option Z :=
  Buffer.at_ this (Buffer.size this - 1).

Definition sequence (this : Slice) : option Z :=
  let sequenceBuf := Buffer.alloc 8 in
  let sequenceBuf :=
    Buffer.fillBuffer sequenceBuf
      (Buffer.slice_from this (Buffer.size this - 8)) 0 7 in
  Coding.decodeFixed32 sequenceBuf.

End InternalKey.

Module InternalKeyComparator.

Definition oneByte : Buffer.t := Buffer.alloc 1.

(** The seven sequence bytes of the tail, read as a 64-bit number. *)
Definition tail_sequence (key : Slice) : option Z :=
  Coding.decodeFixed64
    (Buffer.concat
       [Buffer.slice key (Buffer.size key - 8) (Buffer.size key - 1);
        oneByte]).

Definition compare (userComparator : Comparator.t) (key1 key2 : Slice)
  : option Z :=
  userKey1 ← extractUserKey key1;
  userKey2 ← extractUserKey key2;
  let r := Comparator.compare userComparator userKey1 userKey2 in
  if negb (r =? 0) then Some r
  else
    sn1 ← tail_sequence key1;
    sn2 ← tail_sequence key2;
    if sn1 =? sn2 then Some 0
    else Some (if sn2 <? sn1 then -1 else 1).

(** The tail that is tacked on a shortened user key. *)
Definition seek_tail : option Buffer.t :=
  Coding.encodeFixed64
    <$> packSequenceAndType kMaxSequenceNumber kValueTypeForSeek.

(** Returns the contents of [start] after the call. *)
Definition findShortestSeparator (userComparator : Comparator.t)
    (start limit : Slice) : option Slice :=
  userStart ← extractUserKey start;
  userLimit ← extractUserKey limit;
  let tmp :=
    Comparator.findShortestSeparator userComparator userStart userLimit in
  if (Buffer.size tmp <? Buffer.size userStart)
     && (Comparator.compare userComparator userStart tmp <? 0)
  then
    tail ← seek_tail;
    let tmp := Buffer.concat [tmp; tail] in
    c1 ← compare userComparator start tmp;
    _ ← assert (c1 <? 0);
    c2 ← compare userComparator tmp limit;
    _ ← assert (c2 <? 0);
    Some tmp
  else Some start.

(** Returns the contents of [key] after the call. *)
Definition findShortSuccessor (userComparator : Comparator.t)
    (key : Slice) : option Slice :=
  userKey ← extractUserKey key;
  let tmp := Comparator.findShortSuccessor userComparator userKey in
  if (Buffer.size tmp <? Buffer.size userKey)
     && (Comparator.compare userComparator userKey tmp <? 0)
  then
    tail ← seek_tail;
    let tmp := Buffer.concat [tmp; tail] in
    c1 ← compare userComparator key tmp;
    _ ← assert (c1 <? 0);
    Some tmp
  else Some key.

End InternalKeyComparator.

(** [parseInternalKey]: [None] is the result [false]. *)
Definition parseInternalKey (internalKey : Slice)
  : option ParsedInternalKey :=
  userKey ← extractUserKey internalKey;
  let snBuf := Buffer.alloc 8 in
  let snBuf :=
    Buffer.fillBuffer snBuf
      (Buffer.slice_from internalKey (Buffer.size internalKey - 8)) 0 7 in
  sn ← Coding.decodeFixed64 snBuf;
  valueType ← Buffer.at_ internalKey (Buffer.size internalKey - 1);
  Some {| userKey := userKey; sn := sn; valueType := valueType |}.

End Format.

(** The eight bytes that [appendInternalKey] puts after the user key. *)
Definition make_tail (sn : Z) (t : Z) : Buffer.t :=
  Buffer.fillInt (Coding.encodeFixed64 sn) t 7 8.

(** ** Hash.ts *)

Module Hash.

(** The hash function of [Hash.ts], which is not among the sources: it is
    a parameter of the development. *)
Class HashFn := { hash : Buffer.t -> Z -> Z }.

End Hash.

(** ** BitBuffer.ts *)

Module BitBuffer.

Abbreviation t := (list Z).

(** Modelled from the spec: [BitBuffer.ts] is not among the sources, only
    its test is.  A bit buffer wraps a byte buffer and holds eight bits per
    byte of it. *)
Definition bits (this : t) : Z := Buffer.size this * 8.

(** Modelled from the spec: [resizeBits] brings the buffer to
    [Math.ceil(bits / 8)] bytes, appending zero bytes or cutting the end. *)
Definition resizeBits (this : t) (bits : Q) : t :=
  let nextSize := JS.ceil (bits / 8)%Q in
  if Buffer.size this <? nextSize then
    Buffer.concat [this; Buffer.alloc (nextSize - Buffer.size this)]
  else if nextSize <? Buffer.size this then Buffer.slice this 0 nextSize
  else this.

(** The byte index [index >>> 3] and the mask [1 << (index % 8)] of a bit;
    the index may be [NaN]. *)
Definition byte_index (index : option Z) : Z :=
  JS.shr (JS.ToUint32_nan index) 3.

Definition bit_mask (index : option Z) : Z :=
  JS.shl 1 (JS.ToUint32_nan (i ← index; JS.rem i 8)).

(** The shift count that [<<] makes of [index % 8]. *)
Definition mask_shift (index : option Z) : Z :=
  JS.ToUint32 (JS.ToUint32_nan (i ← index; JS.rem i 8)) mod 32.

(** Modelled from the spec: [set] ors the mask into the byte, or clears it;
    as on any typed array the byte is stored modulo 256 and a write outside
    the buffer is dropped. *)
Definition set (this : t) (index : option Z) (bool : bool) : t :=
  let pos := byte_index index in
  match Buffer.at_ this pos with
  | Some b =>
      if bool then Buffer.put this pos (JS.bor b (bit_mask index))
      else Buffer.put this pos (JS.band b (JS.bnot (bit_mask index)))
  | None => this
  end.

(** Modelled from the spec: [get] tests the mask against the byte; outside
    the buffer the byte is [undefined] and the test is false, as the
    BitBuffer test expects of [get(50)] on four bytes. *)
Definition get (this : t) (index : option Z) : bool :=
  match Buffer.at_ this (byte_index index) with
  | Some b => negb (JS.band b (bit_mask index) =? 0)
  | None => false
  end.

(** The bit of [index] is set: its byte is in the buffer and has the bit
    of the mask. *)
Definition bit_set (this : t) (index : option Z) : Prop :=
  exists b,
    Buffer.at_ this (byte_index index) = Some b
    /\ Z.testbit b (mask_shift index) = true.

End BitBuffer.

(** ** BloomFilter.ts *)

Module BloomFilter.

Import Hash.

Record t := {
  _buffer : Buffer.t;
  _offset : Z;
  _size : Z;
  _kNumber : Z;
  _bitBuffer : BitBuffer.t;
  _bitsPerKey : Z
}.

(** [Math.round(bitsPerKey * 0.69)]: the literal is the double nearest to
    69/100 and the product is rounded to a double before [Math.round]
    sees it, so that 150 bits per key give 103 and not 104. *)
Definition hash_count (bitsPerKey : Z) : Z :=
  JS.round (JS.fmul (inject_Z bitsPerKey) (JS.double (69 # 100))).

(** The constructor on a missing or empty buffer. *)
Definition make_empty (bitsPerKey : Z) : t :=
  let k := hash_count bitsPerKey in
  let buffer := Coding.varint_encode k in
  {| _buffer := buffer;
     _offset := 0;
     _size := Buffer.size buffer;
     _kNumber := k;
     _bitBuffer := Buffer.alloc (JS.ceil (inject_Z k / 8)%Q);
     _bitsPerKey := bitsPerKey |}.

(** The constructor; [buffer] is [None] when the argument is left out. *)
Definition make (buffer : option Buffer.t) (bitsPerKey : Z) : option t :=
  let k := hash_count bitsPerKey in
  match buffer with
  | None => Some (make_empty bitsPerKey)
  | Some buffer =>
      if Buffer.size buffer =? 0 then Some (make_empty bitsPerKey)
      else
        let bitBuffer := Buffer.slice buffer 0 (Buffer.size buffer - 1) in
        kNumber ← fst <$> Coding.varint_decode
                    (Buffer.slice_from buffer (Buffer.size buffer - 1));
        if negb (kNumber =? k) then
          let buffer' :=
            Buffer.concat
              [Buffer.slice buffer 0 (Buffer.size buffer - 1);
               Coding.varint_encode k] in
          Some {| _buffer := buffer';
                  _offset := 0;
                  _size := Buffer.size buffer';
                  _kNumber := k;
                  _bitBuffer := BitBuffer.resizeBits bitBuffer (inject_Z k);
                  _bitsPerKey := bitsPerKey |}
        else
          Some {| _buffer := buffer;
                  _offset := 0;
                  _size := Buffer.size buffer;
                  _kNumber := kNumber;
                  _bitBuffer := bitBuffer;
                  _bitsPerKey := bitsPerKey |}
  end.

Definition default_bitsPerKey : Z := 10.

Section WithHash.

Context {H : HashFn}.

Definition bloomHash (key : Slice) : Z := hash key 0xbc9f1d34.

(** [(h >> 17) | (h << 15)] *)
Definition hash_delta (h : Z) : Z := JS.bor (JS.sar h 17) (JS.shl h 15).

(** The inner loop of [putKeys]: [count] rounds are left. *)
Fixpoint set_probes (bits delta : Z) (count : nat) (h : Z)
    (bitBuffer : BitBuffer.t) : BitBuffer.t :=
  match count with
  | O => bitBuffer
  | S count' =>
      let bitPosition := JS.rem h bits in
      set_probes bits delta count' (h + delta)
        (BitBuffer.set bitBuffer bitPosition true)
  end.

(** The outer loop of [putKeys] from index [i] on, [count] keys left;
    [keys[i]] past the end is [undefined] and hashing it throws. *)
Fixpoint put_loop (kNumber bits : Z) (keys : list Slice) (i : nat)
    (count : nat) (bitBuffer : BitBuffer.t) : option BitBuffer.t :=
  match count with
  | O => Some bitBuffer
  | S count' =>
      key ← keys !! i;
      let h := bloomHash key in
      let delta := hash_delta h in
      put_loop kNumber bits keys (S i) count'
        (set_probes bits delta (Z.to_nat kNumber) h bitBuffer)
  end.

(** [putKeys]: the filter after the call. *)
Definition putKeys (this : t) (keys : list Slice) (n : Z) : option t :=
  let bits := _bitsPerKey this * n in
  let bits := if bits <? 64 then 64 else bits in
  let bytes : Q := (inject_Z (bits + 7) / 8)%Q in
  let bits : Q := (bytes * 8)%Q in
  let bitBuffer := BitBuffer.resizeBits (_bitBuffer this) bits in
  let bits := BitBuffer.bits bitBuffer in
  bitBuffer ← put_loop (_kNumber this) bits keys 0 (Z.to_nat n) bitBuffer;
  let buffer :=
    Buffer.concat
      [bitBuffer;
       Buffer.slice (_buffer this)
         (_offset this + _size this - 1) (_offset this + _size this)] in
  Some {| _buffer := buffer;
          _offset := _offset this;
          _size := Buffer.size buffer;
          _kNumber := _kNumber this;
          _bitBuffer := bitBuffer;
          _bitsPerKey := _bitsPerKey this |}.

(** The loop of [keyMayMatch]. *)
Fixpoint probe (bitBuffer : BitBuffer.t) (delta : Z) (count : nat)
    (h : Z) : bool :=
  match count with
  | O => true
  | S count' =>
      let bitPosition := JS.rem h (BitBuffer.bits bitBuffer) in
      if negb (BitBuffer.get bitBuffer bitPosition) then false
      else probe bitBuffer delta count' (h + delta)
  end.

Definition keyMayMatch (key : Slice) (bloomFilter : Slice)
  : option bool :=
  filter ← make (Some bloomFilter) default_bitsPerKey;
  if 30 <? _kNumber filter then Some true
  else
    let h := bloomHash key in
    let delta := hash_delta h in
    Some (probe (_bitBuffer filter) delta (Z.to_nat (_kNumber filter)) h).

End WithHash.

End BloomFilter.

(** A hash function that sends every key to 0x00010000; it instantiates the
    hash parameter in examples. *)
Definition constant_hash : Hash.HashFn :=
  {| Hash.hash := fun _ _ => 65536 |}.

(** ** The [path] of DBHelper *)

Module Path.

(** Modelled from the spec: [path.resolve] of [DBHelper.ts], which is not
    among the sources, for a database path that is absolute and normalised
    and a plain file name: the name is joined to the path. *)
Definition resolve (dbpath name : string) : string :=
  dbpath +:+ "/" +:+ name.

End Path.

(** ** Filename.ts *)

Module Filename.

Definition digit_char (d : Z) : ascii := ascii_of_nat (48 + Z.to_nat d).

(** The decimal digits of a natural number, most significant first; the
    fuel bounds the number of digits. *)
Fixpoint digits_fuel (fuel : nat) (n : Z) : string :=
  match fuel with
  | O => ""
  | S fuel' =>
      if n <? 10 then String (digit_char n) ""
      else digits_fuel fuel' (n / 10) +:+ String (digit_char (n mod 10)) ""
  end.

Definition digits (n : Z) : string :=
  digits_fuel (S (Z.to_nat (Z.log2 n))) n.

(** The decimal that [Number::toString] chooses for a double [x] above
    [2^53], which is an integer: the one with the fewest significant digits
    that reads back as [x]; of two such the one nearer to [x], and of two
    at the same distance the one whose last digit is even.  The multiples
    of [10^p] on both sides of [x] are tried, from the greatest [p] down. *)
Fixpoint shortest (p : nat) (x : Z) : Z :=
  match p with
  | O => x
  | S p' =>
      let unit := 10 ^ Z.of_nat p in
      let lo := x / unit * unit in
      let hi := lo + unit in
      let lo_ok := JS.number_of_Z lo =? x in
      let hi_ok := JS.number_of_Z hi =? x in
      if lo_ok && hi_ok then
        if x - lo <? hi - x then lo
        else if hi - x <? x - lo then hi
        else if Z.even (x / unit) then lo else hi
      else if lo_ok then lo
      else if hi_ok then hi
      else shortest p' x
  end.

(** [v] without the zeros at its end. *)
Fixpoint strip_zeros (fuel : nat) (v : Z) : Z :=
  match fuel with
  | O => v
  | S fuel' =>
      if (v mod 10 =? 0) && negb (v =? 0) then strip_zeros fuel' (v / 10)
      else v
  end.

(** The string of the chosen decimal: all its digits up to 21 of them,
    from 22 digits on the significant digits with a point after the first
    one and the exponent. *)
Definition decimal_to_string (v : Z) : string :=
  let all := digits v in
  let n := Z.of_nat (String.length all) in
  if n <=? 21 then all
  else
    match digits (strip_zeros (String.length all) v) with
    | EmptyString => EmptyString
    | String c EmptyString => String c ("e+" +:+ digits (n - 1))
    | String c rest => String c (String "." rest) +:+ "e+" +:+ digits (n - 1)
    end.

(** [String(num)] for an integral [num] that is not negative.  Up to
    [2^53] the integers are doubles and their shortest decimals are their
    digits; above, [num] stands for the double nearest to it. *)
Definition String_abs (num : Z) : string :=
  if num <=? 2 ^ 53 then digits num
  else
    let x := JS.number_of_Z num in
    if 2 ^ 1024 <=? x then "Infinity"
    else decimal_to_string (shortest (String.length (digits x) - 1) x).

(** [String(num)] for an integral [num]. *)
Definition String_ (num : Z) : string :=
  if num <? 0 then String "-" (String_abs (- num)) else String_abs num.

(** The loop [while (str.length < 6) str = `0${str}`]; six rounds are
    enough for any string. *)
Fixpoint pad_loop (fuel : nat) (str : string) : string :=
  match fuel with
  | O => str
  | S fuel' =>
      if Z.of_nat (String.length str) <? 6
      then pad_loop fuel' (String "0" str)
      else str
  end.

Definition numberToString (num : Z) : string :=
  pad_loop 6 (String_ num).

Definition getCurrentFilename (dbpath : string) : string :=
  Path.resolve dbpath "CURRENT".

Definition getLogFilename (dbpath : string) (logNumber : Z) : string :=
  Path.resolve dbpath (numberToString logNumber +:+ ".log").

Definition getTableFilename (dbpath : string) (tableNumber : Z) : string :=
  Path.resolve dbpath (numberToString tableNumber +:+ ".ldb").

Definition getManifestFilename (dbpath : string) (manifestNumber : Z)
  : string :=
  Path.resolve dbpath ("MANIFEST-" +:+ numberToString manifestNumber).

Definition getLockFilename (dbpath : string) : string :=
  Path.resolve dbpath "LOCK".

Definition getInfoLogFilename (dbpath : string) : string :=
  Path.resolve dbpath "LOG".

Definition getOldInfoLogFilename (dbpath : string) : string :=
  Path.resolve dbpath "LOG.old".

Definition getTempFilename (dbpath : string) (number : Z) : option string :=
  _ ← assert (0 <? number);
  Some (Path.resolve dbpath (String_ number +:+ ".dbtmp")).

(** Reading a string of decimal digits; [None] when a character is not a
    digit.  It states what "encodes [n] in decimal" means. *)
Definition digit_of_ascii (c : ascii) : option Z :=
  let n := Z.of_nat (nat_of_ascii c) in
  if (48 <=? n) && (n <=? 57) then Some (n - 48) else None.

Fixpoint decimal_value_from (acc : Z) (s : string) : option Z :=
  match s with
  | EmptyString => Some acc
  | String c s' =>
      d ← digit_of_ascii c;
      decimal_value_from (10 * acc + d) s'
  end.

Definition decimal_value (s : string) : option Z := decimal_value_from 0 s.

(** [s] is the zero-padded six-digit decimal of [n]. *)
Definition six_digit_decimal (n : Z) (s : string) : Prop :=
  String.length s = 6%nat /\ decimal_value s = Some n.

End Filename.

(** ** VersionFormat.ts, Options.ts, Version.ts: the data that the
    compaction code reads *)

Module VersionFormat.

(** Modelled from the spec: the metadata of one table file
    ([VersionFormat.ts] is not among the sources): number, byte size,
    smallest and largest internal key, allowed seeks, reference count. *)
Record FileMetaData := {
  number : Z;
  fileSize : Z;
  smallest : Slice;
  largest : Slice;
  allowedSeeks : Z;
  refs : Z
}.

(** Modelled from the spec: [max_bytes_for_level(L) = 10^L x 10 MiB]. *)
Definition getMaxBytesForLevel (level : Z) : Z :=
  10 ^ level * (10 * 1048576).

End VersionFormat.

Module Options.

(** Modelled from the spec: the options that the modelled code reads
    ([Options.ts] is not among the sources). *)
Record t := {
  maxFileSize : Z;
  debug : bool
}.

(** The default [max_file_size] of 2 MiB. *)
Definition defaultOptions : t :=
  {| maxFileSize := 2 * 1048576; debug := false |}.

End Options.

Module Config.

Definition kNumLevels : Z := 7.
Definition kL0CompactionTrigger : Z := 4.
Definition kL0SlowdownWritesTrigger : Z := 8.
Definition kL0StopWritesTrigger : Z := 12.
Definition kMaxMemCompactLevel : Z := 2.
Definition kReadBytesPeriod : Z := 1048576.

End Config.

Module Version.

Import VersionFormat.

(** What a version reads through its back pointer to the version set. *)
Record VersionSetRef := {
  _options : Options.t;
  internalKeyComparator : Comparator.t
}.

(** Modelled from the spec: a version ([Version.ts] is not among the
    sources): the files of each level, the precomputed compaction level
    and score, the reference count. *)
Record t := {
  versionSet : VersionSetRef;
  files : list (list FileMetaData);
  compactionLevel : Z;
  compactionScore : Q;
  refs : Z
}.

Definition set_refs (v : t) (r : Z) : t :=
  {| versionSet := versionSet v; files := files v;
     compactionLevel := compactionLevel v;
     compactionScore := compactionScore v; refs := r |}.

Definition ref (v : t) : t := set_refs v (refs v + 1).

(** Modelled from the spec: [unref] takes one reference away, and a version
    whose count reaches zero is destroyed and unlinked from the ring of
    versions.  The result is the version as it stays in the ring; [None]
    says that it is gone. *)
Definition unref (v : t) : option t :=
  let v := set_refs v (refs v - 1) in
  if refs v =? 0 then None else Some v.

Definition set_compaction (v : t) (level : Z) (score : Q) : t :=
  {| versionSet := versionSet v; files := files v;
     compactionLevel := level; compactionScore := score; refs := refs v |}.

(** [new Version(versionSet)]: seven empty levels. *)
Definition make (vs : VersionSetRef) : t :=
  {| versionSet := vs;
     files := repeat [] (Z.to_nat Config.kNumLevels);
     compactionLevel := -1; compactionScore := -1; refs := 0 |}.

End Version.

(** ** VersionEdit.ts *)

Module VersionEdit.

Import VersionFormat.

(** Modelled from the spec: a version edit ([VersionEdit.ts] is not among the
    sources): optional comparator name, optional log, previous-log, next-file
    and last-sequence numbers, compact pointers, deleted files, added files.
    Assigning an optional number also records that it is present. *)
Record t := {
  comparator : option string;
  hasLogNumber : bool;
  logNumber : Z;
  hasPrevLogNumber : bool;
  prevLogNumber : Z;
  hasNextFileNumber : bool;
  nextFileNumber : Z;
  hasLastSequence : bool;
  lastSequence : Z;
  compactPointers : list (Z * Slice);
  deletedFiles : list (Z * Z);
  newFiles : list (Z * FileMetaData)
}.

Definition make : t :=
  {| comparator := None;
     hasLogNumber := false; logNumber := 0;
     hasPrevLogNumber := false; prevLogNumber := 0;
     hasNextFileNumber := false; nextFileNumber := 0;
     hasLastSequence := false; lastSequence := 0;
     compactPointers := []; deletedFiles := []; newFiles := [] |}.

Definition set_logNumber (e : t) (v : Z) : t :=
  {| comparator := comparator e;
     hasLogNumber := true; logNumber := v;
     hasPrevLogNumber := hasPrevLogNumber e; prevLogNumber := prevLogNumber e;
     hasNextFileNumber := hasNextFileNumber e;
     nextFileNumber := nextFileNumber e;
     hasLastSequence := hasLastSequence e; lastSequence := lastSequence e;
     compactPointers := compactPointers e; deletedFiles := deletedFiles e;
     newFiles := newFiles e |}.

Definition set_prevLogNumber (e : t) (v : Z) : t :=
  {| comparator := comparator e;
     hasLogNumber := hasLogNumber e; logNumber := logNumber e;
     hasPrevLogNumber := true; prevLogNumber := v;
     hasNextFileNumber := hasNextFileNumber e;
     nextFileNumber := nextFileNumber e;
     hasLastSequence := hasLastSequence e; lastSequence := lastSequence e;
     compactPointers := compactPointers e; deletedFiles := deletedFiles e;
     newFiles := newFiles e |}.

Definition set_nextFileNumber (e : t) (v : Z) : t :=
  {| comparator := comparator e;
     hasLogNumber := hasLogNumber e; logNumber := logNumber e;
     hasPrevLogNumber := hasPrevLogNumber e; prevLogNumber := prevLogNumber e;
     hasNextFileNumber := true; nextFileNumber := v;
     hasLastSequence := hasLastSequence e; lastSequence := lastSequence e;
     compactPointers := compactPointers e; deletedFiles := deletedFiles e;
     newFiles := newFiles e |}.

Definition set_lastSequence (e : t) (v : Z) : t :=
  {| comparator := comparator e;
     hasLogNumber := hasLogNumber e; logNumber := logNumber e;
     hasPrevLogNumber := hasPrevLogNumber e; prevLogNumber := prevLogNumber e;
     hasNextFileNumber := hasNextFileNumber e;
     nextFileNumber := nextFileNumber e;
     hasLastSequence := true; lastSequence := v;
     compactPointers := compactPointers e; deletedFiles := deletedFiles e;
     newFiles := newFiles e |}.

Definition set_comparator (e : t) (name : string) : t :=
  {| comparator := Some name;
     hasLogNumber := hasLogNumber e; logNumber := logNumber e;
     hasPrevLogNumber := hasPrevLogNumber e; prevLogNumber := prevLogNumber e;
     hasNextFileNumber := hasNextFileNumber e;
     nextFileNumber := nextFileNumber e;
     hasLastSequence := hasLastSequence e; lastSequence := lastSequence e;
     compactPointers := compactPointers e; deletedFiles := deletedFiles e;
     newFiles := newFiles e |}.

Definition setCompactPointer (e : t) (level : Z) (key : Slice) : t :=
  {| comparator := comparator e;
     hasLogNumber := hasLogNumber e; logNumber := logNumber e;
     hasPrevLogNumber := hasPrevLogNumber e; prevLogNumber := prevLogNumber e;
     hasNextFileNumber := hasNextFileNumber e;
     nextFileNumber := nextFileNumber e;
     hasLastSequence := hasLastSequence e; lastSequence := lastSequence e;
     compactPointers := compactPointers e ++ [(level, key)];
     deletedFiles := deletedFiles e;
     newFiles := newFiles e |}.

Definition addFile (e : t) (level : Z) (f : FileMetaData) : t :=
  {| comparator := comparator e;
     hasLogNumber := hasLogNumber e; logNumber := logNumber e;
     hasPrevLogNumber := hasPrevLogNumber e; prevLogNumber := prevLogNumber e;
     hasNextFileNumber := hasNextFileNumber e;
     nextFileNumber := nextFileNumber e;
     hasLastSequence := hasLastSequence e; lastSequence := lastSequence e;
     compactPointers := compactPointers e;
     deletedFiles := deletedFiles e;
     newFiles := newFiles e ++ [(level, f)] |}.

End VersionEdit.

(** ** Compaction.ts *)

Module Compaction.

Import VersionFormat.

Definition targetFileSize (options : Options.t) : Z :=
  Options.maxFileSize options.

Definition maxGrandParentOverlapBytes (options : Options.t) : Z :=
  10 * targetFileSize options.

Definition totalFileSize (files : list FileMetaData) : Z :=
  fold_left (fun sum file => sum + fileSize file) files 0.

Definition maxFileSizeForLevel (options : Options.t) (level : Z) : Z :=
  targetFileSize options.

(** The fields [inputVersion] and [grandparents] are declared without an
    initialiser and the constructor does not assign them: they are
    [undefined], here [None], until they are assigned. *)
Record t := {
  level : Z;
  inputVersion : option Version.t;
  grandparents : option (list FileMetaData);
  inputs : list FileMetaData * list FileMetaData;
  grandparentIndex : Z;
  seenKey : bool;
  overlappedBytes : Z;
  _maxOutputFilesize : Z;
  levelPtrs : list Z;
  edit : VersionEdit.t
}.

(** [new Compaction(options, level)] *)
Definition make (options : Options.t) (level : Z) : t :=
  {| level := level;
     inputVersion := None;
     grandparents := None;
     inputs := ([], []);
     grandparentIndex := 0;
     seenKey := false;
     overlappedBytes := 0;
     _maxOutputFilesize := maxFileSizeForLevel options level;
     levelPtrs := repeat 0 (Z.to_nat Config.kNumLevels);
     edit := VersionEdit.make |}.

Definition set_inputVersion (c : t) (v : option Version.t) : t :=
  {| level := level c; inputVersion := v; grandparents := grandparents c;
     inputs := inputs c; grandparentIndex := grandparentIndex c;
     seenKey := seenKey c; overlappedBytes := overlappedBytes c;
     _maxOutputFilesize := _maxOutputFilesize c;
     levelPtrs := levelPtrs c; edit := edit c |}.

Definition set_inputs0 (c : t) (files : list FileMetaData) : t :=
  {| level := level c; inputVersion := inputVersion c;
     grandparents := grandparents c;
     inputs := (files, snd (inputs c));
     grandparentIndex := grandparentIndex c;
     seenKey := seenKey c; overlappedBytes := overlappedBytes c;
     _maxOutputFilesize := _maxOutputFilesize c;
     levelPtrs := levelPtrs c; edit := edit c |}.

(** [which] is 0 or 1. *)
Definition numInputFiles (this : t) (which : Z) : Z :=
  if which =? 0 then Z.of_nat (length (fst (inputs this)))
  else Z.of_nat (length (snd (inputs this))).

(** [isTrivialMove]: reading [versionSet] off a missing input version
    throws, and so does summing the sizes of missing grandparents; the
    conjunction is evaluated left to right and stops at the first false
    operand. *)
Definition isTrivialMove (this : t) : option bool :=
  inputVersion ← inputVersion this;
  let versionSet := Version.versionSet inputVersion in
  if negb (numInputFiles this 0 =? 1) then Some false
  else if negb (numInputFiles this 1 =? 0) then Some false
  else
    grandparents ← grandparents this;
    Some (totalFileSize grandparents
          <=? maxGrandParentOverlapBytes (Version._options versionSet)).

End Compaction.

(** ** The environment: files, the log writer, statuses *)

Module Env.

(** A file is a log of records (a write-ahead log, a MANIFEST) or a text
    (CURRENT). *)
Inductive FileContent :=
| Records (records : list Buffer.t)
| Text (content : string).

(** The files of the database directory, by name. *)
Abbreviation t := (gmap string FileContent).

(** Whether each file operation of one call of [logAndApply] succeeds.  A
    failed [open], [close] or [unlink] throws out of the call; a failed
    write is caught in a [Status]. *)
Record Outcomes := {
  open_ok : bool;
  snapshot_ok : bool;
  addRecord_ok : bool;
  writeCurrent_ok : bool;
  close_ok : bool;
  unlink_ok : bool
}.

(** [env.open(name, "a")] creates the file when it is not there. *)
Definition open_append (env : t) (name : string) : t :=
  match env !! name with
  | Some _ => env
  | None => <[name := Records []]> env
  end.

Definition append_record (env : t) (name : string) (record : Buffer.t) : t :=
  match env !! name with
  | Some (Records records) => <[name := Records (records ++ [record])]> env
  | _ => env
  end.

Definition unlink (env : t) (name : string) : t := delete name env.

Definition writeFile (env : t) (name : string) (content : string) : t :=
  <[name := Text content]> env.

End Env.

Module Status.

(** Modelled from the spec: a [Status] wraps the promise of an operation
    ([Status.ts] is not among the sources); [ok()] tells whether the promise
    was fulfilled. *)
Inductive t := Ok | Failed.

Definition ok (s : t) : bool :=
  match s with Ok => true | Failed => false end.

End Status.

Module LogWriter.

(** Modelled from the spec: the writer of a log file ([LogWriter.ts] is not
    among the sources); [addRecord] appends one record to its file. *)
Record t := { file : string }.

Definition addRecord (w : t) (record : Buffer.t) (succeeds : bool)
    (env : Env.t) : Status.t * Env.t :=
  if succeeds then (Status.Ok, Env.append_record env (file w) record)
  else (Status.Failed, env).

End LogWriter.

(** ** VersionSet (the unnamed source part_000) *)

Module VersionSet.

Import VersionFormat.

(** The code that [VersionSet] calls and that is not among the sources:
    [VersionBuilder] ([apply] followed by [saveTo], and the compact pointers
    that [apply] records on the version set), [VersionEditRecord.add], and
    [Version.getOverlappingInputs]. *)
Class Collaborators := {
  builder_saveTo : Version.t -> VersionEdit.t -> Version.t -> Version.t;
  builder_compactPointers : gmap Z Slice -> VersionEdit.t -> gmap Z Slice;
  encodeEdit : VersionEdit.t -> Buffer.t;
  getOverlappingInputs : Version.t -> Z -> Slice -> Slice -> list FileMetaData
}.

(** The version set.  The ring of versions is [older] followed by
    [_current]; [manifestWriter] is [None] when the field is not set. *)
Record t := {
  compactPointers : gmap Z Slice;
  _current : Version.t;
  older : list Version.t;
  logNumber : Z;
  prevLogNumber : Z;
  _lastSequence : Z;
  manifestFileNumber : Z;
  nextFileNumber : Z;
  _dbpath : string;
  _options : Options.t;
  internalKeyComparator : Comparator.t;
  manifestWriter : option LogWriter.t
}.

Definition set_compactPointers (vs : t) (p : gmap Z Slice) : t :=
  {| compactPointers := p; _current := _current vs; older := older vs;
     logNumber := logNumber vs; prevLogNumber := prevLogNumber vs;
     _lastSequence := _lastSequence vs;
     manifestFileNumber := manifestFileNumber vs;
     nextFileNumber := nextFileNumber vs; _dbpath := _dbpath vs;
     _options := _options vs;
     internalKeyComparator := internalKeyComparator vs;
     manifestWriter := manifestWriter vs |}.

Definition set_manifestWriter (vs : t) (w : option LogWriter.t) : t :=
  {| compactPointers := compactPointers vs; _current := _current vs;
     older := older vs;
     logNumber := logNumber vs; prevLogNumber := prevLogNumber vs;
     _lastSequence := _lastSequence vs;
     manifestFileNumber := manifestFileNumber vs;
     nextFileNumber := nextFileNumber vs; _dbpath := _dbpath vs;
     _options := _options vs;
     internalKeyComparator := internalKeyComparator vs;
     manifestWriter := w |}.

Definition set_current (vs : t) (cur : Version.t) (old : list Version.t) : t :=
  {| compactPointers := compactPointers vs; _current := cur; older := old;
     logNumber := logNumber vs; prevLogNumber := prevLogNumber vs;
     _lastSequence := _lastSequence vs;
     manifestFileNumber := manifestFileNumber vs;
     nextFileNumber := nextFileNumber vs; _dbpath := _dbpath vs;
     _options := _options vs;
     internalKeyComparator := internalKeyComparator vs;
     manifestWriter := manifestWriter vs |}.

Definition set_logNumbers (vs : t) (log prev : Z) : t :=
  {| compactPointers := compactPointers vs; _current := _current vs;
     older := older vs;
     logNumber := log; prevLogNumber := prev;
     _lastSequence := _lastSequence vs;
     manifestFileNumber := manifestFileNumber vs;
     nextFileNumber := nextFileNumber vs; _dbpath := _dbpath vs;
     _options := _options vs;
     internalKeyComparator := internalKeyComparator vs;
     manifestWriter := manifestWriter vs |}.

(** The back pointer that a version built by this version set holds. *)
Definition self (vs : t) : Version.VersionSetRef :=
  {| Version._options := _options vs;
     Version.internalKeyComparator := internalKeyComparator vs |}.

Definition maxFileSizeForLevel (options : Options.t) (level : Z) : Z :=
  Options.maxFileSize options.

Definition getTotalBytes (files : list FileMetaData) : Z :=
  fold_left (fun sum f => sum + fileSize f) files 0.

Definition markFileNumberUsed (nextFileNumber num : Z) : Z :=
  if nextFileNumber <=? num then num + 1 else nextFileNumber.

(** The loop of [finalize] from [level] on; reading the files of a level
    that the version does not have throws.  A score is a double: the
    quotient rounded to the nearest one, and [score > bestScore] compares
    the rounded values.  The byte total of a level is the sum of the file
    sizes, which number addition gives exactly as long as it stays within
    [2^53]. *)
Fixpoint finalize_loop (files : list (list FileMetaData)) (level : Z)
    (count : nat) (bestLevel : Z) (bestScore : Q) : option (Z * Q) :=
  match count with
  | O => Some (bestLevel, bestScore)
  | S count' =>
      levelFiles ← files !! Z.to_nat level;
      let score :=
        if level =? 0 then
          JS.fdiv (inject_Z (Z.of_nat (length levelFiles)))
            (inject_Z Config.kL0CompactionTrigger)
        else
          JS.fdiv (inject_Z (getTotalBytes levelFiles))
            (inject_Z (getMaxBytesForLevel level)) in
      if negb (Qle_bool score bestScore)
      then finalize_loop files (level + 1) count' level score
      else finalize_loop files (level + 1) count' bestLevel bestScore
  end.

Definition finalize (ver : Version.t) : option Version.t :=
  best ← finalize_loop (Version.files ver) 0 (Z.to_nat Config.kNumLevels)
            (-1) (-1);
  Some (Version.set_compaction ver (fst best) (snd best)).

(** [appendVersion]: the new version has no reference yet; it becomes the
    current one and the last of the ring.  The former current version loses
    the reference of the version set: it stays in the ring as long as
    something else holds it, and leaves the ring with its last reference.
    The second assertion of the source compares object identities, and a
    version that was just constructed is no other object. *)
Definition appendVersion (this : t) (ver : Version.t) : option t :=
  _ ← assert (Version.refs ver =? 0);
  Some (set_current this (Version.ref ver)
          (older this ++ option_list (Version.unref (_current this)))).

Section WithCollaborators.

Context {C : Collaborators}.

(** The edit that [writeSnapshot] builds from the current state. *)
Definition snapshot_edit (this : t) : option VersionEdit.t :=
  let edit :=
    VersionEdit.set_comparator VersionEdit.make
      (Comparator.getName (internalKeyComparator this)) in
  let edit :=
    fold_left
      (fun edit level =>
         match compactPointers this !! level with
         | Some pointer =>
             if negb (Buffer.size pointer =? 0)
             then VersionEdit.setCompactPointer edit level pointer
             else edit
         | None => edit
         end)
      (seqZ 0 Config.kNumLevels) edit in
  fold_left
    (fun edit level =>
       edit ← edit;
       files ← Version.files (_current this) !! Z.to_nat level;
       Some (fold_left (fun edit f => VersionEdit.addFile edit level f)
               files edit))
    (seqZ 0 Config.kNumLevels) (Some edit).

Definition writeSnapshot (this : t) (writer : LogWriter.t) (succeeds : bool)
    (env : Env.t) : option (Status.t * Env.t) :=
  edit ← snapshot_edit this;
  Some (LogWriter.addRecord writer (encodeEdit edit) succeeds env).

(** [writeCurrentFile]: an asynchronous function, so a failed assertion is a
    rejected promise and not an exception of the caller. *)
Definition writeCurrentFile (dbpath : string) (manifestFileNumber : Z)
    (succeeds : bool) (env : Env.t) : Status.t * Env.t :=
  let currentFilename := Filename.getCurrentFilename dbpath in
  let manifestFilename :=
    Filename.getManifestFilename dbpath manifestFileNumber in
  if negb (String.prefix (dbpath +:+ "/") manifestFilename)
  then (Status.Failed, env)
  else
    let start := S (String.length dbpath) in
    let manifestFilename :=
      String.substring start (String.length manifestFilename - start)
        manifestFilename in
    if succeeds
    then (Status.Ok,
          Env.writeFile env currentFilename
            (manifestFilename +:+ String (ascii_of_nat 10) ""))
    else (Status.Failed, env).

(** An operation of the environment that throws when it fails. *)
Definition attempt (succeeds : bool) : option unit :=
  if succeeds then Some tt else None.

(** [logAndApply], first part: the numbers that the edit lacks are taken
    from the version set. *)
Definition complete_edit (this : t) (edit : VersionEdit.t)
    : option VersionEdit.t :=
  edit ←
    (if VersionEdit.hasLogNumber edit then
       _ ← assert (logNumber this <=? VersionEdit.logNumber edit);
       _ ← assert (VersionEdit.logNumber edit <? nextFileNumber this);
       Some edit
     else Some (VersionEdit.set_logNumber edit (logNumber this)));
  let edit :=
    if negb (VersionEdit.hasPrevLogNumber edit)
    then VersionEdit.set_prevLogNumber edit (prevLogNumber this)
    else edit in
  let edit := VersionEdit.set_nextFileNumber edit (nextFileNumber this) in
  Some (VersionEdit.set_lastSequence edit (_lastSequence this)).

(** [logAndApply], the descriptor file: when no writer is open, a MANIFEST
    is opened and a snapshot of the current version written to it.  The
    result starts with [manifestFilename], empty when no file was opened, and
    the status so far. *)
Definition open_manifest (this : t) (outcome : Env.Outcomes) (env : Env.t)
    (edit : VersionEdit.t)
    : option (string * Status.t * t * Env.t * VersionEdit.t) :=
  match manifestWriter this with
  | None =>
      let manifestFilename :=
        Filename.getManifestFilename (_dbpath this)
          (manifestFileNumber this) in
      let edit := VersionEdit.set_nextFileNumber edit (nextFileNumber this) in
      _ ← attempt (Env.open_ok outcome);
      let env := Env.open_append env manifestFilename in
      let writer := {| LogWriter.file := manifestFilename |} in
      let this := set_manifestWriter this (Some writer) in
      '(status, env) ←
        writeSnapshot this writer (Env.snapshot_ok outcome) env;
      Some (manifestFilename, status, this, env, edit)
  | Some _ => Some (EmptyString, Status.Ok, this, env, edit)
  end.

(** [logAndApply], last part: the edit is appended to the MANIFEST, a new
    MANIFEST is made current, and the new version is installed, or on
    failure a new MANIFEST is deleted. *)
Definition install (this : t) (outcome : Env.Outcomes) (env : Env.t)
    (edit : VersionEdit.t) (ver : Version.t) (manifestFilename : string)
    (status : Status.t) : option (Status.t * t * Env.t) :=
  '(status, env) ←
    (if Status.ok status then
       writer ← manifestWriter this;
       Some (LogWriter.addRecord writer (encodeEdit edit)
               (Env.addRecord_ok outcome) env)
     else Some (status, env));
  let '(status, env) :=
    if Status.ok status && (0 <? Z.of_nat (String.length manifestFilename))
    then writeCurrentFile (_dbpath this) (manifestFileNumber this)
           (Env.writeCurrent_ok outcome) env
    else (status, env) in
  if Status.ok status then
    this ←
      (if negb (String.eqb manifestFilename EmptyString) then
         _ ← attempt (Env.close_ok outcome);
         Some (set_manifestWriter this None)
       else Some this);
    this ← appendVersion this ver;
    Some (status,
          set_logNumbers this (VersionEdit.logNumber edit)
            (VersionEdit.prevLogNumber edit),
          env)
  else
    if negb (String.eqb manifestFilename EmptyString) then
      _ ← attempt (Env.close_ok outcome);
      let this := set_manifestWriter this None in
      _ ← attempt (Env.unlink_ok outcome);
      Some (status, this, Env.unlink env manifestFilename)
    else Some (status, this, env).

(** [logAndApply]: the status returned, the version set and the files after
    the call; [None] when the call throws. *)
Definition logAndApply (this : t) (outcome : Env.Outcomes) (env : Env.t)
    (edit : VersionEdit.t) : option (Status.t * t * Env.t) :=
  edit ← complete_edit this edit;
  let ver := Version.make (self this) in
  let base := _current this in
  let this :=
    set_compactPointers this
      (builder_compactPointers (compactPointers this) edit) in
  let ver := builder_saveTo base edit ver in
  ver ← finalize ver;
  '(manifestFilename, status, this, env, edit) ←
    open_manifest this outcome env edit;
  install this outcome env edit ver manifestFilename status.

(** The loop of [compactRange] that stops the inputs at the first file with
    which the running total reaches the limit: [rest] are the files from
    index [i] on. *)
Fixpoint limit_inputs (limit : Z) (inputs : list FileMetaData) (i : nat)
    (rest : list FileMetaData) (total : Z) : list FileMetaData :=
  match rest with
  | [] => inputs
  | f :: rest' =>
      let total := total + fileSize f in
      if limit <=? total then take (S i) inputs
      else limit_inputs limit inputs (S i) rest' total
  end.

(** The level-[level] files that [compactRange] selects before it sets up
    the other inputs; [None] when nothing overlaps the range. *)
Definition compactRange_inputs (this : t) (level : Z) (begin end_ : Slice)
    : option (list FileMetaData) :=
  let inputs := getOverlappingInputs (_current this) level begin end_ in
  if Z.of_nat (length inputs) =? 0 then None
  else if 0 <? level then
    let limit := maxFileSizeForLevel (_options this) level in
    Some (limit_inputs limit inputs 0 inputs 0)
  else Some inputs.

End WithCollaborators.

End VersionSet.

(** ** Sample data for the examples *)

Module Samples.

Import VersionFormat.

Definition sample_file (n size : Z) : FileMetaData :=
  {| number := n; fileSize := size; smallest := []; largest := [];
     allowedSeeks := 100; refs := 0 |}.

Definition sample_ref : Version.VersionSetRef :=
  {| Version._options := Options.defaultOptions;
     Version.internalKeyComparator := Comparator.BytewiseComparator |}.

Definition sample_version : Version.t := Version.make sample_ref.

(** A compaction of one 2 MiB file with 1 MiB of grandparents. *)
Definition sample_move : Compaction.t :=
  {| Compaction.level := 1;
     Compaction.inputVersion := Some sample_version;
     Compaction.grandparents := Some [sample_file 9 1048576];
     Compaction.inputs := ([sample_file 5 2097152], []);
     Compaction.grandparentIndex := 0;
     Compaction.seenKey := false;
     Compaction.overlappedBytes := 0;
     Compaction._maxOutputFilesize := 2097152;
     Compaction.levelPtrs := repeat 0 7;
     Compaction.edit := VersionEdit.make |}.

(** A version with three files of 1.5 MiB at level 1. *)
Definition level1_version : Version.t :=
  {| Version.versionSet := sample_ref;
     Version.files :=
       [[]; [sample_file 11 1572864; sample_file 12 1572864;
             sample_file 13 1572864]; []; []; []; []; []];
     Version.compactionLevel := -1;
     Version.compactionScore := -1;
     Version.refs := 1 |}.

(** Collaborators for the examples: the builder keeps the files of its base,
    an edit is encoded as the empty record, every file of a level overlaps
    every range. *)
Definition sample_collaborators : VersionSet.Collaborators :=
  {| VersionSet.builder_saveTo :=
       fun base _ ver =>
         {| Version.versionSet := Version.versionSet ver;
            Version.files := Version.files base;
            Version.compactionLevel := Version.compactionLevel ver;
            Version.compactionScore := Version.compactionScore ver;
            Version.refs := Version.refs ver |};
     VersionSet.builder_compactPointers := fun pointers _ => pointers;
     VersionSet.encodeEdit := fun _ => [];
     VersionSet.getOverlappingInputs :=
       fun v level _ _ => default [] (Version.files v !! Z.to_nat level) |}.

(** A version set that was just recovered: no MANIFEST writer is open. *)
Definition sample_versionSet : VersionSet.t :=
  {| VersionSet.compactPointers := ∅;
     VersionSet._current := level1_version;
     VersionSet.older := [];
     VersionSet.logNumber := 3;
     VersionSet.prevLogNumber := 0;
     VersionSet._lastSequence := 100;
     VersionSet.manifestFileNumber := 4;
     VersionSet.nextFileNumber := 14;
     VersionSet._dbpath := "/db";
     VersionSet._options := Options.defaultOptions;
     VersionSet.internalKeyComparator := Comparator.BytewiseComparator;
     VersionSet.manifestWriter := None |}.

(** The snapshot cannot be written; everything else succeeds. *)
Definition snapshot_fails : Env.Outcomes :=
  {| Env.open_ok := true; Env.snapshot_ok := false;
     Env.addRecord_ok := true; Env.writeCurrent_ok := true;
     Env.close_ok := true; Env.unlink_ok := true |}.

End Samples.

(** ** Skiplist.ts *)

Module Skiplist.

Abbreviation t := (list Slice).

(** Modelled from the spec: the ordered structure of the memtable
    ([Skiplist.ts] is not among the sources), as the list of its keys in the
    order of the comparator.  [put] inserts a key after the keys that compare
    less; a comparator that throws makes the call throw. *)
Fixpoint put (compare : Slice -> Slice -> option Z) (list : t) (key : Slice)
    : option t :=
  match list with
  | [] => Some [key]
  | x :: list' =>
      c ← compare x key;
      if c <? 0 then cons x <$> put compare list' key
      else Some (key :: list)
  end.

(** Modelled from the spec: [seek] finds the first key that does not compare
    less than the given one; the inner [None] is "no such node". *)
Fixpoint seek (compare : Slice -> Slice -> option Z) (list : t) (key : Slice)
    : option (option Slice) :=
  match list with
  | [] => Some None
  | x :: list' =>
      c ← compare x key;
      if c <? 0 then seek compare list' key else Some (Some x)
  end.

End Skiplist.

(** ** The lookup key of Format.ts *)

Module LookupKey.

Record t := {
  _internalKeySizeBuf : Buffer.t;
  _userKeyBuf : Buffer.t;
  _sequenceBuf : Buffer.t
}.

Definition make (userKey : Slice) (sequence : Z) : t :=
  let sequenceBuf := Coding.encodeFixed64 sequence in
  {| _userKeyBuf := userKey;
     _internalKeySizeBuf := Coding.varint_encode (Buffer.size userKey + 8);
     _sequenceBuf :=
       Buffer.fillBuffer sequenceBuf
         (Coding.varint_encode
            (Format.ValueType_code Format.kValueTypeForSeek))
         7 (Buffer.size sequenceBuf) |}.

Definition buffer (this : t) : Buffer.t :=
  Buffer.concat [_internalKeySizeBuf this; _userKeyBuf this;
                 _sequenceBuf this].

Definition internalKey (this : t) : Slice :=
  Buffer.concat [_userKeyBuf this; _sequenceBuf this].

Definition memKey (this : t) : Slice := buffer this.

Definition userKey (this : t) : Slice := _userKeyBuf this.

End LookupKey.

(** ** The memtable (in Format.ts) *)

Module MemTable.

Import Format.

(** Modelled from the spec: [getLengthPrefixedSlice] of [Coding.ts]: a
    varint length, then that many bytes. *)
Definition getLengthPrefixedSlice (key : Slice) : option Slice :=
  '(len, n) ← Coding.varint_decode key;
  Some (Buffer.slice key n (n + len)).

(** An entry read from the memtable. *)
Record Entry := {
  entry_key : Slice;
  entry_value : Slice;
  entry_type : option Z
}.

Definition getEntryFromMemTableKey (key : Slice) : option Entry :=
  '(internalKeySize, bytes) ← Coding.varint_decode key;
  let index := bytes in
  let internalKey := Buffer.slice key index (index + internalKeySize) in
  let index := index + internalKeySize in
  '(valueSize, bytes) ← Coding.varint_decode (Buffer.slice_from key index);
  let index := index + bytes in
  let value := Buffer.slice key index (index + valueSize) in
  Some {| entry_key := internalKey; entry_value := value;
          entry_type := None |}.

Record t := {
  _immutable : bool;
  _list : Skiplist.t;
  _size : Z;
  refs : Z;
  internalKeyComparator : Comparator.t
}.

(** The constructor; [internalKeyComparator] is given by its user
    comparator. *)
Definition make (internalKeyComparator : Comparator.t) : t :=
  {| _immutable := false;
     internalKeyComparator := internalKeyComparator;
     _list := [];
     _size := 0;
     refs := 0 |}.

Definition keyComparator (this : t) (a b : Slice) : option Z :=
  internalKeyBufA ← getLengthPrefixedSlice a;
  internalKeyBufB ← getLengthPrefixedSlice b;
  InternalKeyComparator.compare (internalKeyComparator this)
    internalKeyBufA internalKeyBufB.

Definition ref (this : t) : t :=
  {| _immutable := _immutable this; _list := _list this;
     _size := _size this; refs := refs this + 1;
     internalKeyComparator := internalKeyComparator this |}.

Definition unref (this : t) : t :=
  {| _immutable := _immutable this; _list := _list this;
     _size := _size this; refs := refs this - 1;
     internalKeyComparator := internalKeyComparator this |}.

Definition size (this : t) : Z := _size this.

(** The getter and the setter of [immutable]. *)
Definition immutable (this : t) : bool := _immutable this.

Definition set_immutable (this : t) (next : bool) : t :=
  if next then
    {| _immutable := true; _list := _list this;
       _size := _size this; refs := refs this;
       internalKeyComparator := internalKeyComparator this |}
  else this.

(** [add]: the memtable after the call; [value] is [None] when the argument
    is left out. *)
Definition add (this : t) (sequence : Z) (valueType : ValueType)
    (key : Slice) (value : option Slice) : option t :=
  let keySize := Buffer.size key in
  let valueSize :=
    match value with None => 0 | Some v => Buffer.size v end in
  let internalKeySize := keySize + 8 in
  let valueSizeBuf := Coding.varint_encode valueSize in
  let encodedLength :=
    internalKeySize + valueSize + Buffer.size valueSizeBuf in
  let internalKeySizeBuf := Coding.varint_encode internalKeySize in
  let encodedLength := encodedLength + Buffer.size internalKeySizeBuf in
  let sequenceBuf := Coding.encodeFixed64 sequence in
  let sequenceBuf :=
    Buffer.fillInt sequenceBuf (ValueType_code valueType) 7 8 in
  let buf :=
    Buffer.concat
      [internalKeySizeBuf; key; sequenceBuf; valueSizeBuf;
       match value with None => Buffer.alloc 0 | Some v => v end] in
  _ ← assert (encodedLength =? Buffer.size buf);
  list ← Skiplist.put (keyComparator this) (_list this) buf;
  Some {| _immutable := _immutable this; _list := list;
          _size := _size this + Buffer.size buf; refs := refs this;
          internalKeyComparator := internalKeyComparator this |}.

(** [get]: the inner [None] is the result [undefined]. *)
Definition get (this : t) (key : LookupKey.t) : option (option Entry) :=
  let memkey := LookupKey.memKey key in
  node ← Skiplist.seek (keyComparator this) (_list this) memkey;
  match node with
  | None => Some None
  | Some nodeKey =>
      entry ← getEntryFromMemTableKey nodeKey;
      let internalKey := entry_key entry in
      _ ← assert (0 <? Buffer.size internalKey);
      userKey ← InternalKey.userKey internalKey;
      if Comparator.compare (internalKeyComparator this) userKey
           (LookupKey.userKey key) =? 0
      then Some (Some {| entry_key := entry_key entry;
                         entry_value := entry_value entry;
                         entry_type := InternalKey.type internalKey |})
      else Some None
  end.

(** [iterator]: the entries in order, or in reverse order. *)
Definition iterator (this : t) (reverse : bool) : option (list Entry) :=
  mapM getEntryFromMemTableKey
    (if reverse then rev (_list this) else _list this).

(** The operations on a memtable, and the memtable after each one.  A call
    that throws, and a call that only reads, leave it as it was. *)
Inductive operation :=
| Ref
| Unref
| ReadSize
| ReadImmutable
| SetImmutable (next : bool)
| Add (sequence : Z) (valueType : ValueType) (key : Slice)
      (value : option Slice)
| Get (key : LookupKey.t)
| Iterate (reverse : bool).

Definition step (this : t) (o : operation) : t :=
  match o with
  | Ref => ref this
  | Unref => unref this
  | SetImmutable next => set_immutable this next
  | Add sequence valueType key value =>
      default this (add this sequence valueType key value)
  | ReadSize | ReadImmutable | Get _ | Iterate _ => this
  end.

Definition run (this : t) (os : list operation) : t :=
  fold_left step os this.

End MemTable.

(** ** The entries of a memtable *)

Module MemTableEntry.

Import Format.

(** The memtable key that [MemTable.add] builds and puts into the list:
    the varint of the internal key size, the user key, the eight bytes of
    sequence number and type, the varint of the value size, the value. *)
Definition entry_buffer (sequence : Z) (valueType : ValueType) (key : Slice)
    (value : option Slice) : Buffer.t :=
  Buffer.concat
    [Coding.varint_encode (Buffer.size key + 8);
     key;
     Buffer.fillInt (Coding.encodeFixed64 sequence)
       (ValueType_code valueType) 7 8;
     Coding.varint_encode
       (match value with None => 0 | Some v => Buffer.size v end);
     match value with None => Buffer.alloc 0 | Some v => v end].

(** The bytes of the value argument of [add], empty when it is left out. *)
Definition value_bytes (value : option Slice) : Slice :=
  match value with None => [] | Some v => v end.

(** An entry of the list that [add] built from a sequence number below
    [bound], with sizes that are JavaScript integers. *)
Definition written_below (bound : Z) (entry : Slice) : Prop :=
  exists sequence valueType key value,
    entry = entry_buffer sequence valueType key value
    /\ 0 <= sequence < bound
    /\ Buffer.size key + 8 < 2 ^ 53
    /\ Buffer.size (value_bytes value) < 2 ^ 53.

(** The order of two internal keys as [InternalKeyComparator.compare]
    computes it from the user keys and the sequence numbers. *)
Definition order (uc : Comparator.t) (k1 : Slice) (s1 : Z) (k2 : Slice)
    (s2 : Z) : Z :=
  let r := Comparator.compare uc k1 k2 in
  if negb (r =? 0) then r
  else if s1 =? s2 then 0
  else if s2 <? s1 then -1 else 1.

End MemTableEntry.

(** ** Sample memtables *)

Module MemTableSamples.

(** A memtable with one entry: key "a", sequence number 1, value "x". *)
Definition one_entry : MemTable.t :=
  MemTable.run (MemTable.make Comparator.BytewiseComparator)
    [MemTable.Add 1 Format.kTypeValue [97] (Some [120])].

End MemTableSamples.

(** ** The score of a level *)

Module LevelScore.

Import VersionFormat.

(** The score that the loop of [VersionSet.finalize] computes for a level:
    for level 0 the number of files over the compaction trigger, for the
    other levels the bytes of the level over its budget. *)
Definition score (levelFiles : list FileMetaData) (level : Z) : Q :=
  if level =? 0 then
    JS.fdiv (inject_Z (Z.of_nat (length levelFiles)))
      (inject_Z Config.kL0CompactionTrigger)
  else
    JS.fdiv (inject_Z (VersionSet.getTotalBytes levelFiles))
      (inject_Z (getMaxBytesForLevel level)).

(** The score of level [level] of a list of levels; a level that is not
    there counts as empty. *)
Definition of_level (files : list (list FileMetaData)) (level : Z) : Q :=
  score (default [] (files !! Z.to_nat level)) level.

(** A level is over its budget: level 0 holds at least
    [kL0CompactionTrigger] files, another level at least
    [getMaxBytesForLevel] bytes. *)
Definition over_budget (files : list (list FileMetaData)) (level : Z)
  : Prop :=
  if level =? 0
  then Config.kL0CompactionTrigger
       <= Z.of_nat (length (default [] (files !! 0%nat)))
  else getMaxBytesForLevel level
       <= VersionSet.getTotalBytes (default [] (files !! Z.to_nat level)).

(** The file sizes are byte counts, and the total of every level stays
    within [2^53], where the additions of [getTotalBytes] are exact. *)
Definition exact_sizes (files : list (list FileMetaData)) : bool :=
  forallb
    (fun levelFiles =>
       forallb (fun f => 0 <=? fileSize f) levelFiles
       && (VersionSet.getTotalBytes levelFiles <=? 2 ^ 53))
    files.

(** A version whose levels 1 and 2 hold 879609302220805 and
    8796093022208051 bytes: the quotient of level 2 is the greater one by
    less than the distance of two doubles. *)
Definition close_scores_version : Version.t :=
  {| Version.versionSet := Samples.sample_ref;
     Version.files :=
       [[]; [Samples.sample_file 11 879609302220805];
        [Samples.sample_file 12 8796093022208051]; []; []; []; []];
     Version.compactionLevel := -1;
     Version.compactionScore := -1;
     Version.refs := 0 |}.

End LevelScore.

(** ** What a snapshot holds *)

Module Snapshot.

Import VersionFormat.

(** The files of a version as the entries of an edit: level by level, each
    file with its level. *)
Definition files_of (files : list (list FileMetaData))
  : list (Z * FileMetaData) :=
  concat (imap (fun level levelFiles =>
                  map (pair (Z.of_nat level)) levelFiles) files).

(** The compact pointers that are set and not empty, by level. *)
Definition pointers_of (pointers : gmap Z Slice) : list (Z * Slice) :=
  omap (fun level =>
          match pointers !! level with
          | Some pointer =>
              if negb (Buffer.size pointer =? 0)
              then Some (level, pointer) else None
          | None => None
          end)
       (seqZ 0 Config.kNumLevels).

(** Two edits agree on everything but the compact pointers and the added
    files. *)
Definition same_numbers (e e' : VersionEdit.t) : Prop :=
  VersionEdit.comparator e' = VersionEdit.comparator e
  /\ VersionEdit.hasLogNumber e' = VersionEdit.hasLogNumber e
  /\ VersionEdit.hasPrevLogNumber e' = VersionEdit.hasPrevLogNumber e
  /\ VersionEdit.hasNextFileNumber e' = VersionEdit.hasNextFileNumber e
  /\ VersionEdit.hasLastSequence e' = VersionEdit.hasLastSequence e
  /\ VersionEdit.deletedFiles e' = VersionEdit.deletedFiles e.

(** Every file operation of a call of [logAndApply] succeeds. *)
Definition all_succeed : Env.Outcomes :=
  {| Env.open_ok := true; Env.snapshot_ok := true;
     Env.addRecord_ok := true; Env.writeCurrent_ok := true;
     Env.close_ok := true; Env.unlink_ok := true |}.

End Snapshot.

(** ** Filename.ts: parsing a file name *)

Module FilenameParse.

(** [FileType] of Format.ts. *)
Inductive FileType :=
| kLogFile
| kDBLockFile
| kTableFile
| kDescriptorFile
| kCurrentFile
| kTempFile
| kInfoLogFile.

(** Modelled from the spec: the JavaScript built-ins [Number] and [isNaN],
    as far as the code relies on them: a string of decimal digits that is
    not empty converts to the integer it denotes, exactly up to [2^53], and
    an integer is not [NaN]. *)
Class JSNumber := {
  number : Type;
  Number : string -> number;
  isNaN : number -> bool;
  of_integer : Z -> number;
  Number_decimal :
    forall s n,
      s <> EmptyString -> Filename.decimal_value s = Some n -> n <= 2 ^ 53 ->
      Number s = of_integer n;
  isNaN_integer : forall n, isNaN (of_integer n) = false
}.

(** The result of [parseFilename]; a field that was not assigned is
    [None]. *)
Record InternalFile `{JSNumber} := {
  isInternalFile : bool;
  file_number : option number;
  type : option FileType
}.

(** [s.split(".")[0]]: the characters before the first dot. *)
Fixpoint before_dot (s : string) : string :=
  match s with
  | EmptyString => EmptyString
  | String c s' =>
      if Ascii.eqb c "." then EmptyString else String c (before_dot s')
  end.

(** [s.substr(n)]: the string without its first [n] characters. *)
Fixpoint substr (s : string) (n : nat) : string :=
  match n, s with
  | O, _ => s
  | S n', String _ s' => substr s' n'
  | S _, EmptyString => EmptyString
  end.

Section WithNumber.

Context `{JSNumber}.

Definition not_internal : InternalFile :=
  {| isInternalFile := false; file_number := None; type := None |}.

Definition internal (num : number) (t : FileType) : InternalFile :=
  {| isInternalFile := true; file_number := Some num; type := Some t |}.

Definition parseFilename (filename : string) : InternalFile :=
  if String.eqb filename "CURRENT" then internal (of_integer 0) kCurrentFile
  else if String.eqb filename "LOCK" then internal (of_integer 0) kDBLockFile
  else if String.eqb filename "LOG" || String.eqb filename "LOG.old"
  then internal (of_integer 0) kInfoLogFile
  else if String.prefix "MANIFEST-" filename then
    let num := Number (substr filename (String.length "MANIFEST-")) in
    if isNaN num then not_internal
    else internal num kDescriptorFile
  else
    let num := Number (before_dot filename) in
    if isNaN num then not_internal
    else
      let suffix := substr filename (String.length (before_dot filename)) in
      if String.eqb suffix ".log" then internal num kLogFile
      else if String.eqb suffix ".ldb" then internal num kTableFile
      else if String.eqb suffix ".dbtmp" then internal num kTempFile
      else not_internal.

End WithNumber.

(** A sample of [Number]: it reads the strings of decimal digits, the empty
    string as 0 and every other string as [NaN], which is [None]. *)
Definition sample_number : JSNumber :=
  {| number := option Z;
     Number := fun s =>
       if String.eqb s EmptyString then Some 0 else Filename.decimal_value s;
     isNaN := fun x => match x with None => true | Some _ => false end;
     of_integer := Some;
     Number_decimal := fun s n Hs Hv _ =>
       match String.eqb_spec s EmptyString
             in reflect _ b
             return (if b then Some 0 else Filename.decimal_value s) = Some n
       with
       | ReflectT _ He => match Hs He with end
       | ReflectF _ _ => Hv
       end;
     isNaN_integer := fun _ => eq_refl |}.

End FilenameParse.

(** ** Filename.ts: making a MANIFEST current *)

Module CurrentFile.

(** Modelled from the spec: [path.resolve(dbpath + "/")] for a database
    path that is absolute and normalised: the path itself. *)
Definition resolve_directory (dbpath : string) : string := dbpath.

(** Modelled from the spec: [env.rename] moves the content of a file to
    another name ([Env.ts] is not among the sources). *)
Definition rename (env : Env.t) (oldpath newpath : string) : Env.t :=
  match env !! oldpath with
  | Some content => <[newpath := content]> (delete oldpath env)
  | None => env
  end.

(** [setCurrentFile]: the error returned ([Status.Failed] when the write
    failed) and the files after the call; [None] when the promise is
    rejected.  The three flags tell whether [writeFile], [rename] and
    [unlink] succeed. *)
Definition setCurrentFile (write_ok rename_ok unlink_ok : bool)
    (env : Env.t) (dbpath : string) (manifestNumber : Z)
    : option (Status.t * Env.t) :=
  let filename := Filename.getManifestFilename dbpath manifestNumber in
  _ ← assert (String.prefix (resolve_directory dbpath) filename);
  let content :=
    FilenameParse.substr filename
      (String.length (resolve_directory dbpath) + 1) in
  tempFilename ← Filename.getTempFilename dbpath manifestNumber;
  if write_ok then
    let env :=
      Env.writeFile env tempFilename
        (content +:+ String (ascii_of_nat 10) EmptyString) in
    _ ← VersionSet.attempt rename_ok;
    Some (Status.Ok,
          rename env tempFilename (Filename.getCurrentFilename dbpath))
  else
    _ ← VersionSet.attempt unlink_ok;
    Some (Status.Failed, Env.unlink env tempFilename).

End CurrentFile.

(** ** The block handle of Format.ts *)

Module BlockHandle.

Record t := {
  offset : Z;
  size : Z
}.

(** [BlockHandle.from]: two varints, the second one read where the first
    one ends. *)
Definition from (buf : Buffer.t) : option t :=
  '(offset, bytes) ← Coding.varint_decode buf;
  '(size, _) ← Coding.varint_decode (Buffer.slice_from buf bytes);
  Some {| offset := offset; size := size |}.

(** The getter [buffer] of a handle whose two fields are assigned. *)
Definition buffer (this : t) : Buffer.t :=
  Buffer.concat
    [Coding.varint_encode (offset this); Coding.varint_encode (size this)].

End BlockHandle.

(** ** The order of keys, and the key ranges of VersionSet *)

Module KeyOrder.

(** A user comparator that orders the keys: a total preorder. *)
Class Laws (c : Comparator.t) : Prop := {
  refl : forall a, Comparator.compare c a a = 0;
  flip : forall a b,
    Comparator.compare c a b < 0 <-> 0 < Comparator.compare c b a;
  trans : forall a b d,
    Comparator.compare c a b <= 0 -> Comparator.compare c b d <= 0 ->
    Comparator.compare c a d <= 0
}.

(** [a] is not above [b] in the internal-key order: the comparison returns
    and its result is not positive. *)
Definition le (uc : Comparator.t) (a b : Slice) : Prop :=
  exists c, Format.InternalKeyComparator.compare uc a b = Some c /\ c <= 0.

(** [a] is below [b]. *)
Definition lt (uc : Comparator.t) (a b : Slice) : Prop :=
  exists c, Format.InternalKeyComparator.compare uc a b = Some c /\ c < 0.

(** Both keys of the file have their eight-byte tail. *)
Definition valid_file (f : VersionFormat.FileMetaData) : Prop :=
  8 <= Buffer.size (VersionFormat.smallest f)
  /\ 8 <= Buffer.size (VersionFormat.largest f).

End KeyOrder.

Module KeyRange.

Import VersionFormat.

(** The loop of [getRange] from index [i] on. *)
Fixpoint getRange_loop (icmp : Slice -> Slice -> option Z)
    (inputs : list FileMetaData) (i : Z) (smallest largest : Slice)
    : option (Slice * Slice) :=
  match inputs with
  | [] => Some (smallest, largest)
  | fileMetaData :: rest =>
      if i =? 0 then
        getRange_loop icmp rest (i + 1)
          (VersionFormat.smallest fileMetaData)
          (VersionFormat.largest fileMetaData)
      else
        c1 ← icmp (VersionFormat.smallest fileMetaData) smallest;
        let smallest :=
          if c1 <? 0 then VersionFormat.smallest fileMetaData
          else smallest in
        c2 ← icmp (VersionFormat.largest fileMetaData) largest;
        let largest :=
          if 0 <? c2 then VersionFormat.largest fileMetaData else largest in
        getRange_loop icmp rest (i + 1) smallest largest
  end.

(** [getRange]: the contents of [smallest] and [largest] after the call. *)
Definition getRange (this : VersionSet.t) (inputs : list FileMetaData)
    : option (Slice * Slice) :=
  _ ← assert (0 <? Z.of_nat (length inputs));
  getRange_loop
    (Format.InternalKeyComparator.compare
       (VersionSet.internalKeyComparator this))
    inputs 0 [] [].

Definition getRange2 (this : VersionSet.t)
    (inputs1 inputs2 : list FileMetaData) : option (Slice * Slice) :=
  getRange this (inputs1 ++ inputs2).

(** [findLargestKey]: the inner [None] is the result [false]; otherwise the
    contents of [largestKey] after the call. *)
Definition findLargestKey (icmp : Slice -> Slice -> option Z)
    (files : list FileMetaData) : option (option Slice) :=
  match files with
  | [] => Some None
  | first :: _ =>
      Some <$>
        fold_left
          (fun largestKey f =>
             largestKey ← largestKey;
             c ← icmp (largest f) largestKey;
             Some (if 0 <? c then largest f else largestKey))
          files (Some (largest first))
  end.

(** [findSmallestBoundaryFile]: the inner [None] is [undefined]. *)
Definition findSmallestBoundaryFile (uc : Comparator.t)
    (levelFiles : list FileMetaData) (largestKey : Slice)
    : option (option FileMetaData) :=
  fold_left
    (fun smallestBoundaryFile f =>
       smallestBoundaryFile ← smallestBoundaryFile;
       c ← Format.InternalKeyComparator.compare uc (smallest f) largestKey;
       boundary ←
         (if 0 <? c then
            u1 ← Format.InternalKey.userKey (smallest f);
            u2 ← Format.InternalKey.userKey largestKey;
            Some (Comparator.compare uc u1 u2 =? 0)
          else Some false);
       if boundary : bool then
         match smallestBoundaryFile with
         | None => Some (Some f)
         | Some best =>
             c' ← Format.InternalKeyComparator.compare uc
                    (smallest f) (smallest best);
             Some (if c' <? 0 then Some f else Some best)
         end
       else Some smallestBoundaryFile)
    levelFiles (Some None).

(** [f] is a boundary file of [largestKey]: its smallest key compares
    greater than [largestKey] and has the same user key. *)
Definition boundary_file (uc : Comparator.t) (largestKey : Slice)
    (f : FileMetaData) : Prop :=
  (exists c,
     Format.InternalKeyComparator.compare uc (smallest f) largestKey = Some c
     /\ 0 < c)
  /\ exists u1 u2,
       Format.InternalKey.userKey (smallest f) = Some u1
       /\ Format.InternalKey.userKey largestKey = Some u2
       /\ Comparator.compare uc u1 u2 = 0.

(** The range from [s] to [l] covers the files: both keys are keys of the
    files, and every file lies between them. *)
Definition covers (uc : Comparator.t) (files : list FileMetaData)
    (s l : Slice) : Prop :=
  (exists f, f ∈ files /\ s = smallest f)
  /\ (exists f, f ∈ files /\ l = largest f)
  /\ Forall (fun f => KeyOrder.le uc s (smallest f)
                      /\ KeyOrder.le uc (largest f) l) files.

(** Files with keys for the examples. *)
Definition sample_files : list FileMetaData :=
  [ {| number := 1; fileSize := 10;
       smallest := Format.InternalKey.make [98] 5 Format.kTypeValue;
       largest := Format.InternalKey.make [100] 7 Format.kTypeValue;
       allowedSeeks := 100; refs := 0 |};
    {| number := 2; fileSize := 10;
       smallest := Format.InternalKey.make [97] 9 Format.kTypeValue;
       largest := Format.InternalKey.make [99] 1 Format.kTypeValue;
       allowedSeeks := 100; refs := 0 |};
    {| number := 3; fileSize := 10;
       smallest := Format.InternalKey.make [100] 3 Format.kTypeValue;
       largest := Format.InternalKey.make [102] 2 Format.kTypeValue;
       allowedSeeks := 100; refs := 0 |} ].

End KeyRange.

(** ** Compaction.ts: the stateful queries *)

Module CompactionQueries.

Import VersionFormat Compaction.

(** The loop of [shouldStopBefore]: the grandparent index and the
    overlapped bytes when it ends.  [fuel] bounds the rounds; the number of
    grandparents is enough. *)
Fixpoint stop_loop (icmp : Slice -> Slice -> option Z) (internalKey : Slice)
    (grandparents : list FileMetaData) (seenKey : bool) (fuel : nat)
    (grandparentIndex overlappedBytes : Z) : option (Z * Z) :=
  match fuel with
  | O => Some (grandparentIndex, overlappedBytes)
  | S fuel' =>
      if grandparentIndex <? Z.of_nat (length grandparents) then
        g ← (if grandparentIndex <? 0 then None
             else grandparents !! Z.to_nat grandparentIndex);
        c ← icmp internalKey (largest g);
        if 0 <? c then
          stop_loop icmp internalKey grandparents seenKey fuel'
            (grandparentIndex + 1)
            (if seenKey then overlappedBytes + fileSize g
             else overlappedBytes)
        else Some (grandparentIndex, overlappedBytes)
      else Some (grandparentIndex, overlappedBytes)
  end.

(** [shouldStopBefore]: the result and the compaction after the call. *)
Definition shouldStopBefore (this : t) (internalKey : Slice)
    : option (bool * t) :=
  inputVersion ← inputVersion this;
  let versionSet := Version.versionSet inputVersion in
  let icmp :=
    Format.InternalKeyComparator.compare
      (Version.internalKeyComparator versionSet) in
  gps ← grandparents this;
  '(index, overlapped) ←
    stop_loop icmp internalKey gps (seenKey this) (S (length gps))
      (grandparentIndex this) (overlappedBytes this);
  let stop :=
    maxGrandParentOverlapBytes (Version._options versionSet) <? overlapped in
  Some (stop,
        {| level := level this;
           inputVersion := Compaction.inputVersion this;
           grandparents := grandparents this;
           inputs := inputs this;
           grandparentIndex := index;
           seenKey := true;
           overlappedBytes := if stop then 0 else overlapped;
           _maxOutputFilesize := _maxOutputFilesize this;
           levelPtrs := levelPtrs this; edit := edit this |}).

(** The number of iterators that [makeInputIterator] of the version set
    creates for a compaction, and the length of the array it allocates for
    them. *)
Definition iterator_space (c : t) : Z :=
  if level c =? 0 then Z.of_nat (length (fst (inputs c))) + 1 else 2.

Definition iterator_count (c : t) : Z :=
  fold_left
    (fun num which =>
       let files := if which =? 0 then fst (inputs c) else snd (inputs c) in
       if 0 <? Z.of_nat (length files) then
         if level c + which =? 0 then num + Z.of_nat (length files)
         else num + 1
       else num)
    [0; 1] 0.

(** A compaction of level 1 with three grandparents, before its first
    key. *)
Definition sample_compaction : t :=
  {| level := 1;
     inputVersion := Some Samples.sample_version;
     grandparents := Some KeyRange.sample_files;
     inputs := ([Samples.sample_file 5 2097152], []);
     grandparentIndex := 0;
     seenKey := false;
     overlappedBytes := 0;
     _maxOutputFilesize := 2097152;
     levelPtrs := repeat 0 7;
     edit := VersionEdit.make |}.

End CompactionQueries.

(** ** MemTable.getValueSlice *)

Module MemTableValue.

(** [getValueSlice]: the inner [None] is the result [null].  The second
    [varint.decode] leaves the number of bytes it read in
    [varint.decode.bytes], which the next line adds to the size of the
    internal key. *)
Definition getValueSlice (key : Slice) : option (option Slice) :=
  '(internalKeySize, _) ← Coding.varint_decode key;
  '(valueType, bytes) ←
    Coding.varint_decode (Buffer.slice_from key internalKeySize);
  if valueType =? Format.ValueType_code Format.kTypeDeletion then Some None
  else
    let valueBuffer := Buffer.slice_from key (bytes + internalKeySize) in
    '(valueSize, bytes) ← Coding.varint_decode valueBuffer;
    Some (Some (Buffer.slice valueBuffer bytes (bytes + valueSize))).

End MemTableValue.

(** ** Compaction.isBaseLevelForKey *)

Module BaseLevel.

Import VersionFormat Compaction.

(** The loop over the files of one level from the pointer on: whether the
    key falls in the range of a file, and the pointer when the loop ends.
    [fuel] bounds the rounds; the number of files is enough. *)
Fixpoint base_files (uc : Comparator.t) (userKey : Slice)
    (files : list FileMetaData) (fuel : nat) (ptr : Z) : option (bool * Z) :=
  match fuel with
  | O => Some (false, ptr)
  | S fuel' =>
      if ptr <? Z.of_nat (length files) then
        f ← (if ptr <? 0 then None else files !! Z.to_nat ptr);
        lu ← Format.InternalKey.userKey (largest f);
        if Comparator.compare uc userKey lu <=? 0 then
          su ← Format.InternalKey.userKey (smallest f);
          if 0 <=? Comparator.compare uc userKey su then Some (true, ptr)
          else Some (false, ptr)
        else base_files uc userKey files fuel' (ptr + 1)
      else Some (false, ptr)
  end.

(** The loop over the levels from [level] on, [count] levels left: the
    result and the level pointers.  A level without a pointer is skipped:
    [undefined < n] is false. *)
Fixpoint base_levels (uc : Comparator.t) (userKey : Slice)
    (filesByLevel : list (list FileMetaData)) (count : nat) (level : Z)
    (levelPtrs : list Z) : option (bool * list Z) :=
  match count with
  | O => Some (true, levelPtrs)
  | S count' =>
      files ← (if level <? 0 then None
               else filesByLevel !! Z.to_nat level);
      match levelPtrs !! Z.to_nat level with
      | None => base_levels uc userKey filesByLevel count' (level + 1)
                  levelPtrs
      | Some ptr =>
          '(inRange, ptr) ←
            base_files uc userKey files (S (length files)) ptr;
          let levelPtrs := <[Z.to_nat level := ptr]> levelPtrs in
          if inRange : bool then Some (false, levelPtrs)
          else base_levels uc userKey filesByLevel count' (level + 1)
                 levelPtrs
      end
  end.

(** [isBaseLevelForKey]: the result and the compaction after the call. *)
Definition isBaseLevelForKey (this : t) (userKey : Slice)
    : option (bool * t) :=
  inputVersion ← inputVersion this;
  let userComparator :=
    Version.internalKeyComparator (Version.versionSet inputVersion) in
  '(result, ptrs) ←
    base_levels userComparator userKey (Version.files inputVersion)
      (Z.to_nat (Config.kNumLevels - (level this + 2))) (level this + 2)
      (levelPtrs this);
  Some (result,
        {| level := level this;
           inputVersion := Compaction.inputVersion this;
           grandparents := grandparents this;
           inputs := inputs this;
           grandparentIndex := grandparentIndex this;
           seenKey := seenKey this;
           overlappedBytes := overlappedBytes this;
           _maxOutputFilesize := _maxOutputFilesize this;
           levelPtrs := ptrs; edit := edit this |}).

(** The user key falls in the range of the file. *)
Definition in_range (uc : Comparator.t) (userKey : Slice)
    (f : FileMetaData) : Prop :=
  exists su lu,
    Format.InternalKey.userKey (smallest f) = Some su
    /\ Format.InternalKey.userKey (largest f) = Some lu
    /\ 0 <= Comparator.compare uc userKey su
    /\ Comparator.compare uc userKey lu <= 0.

(** The user key is above the range of the file. *)
Definition above (uc : Comparator.t) (userKey : Slice)
    (f : FileMetaData) : Prop :=
  exists lu,
    Format.InternalKey.userKey (largest f) = Some lu
    /\ 0 < Comparator.compare uc userKey lu.

(** The user key is below the range of the file. *)
Definition below (uc : Comparator.t) (userKey : Slice)
    (f : FileMetaData) : Prop :=
  exists su,
    Format.InternalKey.userKey (smallest f) = Some su
    /\ Comparator.compare uc userKey su < 0.

(** The pointer of a level moved from [ptr] to [ptr'] over files that the
    key is above, and stopped behind the last file or at a file that the
    key is below. *)
Definition passed (uc : Comparator.t) (userKey : Slice)
    (files : list FileMetaData) (ptr ptr' : Z) : Prop :=
  ptr <= ptr' <= Z.max ptr (Z.of_nat (length files))
  /\ (forall j, ptr <= j < ptr' ->
        exists f, files !! Z.to_nat j = Some f /\ above uc userKey f)
  /\ (ptr' < Z.of_nat (length files) ->
      exists f, files !! Z.to_nat ptr' = Some f /\ below uc userKey f).

(** A version with files in levels 3 and 4, for the examples. *)
Definition sample_version : Version.t :=
  {| Version.versionSet := Samples.sample_ref;
     Version.files := [[]; []; []; KeyRange.sample_files; []; []; []];
     Version.compactionLevel := -1;
     Version.compactionScore := -1;
     Version.refs := 1 |}.

Definition sample_compaction : t :=
  {| level := 1;
     inputVersion := Some sample_version;
     grandparents := None;
     inputs := ([], []);
     grandparentIndex := 0;
     seenKey := false;
     overlappedBytes := 0;
     _maxOutputFilesize := 2097152;
     levelPtrs := repeat 0 7;
     edit := VersionEdit.make |}.

End BaseLevel.

(** ** VersionSet.addBoundaryInputs *)

Module BoundaryInputs.

Import VersionFormat.

(** How a call with a loop that the source does not bound ends: it
    returns, it throws, or the rounds allowed are used up. *)
Inductive outcome (A : Type) :=
| Returned (a : A)
| Thrown
| Unfinished.

Arguments Returned {A} a.
Arguments Thrown {A}.
Arguments Unfinished {A}.

(** The [while (true)] loop of [addBoundaryInputs]: the compaction files
    when it ends. *)
Fixpoint boundary_loop (uc : Comparator.t) (levelFiles : list FileMetaData)
    (fuel : nat) (largestKey : Slice) (compactionFiles : list FileMetaData)
    : outcome (list FileMetaData) :=
  match fuel with
  | O => Unfinished
  | S fuel' =>
      match KeyRange.findSmallestBoundaryFile uc levelFiles largestKey with
      | None => Thrown
      | Some None => Returned compactionFiles
      | Some (Some smallestBoundaryFile) =>
          boundary_loop uc levelFiles fuel' (largest smallestBoundaryFile)
            (compactionFiles ++ [smallestBoundaryFile])
      end
  end.

(** [addBoundaryInputs]: the compaction files after the call. *)
Definition addBoundaryInputs (uc : Comparator.t)
    (levelFiles compactionFiles : list FileMetaData) (fuel : nat)
    : outcome (list FileMetaData) :=
  match KeyRange.findLargestKey (Format.InternalKeyComparator.compare uc)
          compactionFiles with
  | None => Thrown
  | Some None => Returned compactionFiles
  | Some (Some largestKey) =>
      boundary_loop uc levelFiles fuel largestKey compactionFiles
  end.

(** The smallest key of the file compares greater than the key. *)
Definition starts_above (uc : Comparator.t) (key : Slice)
    (f : FileMetaData) : bool :=
  match Format.InternalKeyComparator.compare uc (smallest f) key with
  | Some c => 0 <? c
  | None => false
  end.

(** The files of the level that start above the key: the loop has fewer of
    them in every round. *)
Definition files_above (uc : Comparator.t) (levelFiles : list FileMetaData)
    (key : Slice) : nat :=
  length (List.filter (starts_above uc key) levelFiles).

(** The smallest key of the file is not above its largest key. *)
Definition ordered_file (uc : Comparator.t) (f : FileMetaData) : Prop :=
  KeyOrder.le uc (smallest f) (largest f).

(** Each file added is a boundary file of the largest key before it, and
    the last largest key has no boundary file in the level. *)
Fixpoint boundary_chain (uc : Comparator.t) (levelFiles : list FileMetaData)
    (largestKey : Slice) (added : list FileMetaData) : Prop :=
  match added with
  | [] =>
      Forall (fun f => ~ KeyRange.boundary_file uc largestKey f) levelFiles
  | b :: added' =>
      b ∈ levelFiles
      /\ KeyRange.boundary_file uc largestKey b
      /\ boundary_chain uc levelFiles (largest b) added'
  end.

End BoundaryInputs.

(** ** VersionSet.setupOtherInputs and VersionSet.compactRange *)

Module OtherInputs.

Import VersionFormat BoundaryInputs.

(** Calls that return, throw or run out of rounds, one after the other:
    the first that does not return ends the sequence. *)
#[global] Instance outcome_bind : MBind outcome :=
  fun A B (k : A -> outcome B) (m : outcome A) =>
    match m with
    | Returned a => k a
    | Thrown => Thrown
    | Unfinished => Unfinished
    end.

(** A call without a loop: it returns or throws. *)
Definition of_option {A : Type} (m : option A) : outcome A :=
  match m with
  | Some a => Returned a
  | None => Thrown
  end.

(** Modelled from the spec: [expanded_compaction_byte_size_limit] is 25
    times [max_file_size] ([VersionFormat.ts] is not among the sources). *)
Definition getExpandedCompactionByteSizeLimit (options : Options.t) : Z :=
  25 * Options.maxFileSize options.

(** [version.files[level]]: [None] is [undefined], for a level that the
    version does not have. *)
Definition level_files (v : Version.t) (level : Z)
  : option (list FileMetaData) :=
  if level <? 0 then None else Version.files v !! Z.to_nat level.

(** [addBoundaryInputs] on the files of a level that may be [undefined]:
    with compaction files to extend, the search for a boundary file reads
    the length of the level files and throws when there are none to read. *)
Definition addBoundaryInputs_of (uc : Comparator.t)
    (levelFiles : option (list FileMetaData))
    (compactionFiles : list FileMetaData) (fuel : nat)
    : outcome (list FileMetaData) :=
  match levelFiles with
  | Some levelFiles => addBoundaryInputs uc levelFiles compactionFiles fuel
  | None =>
      match KeyRange.findLargestKey (Format.InternalKeyComparator.compare uc)
              compactionFiles with
      | Some None => Returned compactionFiles
      | _ => Thrown
      end
  end.

(** What the expansion step of [setupOtherInputs] leaves in [smallest],
    [largest], [c.inputs[0]], [c.inputs[1]], [allStart] and [allLimit]. *)
Record expansion := {
  exp_smallest : Slice;
  exp_largest : Slice;
  exp_inputs0 : list FileMetaData;
  exp_inputs1 : list FileMetaData;
  exp_allStart : Slice;
  exp_allLimit : Slice
}.

Section WithCollaborators.

Context {C : VersionSet.Collaborators}.

(** [setupOtherInputs]: the version set and the compaction after the call.
    [c.inputs] is the pair of file lists, so that the test
    [c.inputs.length > 0] holds; [addBoundaryInputs] extends the array that
    it is given, which the compaction holds as [c.inputs[0]].  The message
    that is logged when the expansion is taken is left out.  The rounds
    allowed bound each of the two boundary searches. *)
Definition setupOtherInputs (this : VersionSet.t) (c : Compaction.t)
    (fuel : nat) : outcome (VersionSet.t * Compaction.t) :=
  let level := Compaction.level c in
  let icmp := VersionSet.internalKeyComparator this in
  let current := VersionSet._current this in
  inputs0 ← addBoundaryInputs_of icmp (level_files current level)
              (fst (Compaction.inputs c)) fuel;
  '(smallest, largest) ← of_option (KeyRange.getRange this inputs0);
  let inputs1 :=
    VersionSet.getOverlappingInputs current (level + 1) smallest largest in
  '(allStart, allLimit) ← of_option (KeyRange.getRange2 this inputs0 inputs1);
  expand0 ← addBoundaryInputs_of icmp (level_files current level)
              (VersionSet.getOverlappingInputs current level allStart
                 allLimit)
              fuel;
  let input1Size := VersionSet.getTotalBytes inputs1 in
  let expand0Size := VersionSet.getTotalBytes expand0 in
  let unchanged :=
    {| exp_smallest := smallest; exp_largest := largest;
       exp_inputs0 := inputs0; exp_inputs1 := inputs1;
       exp_allStart := allStart; exp_allLimit := allLimit |} in
  e ←
    (if (Z.of_nat (length inputs0) <? Z.of_nat (length expand0))
        && (input1Size + expand0Size
            <? getExpandedCompactionByteSizeLimit (VersionSet._options this))
     then
       '(newStart, newLimit) ← of_option (KeyRange.getRange this expand0);
       let expand1 :=
         VersionSet.getOverlappingInputs current (level + 1) newStart
           newLimit in
       if Z.of_nat (length expand1) =? Z.of_nat (length inputs1) then
         '(allStart, allLimit) ←
           of_option (KeyRange.getRange2 this expand0 expand1);
         Returned
           {| exp_smallest := newStart; exp_largest := newLimit;
              exp_inputs0 := expand0; exp_inputs1 := expand1;
              exp_allStart := allStart; exp_allLimit := allLimit |}
       else Returned unchanged
     else Returned unchanged);
  let grandparents :=
    if level + 2 <? Config.kNumLevels then
      Some (VersionSet.getOverlappingInputs current (level + 2)
              (exp_allStart e) (exp_allLimit e))
    else Compaction.grandparents c in
  let this :=
    VersionSet.set_compactPointers this
      (<[level := exp_largest e]> (VersionSet.compactPointers this)) in
  Returned
    (this,
     {| Compaction.level := level;
        Compaction.inputVersion := Compaction.inputVersion c;
        Compaction.grandparents := grandparents;
        Compaction.inputs := (exp_inputs0 e, exp_inputs1 e);
        Compaction.grandparentIndex := Compaction.grandparentIndex c;
        Compaction.seenKey := Compaction.seenKey c;
        Compaction.overlappedBytes := Compaction.overlappedBytes c;
        Compaction._maxOutputFilesize := Compaction._maxOutputFilesize c;
        Compaction.levelPtrs := Compaction.levelPtrs c;
        Compaction.edit :=
          VersionEdit.setCompactPointer (Compaction.edit c) level
            (exp_largest e) |}).

(** [compactRange]: [Returned None] is the result [undefined]; otherwise
    the version set after the call and the compaction.  The input version
    of the compaction is the current version, one reference richer. *)
Definition compactRange (this : VersionSet.t) (level : Z)
    (begin end_ : Slice) (fuel : nat)
    : outcome (option (VersionSet.t * Compaction.t)) :=
  match VersionSet.compactRange_inputs this level begin end_ with
  | None => Returned None
  | Some inputs =>
      let compaction := Compaction.make (VersionSet._options this) level in
      let current := Version.ref (VersionSet._current this) in
      let this := VersionSet.set_current this current (VersionSet.older this) in
      let compaction :=
        Compaction.set_inputVersion compaction (Some current) in
      let compaction := Compaction.set_inputs0 compaction inputs in
      result ← setupOtherInputs this compaction fuel;
      Returned (Some result)
  end.

End WithCollaborators.

(** A file of 1.5 MiB whose keys are the user keys [first] and [last]
    written at the sequence number [sequence]. *)
Definition keyed_file (n first last sequence : Z) : FileMetaData :=
  {| number := n; fileSize := 1572864;
     smallest := Format.InternalKey.make [first] sequence Format.kTypeValue;
     largest := Format.InternalKey.make [last] sequence Format.kTypeValue;
     allowedSeeks := 100; refs := 0 |}.

(** Modelled from the spec: the files of a level above 0 that overlap the
    range from [begin] to [end_]: those whose largest user key is not below
    the user key of [begin] and whose smallest user key is not above the
    user key of [end_], in the bytewise order. *)
Definition overlapping (v : Version.t) (level : Z) (begin end_ : Slice)
  : list FileMetaData :=
  let user key := default [] (Format.InternalKey.userKey key) in
  let compare := Comparator.compare Comparator.BytewiseComparator in
  List.filter
    (fun f =>
       negb (compare (user (largest f)) (user begin) <? 0)
       && negb (0 <? compare (user (smallest f)) (user end_)))
    (default [] (level_files v level)).

(** Collaborators for the examples with keys: as the sample ones, with the
    overlapping files chosen by their keys. *)
Definition keyed_collaborators : VersionSet.Collaborators :=
  {| VersionSet.builder_saveTo :=
       VersionSet.builder_saveTo (Collaborators := Samples.sample_collaborators);
     VersionSet.builder_compactPointers := fun pointers _ => pointers;
     VersionSet.encodeEdit := fun _ => [];
     VersionSet.getOverlappingInputs := overlapping |}.

(** A version set whose current version holds the given files, with the
    default options: [maxFileSize] is 2 MiB. *)
Definition keyed_versionSet (files : list (list FileMetaData))
  : VersionSet.t :=
  {| VersionSet.compactPointers := ∅;
     VersionSet._current :=
       {| Version.versionSet := Samples.sample_ref;
          Version.files := files;
          Version.compactionLevel := -1;
          Version.compactionScore := -1;
          Version.refs := 1 |};
     VersionSet.older := [];
     VersionSet.logNumber := 3;
     VersionSet.prevLogNumber := 0;
     VersionSet._lastSequence := 100;
     VersionSet.manifestFileNumber := 4;
     VersionSet.nextFileNumber := 14;
     VersionSet._dbpath := "/db";
     VersionSet._options := Options.defaultOptions;
     VersionSet.internalKeyComparator := Comparator.BytewiseComparator;
     VersionSet.manifestWriter := None |}.

(** Three files at level 1, with the user keys a to b, c to d and e to f. *)
Definition level1_files : list (list FileMetaData) :=
  [[]; [keyed_file 11 97 98 30; keyed_file 12 99 100 20;
        keyed_file 13 101 102 10]; []; []; []; []; []].

(** One file at level 5, with the user keys a to b. *)
Definition level5_files : list (list FileMetaData) :=
  [[]; []; []; []; []; [keyed_file 51 97 98 30]; []].

(** The range of the user keys from a to z. *)
Definition range_begin : Slice :=
  Format.InternalKey.make [97] Format.kMaxSequenceNumber
    Format.kValueTypeForSeek.

Definition range_end : Slice :=
  Format.InternalKey.make [122] 0 Format.kTypeDeletion.

End OtherInputs.

(** * Properties *)

(** ** Buffers *)

Section BufferFacts.

Implicit Types (u v : Buffer.t).

Lemma size_app u v : Buffer.size (u ++ v) = Buffer.size u + Buffer.size v.
Proof. unfold Buffer.size. rewrite length_app. lia. Qed.

Lemma size_nonneg u : 0 <= Buffer.size u.
Proof. unfold Buffer.size. lia. Qed.

Lemma concat3 u v w : Buffer.concat [u; v; w] = u ++ v ++ w.
Proof. unfold Buffer.concat. simpl. now rewrite app_nil_r. Qed.

Lemma concat2 u v : Buffer.concat [u; v] = u ++ v.
Proof. unfold Buffer.concat. simpl. now rewrite app_nil_r. Qed.

(** The part of [u ++ v] before the last [size v] bytes is [u]. *)
Lemma slice_front u v :
  Buffer.slice (u ++ v) 0 (Buffer.size (u ++ v) - Buffer.size v) = u.
Proof.
  unfold Buffer.slice, Buffer.rel_index. rewrite size_app.
  pose proof (size_nonneg u). pose proof (size_nonneg v).
  replace (Buffer.size u + Buffer.size v - Buffer.size v)
    with (Buffer.size u) by lia.
  destruct (Z.ltb_spec 0 0); [lia|].
  destruct (Z.ltb_spec (Buffer.size u) 0); [lia|].
  rewrite Z.min_l, Z.min_l by lia. rewrite Z.sub_0_r.
  change (Z.to_nat 0) with 0%nat. rewrite drop_0.
  unfold Buffer.size. rewrite Nat2Z.id. now rewrite take_app_length.
Qed.

(** The last [size v] bytes of [u ++ v], up to a cut [k] bytes before the
    end. *)
Lemma slice_back u v k :
  0 <= k <= Buffer.size v ->
  Buffer.slice (u ++ v) (Buffer.size (u ++ v) - Buffer.size v)
    (Buffer.size (u ++ v) - k)
  = take (Z.to_nat (Buffer.size v - k)) v.
Proof.
  intros Hk. unfold Buffer.slice, Buffer.rel_index. rewrite size_app.
  pose proof (size_nonneg u). pose proof (size_nonneg v).
  replace (Buffer.size u + Buffer.size v - Buffer.size v)
    with (Buffer.size u) by lia.
  destruct (Z.ltb_spec (Buffer.size u) 0); [lia|].
  destruct (Z.ltb_spec (Buffer.size u + Buffer.size v - k) 0); [lia|].
  rewrite Z.min_l, Z.min_l by lia.
  replace (Buffer.size u + Buffer.size v - k - Buffer.size u)
    with (Buffer.size v - k) by lia.
  unfold Buffer.size at 2. rewrite Nat2Z.id. now rewrite drop_app_length.
Qed.

Lemma slice_from_back u v :
  Buffer.slice_from (u ++ v) (Buffer.size (u ++ v) - Buffer.size v) = v.
Proof.
  unfold Buffer.slice_from.
  replace (Buffer.size (u ++ v)) with (Buffer.size (u ++ v) - 0) at 2 by lia.
  rewrite slice_back by (pose proof (size_nonneg v); lia).
  rewrite Z.sub_0_r. unfold Buffer.size. rewrite Nat2Z.id.
  apply firstn_all.
Qed.

Lemma at_back u v k :
  0 <= k < Buffer.size v ->
  Buffer.at_ (u ++ v) (Buffer.size (u ++ v) - Buffer.size v + k)
  = v !! Z.to_nat k.
Proof.
  intros Hk. unfold Buffer.at_. rewrite size_app.
  pose proof (size_nonneg u).
  destruct (Z.ltb_spec (Buffer.size u + Buffer.size v - Buffer.size v + k) 0);
    [lia|].
  destruct (Z.leb_spec (Buffer.size u + Buffer.size v)
              (Buffer.size u + Buffer.size v - Buffer.size v + k)); [lia|].
  cbn [orb].
  replace (Z.to_nat (Buffer.size u + Buffer.size v - Buffer.size v + k))
    with (length u + Z.to_nat k)%nat by (unfold Buffer.size; lia).
  now rewrite lookup_app_r, Nat.add_sub' by lia.
Qed.

End BufferFacts.

(** ** Fixed-width coding *)

Section CodingFacts.

Lemma encodeLE_length n v : length (Coding.encodeLE n v) = n.
Proof. revert v. induction n; intros; simpl; auto. Qed.

Lemma decode_encodeLE n v :
  Coding.decodeLE (Coding.encodeLE n v) = v mod 256 ^ Z.of_nat n.
Proof.
  revert v. induction n as [|n IH]; intros v.
  - simpl. now rewrite Z.mod_1_r.
  - cbn [Coding.encodeLE Coding.decodeLE]. rewrite IH.
    rewrite Nat2Z.inj_succ, Z.pow_succ_r by lia.
    rewrite (Z.rem_mul_r v 256 (256 ^ Z.of_nat n)) by lia. lia.
Qed.

Lemma take_encodeLE n m v :
  (n <= m)%nat -> take n (Coding.encodeLE m v) = Coding.encodeLE n v.
Proof.
  revert m v. induction n as [|n IH]; intros m v Hle.
  - now rewrite take_0.
  - destruct m as [|m]; [lia|]. simpl. f_equal. apply IH. lia.
Qed.

Lemma decodeLE_app_zero b : Coding.decodeLE (b ++ [0]) = Coding.decodeLE b.
Proof. induction b as [|x b IH]; simpl; [reflexivity|]. now rewrite IH. Qed.

End CodingFacts.

(** ** The byte-lexicographic comparator satisfies the comparator laws *)

Section BytewiseFacts.

Import Comparator.

Lemma bytewise_compare_refl a : bytewise_compare a a = 0.
Proof.
  induction a as [|x a IH]; simpl; [reflexivity|].
  now rewrite Z.ltb_irrefl.
Qed.

Lemma bytewise_compare_antisym a b :
  bytewise_compare a b < 0 -> 0 < bytewise_compare b a.
Proof.
  revert b. induction a as [|x a IH]; intros [|y b]; simpl; try lia.
  destruct (Z.ltb_spec x y), (Z.ltb_spec y x); try lia. apply IH.
Qed.

Lemma bytewise_separator_below start limit :
  bytewise_compare start limit < 0 ->
  bytewise_compare (bytewise_findShortestSeparator start limit) limit < 0.
Proof.
  unfold bytewise_findShortestSeparator.
  revert limit. induction start as [|x s IH]; intros [|y l]; simpl; try lia.
  destruct (Z.eqb_spec x y) as [->|Hne].
  - rewrite Z.ltb_irrefl. intros Hlt. specialize (IH l Hlt).
    destruct (bytewise_shorten s l); simpl in *;
      now rewrite Z.ltb_irrefl.
  - destruct (Z.ltb_spec x 255), (Z.ltb_spec (x + 1) y); simpl; auto.
    destruct (Z.ltb_spec (x + 1) y); lia.
Qed.

#[export] Instance bytewise_laws : Laws BytewiseComparator.
Proof.
  constructor; simpl.
  - apply bytewise_compare_refl.
  - apply bytewise_compare_antisym.
  - apply bytewise_separator_below.
Qed.

End BytewiseFacts.

(** ** Internal keys *)

Section InternalKeyFacts.

Import Format.

Lemma make_tail_shape sn t :
  make_tail sn t = Coding.encodeLE 7 (sn mod 2 ^ 64) ++ [t mod 256].
Proof. reflexivity. Qed.

Lemma make_tail_size sn t : Buffer.size (make_tail sn t) = 8.
Proof. reflexivity. Qed.

Lemma make_unfold u sn t :
  InternalKey.make u sn t = u ++ make_tail sn (ValueType_code t).
Proof.
  unfold InternalKey.make, appendInternalKey. cbn [Format.userKey Format.sn Format.valueType].
  now rewrite concat3.
Qed.

(** Every buffer of at least eight bytes is a user key followed by an
    eight-byte tail. *)
Lemma internal_key_split k :
  8 <= Buffer.size k ->
  exists u v, k = u ++ v /\ Buffer.size v = 8.
Proof.
  intros Hk. exists (take (length k - 8) k), (drop (length k - 8) k).
  split; [now rewrite take_drop|].
  unfold Buffer.size in *. rewrite length_drop. lia.
Qed.

Lemma extractUserKey_app u v :
  Buffer.size v = 8 -> extractUserKey (u ++ v) = Some u.
Proof.
  intros Hv. unfold extractUserKey.
  assert (Hs : (8 <=? Buffer.size (u ++ v)) = true).
  { apply Z.leb_le. rewrite size_app. pose proof (size_nonneg u). lia. }
  rewrite Hs. simpl. rewrite <- Hv. now rewrite slice_front.
Qed.

Lemma extractUserKey_Some k u :
  extractUserKey k = Some u -> 8 <= Buffer.size k.
Proof.
  unfold extractUserKey.
  destruct (Z.leb_spec 8 (Buffer.size k)); simpl; [auto|discriminate].
Qed.

Lemma tail_sequence_app u v :
  Buffer.size v = 8 ->
  InternalKeyComparator.tail_sequence (u ++ v)
  = Some (Coding.decodeLE (take 7 v)).
Proof.
  intros Hv. unfold InternalKeyComparator.tail_sequence.
  replace (Buffer.size (u ++ v) - 8)
    with (Buffer.size (u ++ v) - Buffer.size v) by lia.
  rewrite slice_back by lia. rewrite Hv. change (Z.to_nat (8 - 1)) with 7%nat.
  rewrite concat2. unfold Coding.decodeFixed64.
  assert (Hlen : length (take 7 v ++ InternalKeyComparator.oneByte) = 8%nat).
  { rewrite length_app, length_take. unfold Buffer.size in Hv.
    change (length InternalKeyComparator.oneByte) with 1%nat. lia. }
  unfold Buffer.size. rewrite Hlen.
  change (Z.of_nat 8 <? 8) with false. cbv iota.
  rewrite <- Hlen at 1. rewrite firstn_all.
  unfold InternalKeyComparator.oneByte, Buffer.alloc. simpl repeat.
  now rewrite decodeLE_app_zero.
Qed.

Lemma extractUserKey_make u sn t :
  extractUserKey (InternalKey.make u sn t) = Some u.
Proof. rewrite make_unfold. now apply extractUserKey_app. Qed.

(** The comparator reads back, as the sequence number of a key, the low 56
    bits of the sequence number it was made with. *)
Lemma tail_sequence_make u sn t :
  InternalKeyComparator.tail_sequence (InternalKey.make u sn t)
  = Some (sn mod 2 ^ 56).
Proof.
  rewrite make_unfold, tail_sequence_app by reflexivity.
  rewrite make_tail_shape.
  rewrite take_app_length' by now rewrite encodeLE_length.
  rewrite decode_encodeLE. f_equal.
  change (256 ^ Z.of_nat 7) with (2 ^ 56).
  apply Z.mod_mod_divide. now exists (2 ^ 8).
Qed.

(** [compare] in terms of the user keys and the sequence numbers read from
    the two keys. *)
Lemma compare_parts uc a b ua ub sa sb :
  extractUserKey a = Some ua ->
  extractUserKey b = Some ub ->
  InternalKeyComparator.tail_sequence a = Some sa ->
  InternalKeyComparator.tail_sequence b = Some sb ->
  InternalKeyComparator.compare uc a b
  = Some (let r := Comparator.compare uc ua ub in
          if negb (r =? 0) then r
          else if sa =? sb then 0
          else if sb <? sa then -1 else 1).
Proof.
  intros Ha Hb Hsa Hsb. unfold InternalKeyComparator.compare.
  rewrite Ha, Hb. simpl. rewrite Hsa, Hsb. simpl.
  destruct (negb _); [reflexivity|]. now destruct (sa =? sb).
Qed.

Lemma internal_key_parts k :
  8 <= Buffer.size k ->
  exists u s,
    extractUserKey k = Some u
    /\ InternalKeyComparator.tail_sequence k = Some s.
Proof.
  intros Hk. destruct (internal_key_split k Hk) as (u & v & -> & Hv).
  exists u, (Coding.decodeLE (take 7 v)).
  split; [now apply extractUserKey_app | now apply tail_sequence_app].
Qed.

(** Ascending user key. *)
Lemma compare_user_keys uc a b ua ub :
  extractUserKey a = Some ua ->
  extractUserKey b = Some ub ->
  Comparator.compare uc ua ub <> 0 ->
  InternalKeyComparator.compare uc a b = Some (Comparator.compare uc ua ub).
Proof.
  intros Ha Hb Hne.
  destruct (internal_key_parts a) as (ua' & sa & Ha' & Hsa);
    [eauto using extractUserKey_Some|].
  destruct (internal_key_parts b) as (ub' & sb & Hb' & Hsb);
    [eauto using extractUserKey_Some|].
  rewrite (compare_parts uc a b ua ub sa sb) by congruence. simpl.
  destruct (Z.eqb_spec (Comparator.compare uc ua ub) 0); [lia|reflexivity].
Qed.

(** For equal user keys, descending sequence number. *)
Lemma compare_sequence_descending uc u1 u2 s1 s2 t1 t2 :
  Comparator.compare uc u1 u2 = 0 ->
  0 <= s2 < s1 -> s1 <= kMaxSequenceNumber ->
  InternalKeyComparator.compare uc
    (InternalKey.make u1 s1 t1) (InternalKey.make u2 s2 t2) = Some (-1).
Proof.
  intros Hu Hs Hmax. change kMaxSequenceNumber with (2 ^ 56 - 1) in Hmax.
  rewrite (compare_parts uc _ _ u1 u2 (s1 mod 2 ^ 56) (s2 mod 2 ^ 56))
    by auto using extractUserKey_make, tail_sequence_make.
  simpl. rewrite Hu. simpl. rewrite !Z.mod_small by lia.
  destruct (Z.eqb_spec s1 s2); [lia|].
  destruct (Z.ltb_spec s2 s1); [reflexivity|lia].
Qed.

End InternalKeyFacts.

Section InternalKeyClaims.

Import Format.

Lemma slice_from_tail u v :
  Buffer.size v = 8 ->
  Buffer.slice_from (u ++ v) (Buffer.size (u ++ v) - 8) = v.
Proof. intros Hv. rewrite <- Hv. apply slice_from_back. Qed.

Lemma at_last u v :
  Buffer.size v = 8 ->
  Buffer.at_ (u ++ v) (Buffer.size (u ++ v) - 1) = v !! 7%nat.
Proof.
  intros Hv.
  replace (Buffer.size (u ++ v) - 1)
    with (Buffer.size (u ++ v) - Buffer.size v + 7) by lia.
  now rewrite at_back by lia.
Qed.

(** C1 (third part fails on the code).  Two internal keys with the same
    user key and the same sequence number compare equal whatever their
    types are: the comparator reads the seven sequence bytes of the tail
    and never the type byte, so a larger type does not compare less. *)
Theorem compare_equal_sequence_ignores_type u s t1 t2 :
  InternalKeyComparator.compare Comparator.BytewiseComparator
    (InternalKey.make u s t1) (InternalKey.make u s t2) = Some 0.
Proof.
  rewrite (compare_parts _ _ _ u u (s mod 2 ^ 56) (s mod 2 ^ 56))
    by auto using extractUserKey_make, tail_sequence_make.
  simpl. rewrite bytewise_compare_refl. simpl.
  now rewrite Z.eqb_refl.
Qed.

(** The first two parts of C1 hold: ascending user key, then descending
    sequence number. *)
Lemma compare_make uc u1 u2 s1 s2 t1 t2 :
  0 <= s1 <= kMaxSequenceNumber ->
  0 <= s2 <= kMaxSequenceNumber ->
  InternalKeyComparator.compare uc
    (InternalKey.make u1 s1 t1) (InternalKey.make u2 s2 t2)
  = Some (let r := Comparator.compare uc u1 u2 in
          if negb (r =? 0) then r
          else if s1 =? s2 then 0
          else if s2 <? s1 then -1 else 1).
Proof.
  intros H1 H2. change kMaxSequenceNumber with (2 ^ 56 - 1) in *.
  rewrite (compare_parts uc _ _ u1 u2 (s1 mod 2 ^ 56) (s2 mod 2 ^ 56))
    by auto using extractUserKey_make, tail_sequence_make.
  now rewrite !Z.mod_small by lia.
Qed.

(** [parseInternalKey] gives back the maximum sequence number. *)
Lemma parseInternalKey_max_sequence u t :
  parseInternalKey (InternalKey.make u kMaxSequenceNumber t)
  = Some {| userKey := u; sn := kMaxSequenceNumber;
            valueType := ValueType_code t |}.
Proof.
  unfold parseInternalKey. rewrite extractUserKey_make. simpl.
  rewrite make_unfold.
  rewrite slice_from_tail, at_last by reflexivity.
  destruct t; reflexivity.
Qed.

(** C2 (fails through the accessor).  The [sequence] accessor of an
    internal key packed with the maximum sequence number 2^56-1 returns
    2^32-1: it decodes the tail with [decodeFixed32]. *)
Theorem sequence_accessor_max_sequence u t :
  InternalKey.sequence (InternalKey.make u kMaxSequenceNumber t)
  = Some (2 ^ 32 - 1).
Proof.
  unfold InternalKey.sequence. rewrite make_unfold.
  rewrite slice_from_tail by reflexivity.
  destruct t; reflexivity.
Qed.

Lemma seek_tail_value :
  InternalKeyComparator.seek_tail
  = Some [1; 255; 255; 255; 255; 255; 255; 255].
Proof. reflexivity. Qed.

(** C7.  For internal keys [start] and [limit] whose user keys are
    strictly ordered, [findShortestSeparator] returns normally, and the
    updated [start] compares greater than or equal to the original [start]
    and strictly less than [limit] in internal-key order.  The user
    comparator is any comparator that satisfies the comparator laws. *)
Theorem findShortestSeparator_between
    (uc : Comparator.t) (HL : Comparator.Laws uc)
    (start limit userStart userLimit : Slice) :
  extractUserKey start = Some userStart ->
  extractUserKey limit = Some userLimit ->
  Comparator.compare uc userStart userLimit < 0 ->
  exists start' r1 r2,
    InternalKeyComparator.findShortestSeparator uc start limit = Some start'
    /\ InternalKeyComparator.compare uc start' start = Some r1 /\ 0 <= r1
    /\ InternalKeyComparator.compare uc start' limit = Some r2 /\ r2 < 0.
Proof.
  intros Hs Hl Hlt. unfold InternalKeyComparator.findShortestSeparator.
  rewrite Hs, Hl. cbn [mbind option_bind].
  set (tmp := Comparator.findShortestSeparator uc userStart userLimit).
  assert (Hsep : Comparator.compare uc tmp userLimit < 0)
    by now apply Comparator.separator_below_limit.
  destruct ((Buffer.size tmp <? Buffer.size userStart)
            && (Comparator.compare uc userStart tmp <? 0)) eqn:Hcond.
  - apply andb_prop in Hcond as [_ Hup]. apply Z.ltb_lt in Hup.
    rewrite seek_tail_value. cbn [mbind option_bind]. rewrite concat2.
    set (tl := [1; 255; 255; 255; 255; 255; 255; 255]).
    assert (Hnew : extractUserKey (tmp ++ tl) = Some tmp)
      by now apply extractUserKey_app.
    rewrite (compare_user_keys uc start (tmp ++ tl) userStart tmp)
      by (auto; lia).
    cbn [mbind option_bind].
    destruct (Z.ltb_spec (Comparator.compare uc userStart tmp) 0); [|lia].
    cbn [mbind option_bind assert].
    rewrite (compare_user_keys uc (tmp ++ tl) limit tmp userLimit)
      by (auto; lia).
    cbn [mbind option_bind].
    destruct (Z.ltb_spec (Comparator.compare uc tmp userLimit) 0); [|lia].
    cbn [mbind option_bind assert].
    pose proof (Comparator.compare_antisym _ _ Hup) as Hanti.
    exists (tmp ++ tl), (Comparator.compare uc tmp userStart),
      (Comparator.compare uc tmp userLimit).
    split; [reflexivity|].
    rewrite (compare_user_keys uc (tmp ++ tl) start tmp userStart)
      by (auto; lia).
    rewrite (compare_user_keys uc (tmp ++ tl) limit tmp userLimit)
      by (auto; lia).
    repeat split; lia.
  - destruct (internal_key_parts start) as (u & s & Hu & Hseq);
      [eauto using extractUserKey_Some|].
    exists start, 0, (Comparator.compare uc userStart userLimit).
    split; [reflexivity|].
    rewrite (compare_parts uc start start userStart userStart s s)
      by congruence.
    rewrite (compare_user_keys uc start limit userStart userLimit)
      by (auto; lia).
    cbv zeta. rewrite Comparator.compare_refl. simpl. rewrite Z.eqb_refl.
    repeat split; lia.
Qed.

Lemma findShortestSeparator_between_witness :
  exists start' r1 r2,
    InternalKeyComparator.findShortestSeparator Comparator.BytewiseComparator
      (InternalKey.make [97; 98; 99] 5 kTypeValue)
      (InternalKey.make [97; 100; 99] 7 kTypeValue) = Some start'
    /\ InternalKeyComparator.compare Comparator.BytewiseComparator
         start' (InternalKey.make [97; 98; 99] 5 kTypeValue) = Some r1
    /\ 0 <= r1
    /\ InternalKeyComparator.compare Comparator.BytewiseComparator
         start' (InternalKey.make [97; 100; 99] 7 kTypeValue) = Some r2
    /\ r2 < 0.
Proof.
  apply (findShortestSeparator_between Comparator.BytewiseComparator
           bytewise_laws _ _ [97; 98; 99] [97; 100; 99]).
  - reflexivity.
  - reflexivity.
  - reflexivity.
Defined.

End InternalKeyClaims.
(** ** The bloom filter *)

Section BloomClaims.

Import Hash BloomFilter.

Context {H : HashFn}.

(** The number of probes is the rounded double product: ten bits per key
    give [Math.round(6.8999...) = 7], and 150 bits per key give
    [Math.round(103.49999999999999) = 103], where the exact product 103.5
    would give 104. *)
Lemma hash_count_values :
  hash_count 10 = 7 /\ hash_count 150 = 103
  /\ JS.round (inject_Z 150 * (69 # 100)) = 104.
Proof. repeat split; vm_compute; reflexivity. Qed.

(** [putKeys] on one key: the probes of that key are set in the resized
    bit buffer. *)
Lemma putKeys_single this key :
  putKeys this [key] 1
  = (let bits := _bitsPerKey this * 1 in
     let bits := if bits <? 64 then 64 else bits in
     let bitBuffer :=
       BitBuffer.resizeBits (_bitBuffer this)
         (inject_Z (bits + 7) / 8 * 8)%Q in
     let bitBuffer :=
       set_probes (BitBuffer.bits bitBuffer) (hash_delta (bloomHash key))
         (Z.to_nat (_kNumber this)) (bloomHash key) bitBuffer in
     let buffer :=
       Buffer.concat
         [bitBuffer;
          Buffer.slice (_buffer this)
            (_offset this + _size this - 1) (_offset this + _size this)] in
     Some {| _buffer := buffer;
             _offset := _offset this;
             _size := Buffer.size buffer;
             _kNumber := _kNumber this;
             _bitBuffer := bitBuffer;
             _bitsPerKey := _bitsPerKey this |}).
Proof. reflexivity. Qed.

Lemma keyMayMatch_unfold key bloomFilter :
  keyMayMatch key bloomFilter
  = (filter ← make (Some bloomFilter) default_bitsPerKey;
     if 30 <? _kNumber filter then Some true
     else
       Some (probe (_bitBuffer filter) (hash_delta (bloomHash key))
               (Z.to_nat (_kNumber filter)) (bloomHash key))).
Proof. reflexivity. Qed.

(** C3 (fails on the code).  A key whose hash is 0x00010000 is put into a
    fresh filter with the default ten bits per key; [keyMayMatch] answers
    false for it.  The delta [(h >> 17) | (h << 15)] is a signed 32-bit
    number, here -2^31; [h += delta] makes [h] negative, [h % bits] is
    then negative, and the bit at a negative position is neither stored
    by [putKeys] nor found by [keyMayMatch]. *)
Theorem keyMayMatch_false_negative key :
  bloomHash key = 65536 ->
  (filter ← putKeys (make_empty default_bitsPerKey) [key] 1;
   keyMayMatch key (_buffer filter)) = Some false.
Proof.
  intros Hh. rewrite putKeys_single. rewrite Hh.
  cbv zeta. cbn [mbind option_bind].
  rewrite keyMayMatch_unfold, Hh. vm_compute. reflexivity.
Qed.

(** No bit is found in a buffer of zero bytes. *)
Lemma get_zero_buffer (b : BitBuffer.t) index :
  Forall (eq 0) b -> BitBuffer.get b index = false.
Proof.
  intros Hz. unfold BitBuffer.get, Buffer.at_.
  destruct (_ || _); [reflexivity|].
  destruct (b !! _) as [x|] eqn:Hx; [|reflexivity].
  apply list_elem_of_lookup_2 in Hx.
  rewrite Forall_forall in Hz. rewrite <- (Hz x Hx). reflexivity.
Qed.

(** C8 (fails on the code).  On an encoded filter whose stored hash count
    [k] is greater than 30 (one zero byte of bits, then [k]),
    [keyMayMatch] does not answer "may match": the constructor replaces
    the stored count by [Math.round(10 * 0.69) = 7], the test
    [kNumber > 30] is false, and the first probe reads a zero bit. *)
Theorem keyMayMatch_large_k_probes key k :
  30 < k < 128 ->
  keyMayMatch key [0; k] = Some false.
Proof.
  intros Hk. rewrite keyMayMatch_unfold.
  unfold make. change (Buffer.size [0; k] =? 0) with false. cbv iota.
  change (Buffer.slice_from [0; k] (Buffer.size [0; k] - 1)) with [k].
  change (Buffer.slice [0; k] 0 (Buffer.size [0; k] - 1)) with [0].
  cbn [Coding.varint_decode].
  destruct (Z.ltb_spec k 128); [|lia].
  cbn [fmap option_fmap option_map fst mbind option_bind].
  change (hash_count default_bitsPerKey) with 7.
  destruct (Z.eqb_spec k 7); [lia|]. cbn [negb mbind option_bind].
  cbn [_kNumber _bitBuffer].
  change (30 <? 7) with false. cbv iota.
  change (BitBuffer.resizeBits [0] (inject_Z 7)) with [0].
  change (Z.to_nat 7) with 7%nat. cbn [probe].
  rewrite get_zero_buffer by (repeat constructor). reflexivity.
Qed.

(** *** Bits of a bit buffer *)

Lemma ToInt32_testbit y k :
  0 <= k < 32 -> Z.testbit (JS.ToInt32 y) k = Z.testbit y k.
Proof.
  intros Hk. unfold JS.ToInt32.
  assert (Hm : Z.testbit (y mod 2 ^ 32) k = Z.testbit y k)
    by (apply Z.mod_pow2_bits_low; lia).
  cbv zeta. destruct (2 ^ 31 <=? y mod 2 ^ 32); [|exact Hm].
  rewrite <- Hm.
  rewrite <- (Z.mod_pow2_bits_low (y mod 2 ^ 32 - 2 ^ 32) 32 k) by lia.
  replace (y mod 2 ^ 32 - 2 ^ 32) with (y mod 2 ^ 32 + (-1) * 2 ^ 32) by lia.
  rewrite Z.mod_add by lia. rewrite Z.mod_mod by lia. reflexivity.
Qed.

Lemma mask_shift_range index : 0 <= BitBuffer.mask_shift index < 32.
Proof. unfold BitBuffer.mask_shift. apply Z.mod_pos_bound. lia. Qed.

Lemma bit_mask_testbit index n :
  0 <= n < 32 ->
  Z.testbit (BitBuffer.bit_mask index) n = (BitBuffer.mask_shift index =? n).
Proof.
  intros Hn. unfold BitBuffer.bit_mask, JS.shl.
  fold (BitBuffer.mask_shift index).
  pose proof (mask_shift_range index) as Hc.
  rewrite ToInt32_testbit by lia. change (JS.ToInt32 1) with 1.
  rewrite Z.shiftl_1_l. apply Z.pow2_bits_eqb. lia.
Qed.

Lemma bor_testbit b m k :
  0 <= k < 32 -> Z.testbit (JS.bor b m) k = Z.testbit b k || Z.testbit m k.
Proof.
  intros Hk. unfold JS.bor.
  now rewrite ToInt32_testbit, Z.lor_spec, !ToInt32_testbit by lia.
Qed.

Lemma band_testbit b m k :
  0 <= k < 32 -> Z.testbit (JS.band b m) k = Z.testbit b k && Z.testbit m k.
Proof.
  intros Hk. unfold JS.band.
  now rewrite ToInt32_testbit, Z.land_spec, !ToInt32_testbit by lia.
Qed.

Lemma size_put (b : Buffer.t) i v : Buffer.size (Buffer.put b i v) = Buffer.size b.
Proof.
  unfold Buffer.put. destruct (_ || _); [reflexivity|].
  unfold Buffer.size. now rewrite length_insert.
Qed.

Lemma at_put_same (b : Buffer.t) i v x :
  Buffer.at_ b i = Some x ->
  Buffer.at_ (Buffer.put b i v) i = Some (v mod 256).
Proof.
  unfold Buffer.at_, Buffer.put.
  destruct ((i <? 0) || (Buffer.size b <=? i)) eqn:Hout; [discriminate|].
  intros Hx. unfold Buffer.size at 1. rewrite length_insert.
  fold (Buffer.size b). rewrite Hout.
  apply list_lookup_insert_eq. eapply lookup_lt_Some; eauto.
Qed.

Lemma at_put_other (b : Buffer.t) i j v :
  i <> j -> Buffer.at_ (Buffer.put b i v) j = Buffer.at_ b j.
Proof.
  intros Hne. unfold Buffer.at_. rewrite size_put. unfold Buffer.put.
  destruct ((j <? 0) || (Buffer.size b <=? j)) eqn:Hj; [reflexivity|].
  destruct ((i <? 0) || (Buffer.size b <=? i)) eqn:Hi; [reflexivity|].
  apply orb_false_elim in Hj as [Hj _]. apply orb_false_elim in Hi as [Hi _].
  apply Z.ltb_ge in Hj, Hi.
  apply list_lookup_insert_ne. lia.
Qed.

Lemma size_set (bb : BitBuffer.t) index v :
  Buffer.size (BitBuffer.set bb index v) = Buffer.size bb.
Proof.
  unfold BitBuffer.set. cbv zeta. destruct (Buffer.at_ _ _); [|reflexivity].
  destruct v; apply size_put.
Qed.

(** A bit that is set is found by [get]. *)
Lemma get_of_bit_set (bb : BitBuffer.t) index :
  BitBuffer.bit_set bb index -> BitBuffer.get bb index = true.
Proof.
  intros (b & Hat & Hbit). unfold BitBuffer.get. rewrite Hat.
  pose proof (mask_shift_range index) as Hc.
  destruct (Z.eqb_spec (JS.band b (BitBuffer.bit_mask index)) 0) as [Hz|];
    [|reflexivity].
  apply (f_equal (fun z => Z.testbit z (BitBuffer.mask_shift index))) in Hz.
  rewrite band_testbit, bit_mask_testbit, Hbit, Z.eqb_refl, Z.bits_0 in Hz
    by lia.
  discriminate.
Qed.

(** [set] sets the bit it is asked for, when the byte is in the buffer and
    the mask is within the byte. *)
Lemma set_true_self (bb : BitBuffer.t) index b :
  Buffer.at_ bb (BitBuffer.byte_index index) = Some b ->
  BitBuffer.mask_shift index < 8 ->
  BitBuffer.bit_set (BitBuffer.set bb index true) index.
Proof.
  intros Hat Hc. pose proof (mask_shift_range index) as Hr.
  unfold BitBuffer.set. cbv zeta. rewrite Hat.
  eexists. split; [eapply at_put_same; eauto|].
  change 256 with (2 ^ 8). rewrite Z.mod_pow2_bits_low by lia.
  rewrite bor_testbit, bit_mask_testbit, Z.eqb_refl by lia.
  apply orb_true_r.
Qed.

(** [set] keeps the bits that are set. *)
Lemma set_true_keeps (bb : BitBuffer.t) index q :
  BitBuffer.bit_set bb q ->
  BitBuffer.mask_shift q < 8 ->
  BitBuffer.bit_set (BitBuffer.set bb index true) q.
Proof.
  intros (b & Hat & Hbit) Hc. pose proof (mask_shift_range q) as Hr.
  unfold BitBuffer.set. cbv zeta.
  destruct (Buffer.at_ bb (BitBuffer.byte_index index)) as [x|] eqn:Hx;
    [|now exists b].
  destruct (Z.eq_dec (BitBuffer.byte_index index) (BitBuffer.byte_index q))
    as [Heq|Hne].
  - rewrite Heq in *. assert (x = b) by congruence. subst x.
    eexists. split; [eapply at_put_same; eauto|].
    change 256 with (2 ^ 8). rewrite Z.mod_pow2_bits_low by lia.
    rewrite bor_testbit, Hbit by lia. reflexivity.
  - exists b. split; [|assumption]. now rewrite at_put_other.
Qed.

(** *** Probes at non-negative positions *)

(** A non-negative hash value probes a bit inside the buffer, with a mask
    inside the byte. *)
Lemma probe_position (bb : BitBuffer.t) h :
  0 <= h -> 0 < BitBuffer.bits bb ->
  (exists b,
     Buffer.at_ bb (BitBuffer.byte_index (JS.rem h (BitBuffer.bits bb)))
     = Some b)
  /\ BitBuffer.mask_shift (JS.rem h (BitBuffer.bits bb)) < 8.
Proof.
  intros Hh Hbits. unfold JS.rem.
  destruct (Z.eqb_spec (BitBuffer.bits bb) 0) as [|_]; [lia|].
  assert (Hr : 0 <= Z.rem h (BitBuffer.bits bb) < BitBuffer.bits bb)
    by (apply Z.rem_bound_pos; lia).
  set (r := Z.rem h (BitBuffer.bits bb)) in *. split.
  - unfold BitBuffer.byte_index, JS.shr, JS.ToUint32_nan, JS.ToUint32.
    change (3 mod 2 ^ 32 mod 32) with 3. rewrite Z.mod_mod by lia.
    rewrite Z.shiftr_div_pow2 by lia. change (2 ^ 3) with 8.
    assert (Hm : 0 <= r mod 2 ^ 32 <= r).
    { split; [apply Z.mod_pos_bound; lia | apply Z.mod_le; lia]. }
    assert (Hq : 0 <= r mod 2 ^ 32 / 8 < Buffer.size bb).
    { unfold BitBuffer.bits in Hr. split; [apply Z.div_pos; lia|].
      apply Z.div_lt_upper_bound; lia. }
    unfold Buffer.at_.
    destruct (Z.ltb_spec (r mod 2 ^ 32 / 8) 0); [lia|].
    destruct (Z.leb_spec (Buffer.size bb) (r mod 2 ^ 32 / 8)); [lia|].
    cbn [orb]. apply lookup_lt_is_Some. unfold Buffer.size in Hq. lia.
  - unfold BitBuffer.mask_shift, JS.ToUint32_nan, JS.ToUint32, JS.rem.
    cbn [mbind option_bind]. change (8 =? 0) with false. cbv iota.
    assert (Hr8 : 0 <= Z.rem r 8 < 8) by (apply Z.rem_bound_pos; lia).
    rewrite Z.mod_mod by lia. rewrite (Z.mod_small (Z.rem r 8)) by lia.
    rewrite Z.mod_small by lia. lia.
Qed.

Lemma size_set_probes bits delta count : forall h (bb : BitBuffer.t),
  Buffer.size (set_probes bits delta count h bb) = Buffer.size bb.
Proof.
  induction count as [|count IH]; intros h bb; [reflexivity|].
  cbn [set_probes]. now rewrite IH, size_set.
Qed.

Lemma set_probes_keeps bits delta count q : forall h (bb : BitBuffer.t),
  BitBuffer.bit_set bb q -> BitBuffer.mask_shift q < 8 ->
  BitBuffer.bit_set (set_probes bits delta count h bb) q.
Proof.
  induction count as [|count IH]; intros h bb Hq Hc; [assumption|].
  cbn [set_probes]. apply IH; [|assumption]. now apply set_true_keeps.
Qed.

(** The inner loop sets the bit of each of its probes whose hash value is
    not negative. *)
Lemma set_probes_sets delta count : forall h (bb : BitBuffer.t) (j : nat),
  0 < BitBuffer.bits bb ->
  (j < count)%nat ->
  0 <= h + Z.of_nat j * delta ->
  BitBuffer.bit_set (set_probes (BitBuffer.bits bb) delta count h bb)
    (JS.rem (h + Z.of_nat j * delta) (BitBuffer.bits bb)).
Proof.
  induction count as [|count IH]; intros h bb j Hbits Hj Hpos; [lia|].
  cbn [set_probes]. destruct j as [|j].
  - replace (h + Z.of_nat 0 * delta) with h in * by lia.
    destruct (probe_position bb h Hpos Hbits) as [[b Hat] Hc].
    apply set_probes_keeps; [|assumption]. eapply set_true_self; eauto.
  - set (bb' := BitBuffer.set bb (JS.rem h (BitBuffer.bits bb)) true).
    assert (Hsame : BitBuffer.bits bb' = BitBuffer.bits bb)
      by (unfold BitBuffer.bits, bb'; now rewrite size_set).
    replace (h + Z.of_nat (S j) * delta)
      with (h + delta + Z.of_nat j * delta) in * by lia.
    rewrite <- Hsame. apply IH; [lia | lia | assumption].
Qed.

Lemma size_put_loop kNumber bits keys count :
  forall i (bb bb' : BitBuffer.t),
    put_loop kNumber bits keys i count bb = Some bb' ->
    Buffer.size bb' = Buffer.size bb.
Proof.
  induction count as [|count IH]; intros i bb bb' Hrun.
  - now injection Hrun as <-.
  - cbn [put_loop] in Hrun. destruct (keys !! i); [|discriminate].
    cbn [mbind option_bind] in Hrun. apply IH in Hrun.
    now rewrite Hrun, size_set_probes.
Qed.

Lemma put_loop_keeps kNumber bits keys count q :
  forall i (bb bb' : BitBuffer.t),
    put_loop kNumber bits keys i count bb = Some bb' ->
    BitBuffer.bit_set bb q -> BitBuffer.mask_shift q < 8 ->
    BitBuffer.bit_set bb' q.
Proof.
  induction count as [|count IH]; intros i bb bb' Hrun Hq Hc.
  - now injection Hrun as <-.
  - cbn [put_loop] in Hrun. destruct (keys !! i); [|discriminate].
    cbn [mbind option_bind] in Hrun.
    eapply IH; [exact Hrun | | assumption].
    now apply set_probes_keeps.
Qed.

(** The outer loop sets the bits of the non-negative probes of every key it
    goes through. *)
Lemma put_loop_sets kNumber keys count :
  forall i (bb bb' : BitBuffer.t) (m : nat) key (j : nat),
    put_loop kNumber (BitBuffer.bits bb) keys i count bb = Some bb' ->
    0 < BitBuffer.bits bb ->
    (i <= m < i + count)%nat ->
    keys !! m = Some key ->
    (j < Z.to_nat kNumber)%nat ->
    0 <= bloomHash key + Z.of_nat j * hash_delta (bloomHash key) ->
    BitBuffer.bit_set bb'
      (JS.rem (bloomHash key + Z.of_nat j * hash_delta (bloomHash key))
         (BitBuffer.bits bb)).
Proof.
  induction count as [|count IH];
    intros i bb bb' m key j Hrun Hbits Hm Hkey Hj Hpos; [lia|].
  cbn [put_loop] in Hrun.
  destruct (keys !! i) as [key_i|] eqn:Hi; [|discriminate].
  cbn [mbind option_bind] in Hrun.
  set (bb1 := set_probes (BitBuffer.bits bb) (hash_delta (bloomHash key_i))
                (Z.to_nat kNumber) (bloomHash key_i) bb) in *.
  assert (Hsame : BitBuffer.bits bb1 = BitBuffer.bits bb)
    by (unfold BitBuffer.bits, bb1; now rewrite size_set_probes).
  destruct (Nat.eq_dec m i) as [->|Hne].
  - assert (key_i = key) by congruence. subst key_i.
    eapply put_loop_keeps; [exact Hrun | |].
    + now apply set_probes_sets.
    + now apply probe_position.
  - rewrite <- Hsame in Hrun |- *.
    eapply (IH (S i) bb1 bb' m key j); eauto; lia.
Qed.

(** [keyMayMatch] finds a key all of whose probes are set. *)
Lemma probe_all_set (bb : BitBuffer.t) delta count : forall h,
  (forall j : nat,
     (j < count)%nat ->
     BitBuffer.bit_set bb (JS.rem (h + Z.of_nat j * delta) (BitBuffer.bits bb))) ->
  probe bb delta count h = true.
Proof.
  induction count as [|count IH]; intros h Hall; [reflexivity|].
  cbn [probe]. rewrite get_of_bit_set.
  - cbn [negb]. apply IH. intros j Hj.
    replace (h + delta + Z.of_nat j * delta)
      with (h + Z.of_nat (S j) * delta) by lia.
    apply Hall. lia.
  - replace h with (h + Z.of_nat 0 * delta) at 1 by lia. apply Hall. lia.
Qed.

(** *** A fresh filter *)

Lemma ceil_positive (q : Q) : (0 < q)%Q -> 1 <= JS.ceil q.
Proof.
  intros Hq. unfold JS.ceil.
  pose proof (Qle_ceiling q) as Hle.
  assert (Hlt : (0 < inject_Z (Qceiling q))%Q) by (eapply Qlt_le_trans; eauto).
  unfold Qlt in Hlt. simpl in Hlt. lia.
Qed.

Lemma putKeys_bits_positive bits :
  64 <= bits -> (0 < inject_Z (bits + 7) / 8 * 8 / 8)%Q.
Proof.
  intros Hb. unfold Qlt, Qdiv, Qmult, Qinv, inject_Z. simpl. lia.
Qed.

Lemma size_slice_front (b : Buffer.t) n :
  0 <= n <= Buffer.size b -> Buffer.size (Buffer.slice b 0 n) = n.
Proof.
  intros Hn. unfold Buffer.slice, Buffer.rel_index.
  change (0 <? 0) with false. cbv iota.
  destruct (Z.ltb_spec n 0); [lia|].
  rewrite Z.min_l, Z.min_l by lia. rewrite Z.sub_0_r.
  change (Z.to_nat 0) with 0%nat. rewrite drop_0.
  unfold Buffer.size in *. rewrite length_take. lia.
Qed.

(** Resizing to at least one byte leaves at least one byte. *)
Lemma resizeBits_not_empty (bb : BitBuffer.t) (q : Q) :
  1 <= JS.ceil (q / 8)%Q -> 1 <= Buffer.size bb ->
  1 <= Buffer.size (BitBuffer.resizeBits bb q).
Proof.
  intros Hq Hbb. unfold BitBuffer.resizeBits. cbv zeta.
  destruct (Z.ltb_spec (Buffer.size bb) (JS.ceil (q / 8)%Q)).
  - rewrite concat2, size_app. pose proof (size_nonneg (Buffer.alloc
      (JS.ceil (q / 8)%Q - Buffer.size bb))). lia.
  - destruct (Z.ltb_spec (JS.ceil (q / 8)%Q) (Buffer.size bb)); [|assumption].
    rewrite size_slice_front; lia.
Qed.

(** The encoded filter of [putKeys] on a fresh filter is read back by the
    constructor as its bit buffer with seven hashes. *)
Lemma make_of_encoded (bb : BitBuffer.t) :
  make (Some (bb ++ [7])) default_bitsPerKey
  = Some {| _buffer := bb ++ [7];
            _offset := 0;
            _size := Buffer.size (bb ++ [7]);
            _kNumber := 7;
            _bitBuffer := bb;
            _bitsPerKey := default_bitsPerKey |}.
Proof.
  unfold make. cbv zeta.
  assert (Hsize : Buffer.size (bb ++ [7]) = Buffer.size bb + 1)
    by now rewrite size_app.
  pose proof (size_nonneg bb) as Hbb.
  destruct (Z.eqb_spec (Buffer.size (bb ++ [7])) 0) as [|_]; [lia|].
  assert (Hfront :
            Buffer.slice (bb ++ [7]) 0 (Buffer.size (bb ++ [7]) - 1) = bb)
    by apply (slice_front bb [7]).
  assert (Hback :
            Buffer.slice_from (bb ++ [7]) (Buffer.size (bb ++ [7]) - 1) = [7])
    by apply (slice_from_back bb [7]).
  rewrite !Hfront, Hback. reflexivity.
Qed.

(** The part of C3 that holds: after [putKeys] on a fresh filter with the
    default ten bits per key, [keyMayMatch] returns true for every key among
    the first [n] whose seven probe values [h + j * delta] are all
    non-negative. *)
Lemma keyMayMatch_of_nonnegative_probes keys n filter key :
  putKeys (make_empty default_bitsPerKey) keys n = Some filter ->
  key ∈ take (Z.to_nat n) keys ->
  (forall j : nat,
     (j < 7)%nat ->
     0 <= bloomHash key + Z.of_nat j * hash_delta (bloomHash key)) ->
  keyMayMatch key (_buffer filter) = Some true.
Proof.
  intros Hput Hin Hpos. unfold putKeys in Hput.
  change (_bitsPerKey (make_empty default_bitsPerKey)) with 10 in Hput.
  change (_bitBuffer (make_empty default_bitsPerKey)) with [0] in Hput.
  change (_kNumber (make_empty default_bitsPerKey)) with 7 in Hput.
  change (_buffer (make_empty default_bitsPerKey)) with [7] in Hput.
  change (_offset (make_empty default_bitsPerKey)) with 0 in Hput.
  change (_size (make_empty default_bitsPerKey)) with 1 in Hput.
  cbv zeta in Hput.
  set (bits := if 10 * n <? 64 then 64 else 10 * n) in Hput.
  assert (Hbits : 64 <= bits)
    by (unfold bits; destruct (Z.ltb_spec (10 * n) 64); lia).
  set (bb0 := BitBuffer.resizeBits [0] (inject_Z (bits + 7) / 8 * 8)%Q)
    in Hput.
  assert (Hbb0 : 0 < BitBuffer.bits bb0).
  { unfold BitBuffer.bits.
    pose proof (resizeBits_not_empty [0] (inject_Z (bits + 7) / 8 * 8)%Q)
      as Hne.
    fold bb0 in Hne. specialize (Hne
      (ceil_positive _ (putKeys_bits_positive bits Hbits)) ltac:(reflexivity)).
    lia. }
  destruct (put_loop 7 (BitBuffer.bits bb0) keys 0 (Z.to_nat n) bb0)
    as [bb'|] eqn:Hloop; [|discriminate].
  cbn [mbind option_bind] in Hput. injection Hput as <-.
  cbn [_buffer]. change (Buffer.slice [7] (0 + 1 - 1) (0 + 1)) with [7].
  rewrite ?concat2. rewrite keyMayMatch_unfold, make_of_encoded.
  cbn [mbind option_bind _kNumber _bitBuffer].
  change (30 <? 7) with false. cbv iota. f_equal.
  assert (Hsame : BitBuffer.bits bb' = BitBuffer.bits bb0)
    by (unfold BitBuffer.bits; now rewrite (size_put_loop _ _ _ _ _ _ _ Hloop)).
  apply list_elem_of_lookup in Hin as [m Hm].
  apply lookup_take_Some in Hm as [Hm Hlt].
  apply probe_all_set. intros j Hj. rewrite Hsame.
  eapply (put_loop_sets 7 keys (Z.to_nat n) 0 bb0 bb' m key j); eauto; lia.
Qed.

End BloomClaims.

Lemma keyMayMatch_false_negative_witness :
  BloomFilter.bloomHash (H := constant_hash) [97] = 65536
  /\ (filter ← BloomFilter.putKeys (H := constant_hash)
                 (BloomFilter.make_empty BloomFilter.default_bitsPerKey)
                 [[97]] 1;
      BloomFilter.keyMayMatch (H := constant_hash) [97]
        (BloomFilter._buffer filter)) = Some false.
Proof.
  split; [reflexivity|].
  apply (keyMayMatch_false_negative (H := constant_hash) [97]). reflexivity.
Defined.

Lemma keyMayMatch_large_k_probes_witness :
  30 < 31 < 128
  /\ BloomFilter.keyMayMatch (H := constant_hash) [97] [0; 31] = Some false.
Proof.
  split; [lia|].
  apply (keyMayMatch_large_k_probes (H := constant_hash) [97] 31). lia.
Defined.

(** ** File names *)

Section FilenameClaims.

Import Filename.

Lemma string_length_append (s t : string) :
  String.length (s +:+ t) = (String.length s + String.length t)%nat.
Proof. induction s as [|c s IH]; simpl; [reflexivity|]. now rewrite IH. Qed.

Lemma digit_roundtrip d :
  0 <= d < 10 -> digit_of_ascii (digit_char d) = Some d.
Proof.
  intros Hd.
  assert (Hcases : d = 0 \/ d = 1 \/ d = 2 \/ d = 3 \/ d = 4 \/ d = 5
                   \/ d = 6 \/ d = 7 \/ d = 8 \/ d = 9) by lia.
  destruct Hcases as [->|[->|[->|[->|[->|[->|[->|[->|[->| ->]]]]]]]]];
    reflexivity.
Qed.

Lemma decimal_value_from_app acc (s t : string) :
  decimal_value_from acc (s +:+ t)
  = (v ← decimal_value_from acc s; decimal_value_from v t).
Proof.
  revert acc. induction s as [|c s IH]; intros acc; simpl; [reflexivity|].
  destruct (digit_of_ascii c); simpl; [apply IH | reflexivity].
Qed.

Lemma div10_bound n f :
  10 <= n < 2 ^ Z.of_nat (S f) ->
  0 <= n / 10 < 2 ^ Z.of_nat f /\ (1 <= f)%nat.
Proof.
  intros [Hlo Hhi]. rewrite Nat2Z.inj_succ, Z.pow_succ_r in Hhi by lia.
  assert (Hq : 1 <= n / 10) by (apply Z.div_le_lower_bound; lia).
  assert (Hd : n / 10 < 2 ^ Z.of_nat f)
    by (apply Z.div_lt_upper_bound; lia).
  split; [lia|]. destruct f; [simpl in Hd; lia | lia].
Qed.

(** The digits read back as the number. *)
Lemma digits_fuel_value f :
  forall n,
    (1 <= f)%nat -> 0 <= n < 2 ^ Z.of_nat f ->
    decimal_value_from 0 (digits_fuel f n) = Some n.
Proof.
  induction f as [|f IH]; intros n Hf Hn; [lia|].
  cbn [digits_fuel]. destruct (Z.ltb_spec n 10) as [Hsmall|Hbig].
  - cbn [decimal_value_from]. rewrite digit_roundtrip by lia.
    cbn [mbind option_bind]. f_equal.
  - destruct (div10_bound n f) as [Hq Hf']; [lia|].
    rewrite decimal_value_from_app, IH by assumption.
    cbn [mbind option_bind decimal_value_from].
    rewrite digit_roundtrip by (apply Z.mod_pos_bound; lia).
    cbn [mbind option_bind]. f_equal.
    pose proof (Z.div_mod n 10). lia.
Qed.

(** A number below 10^k has at most k digits. *)
Lemma digits_fuel_length f :
  forall n k,
    (1 <= f)%nat -> 0 <= n < 2 ^ Z.of_nat f ->
    (1 <= k)%nat -> n < 10 ^ Z.of_nat k ->
    (String.length (digits_fuel f n) <= k)%nat.
Proof.
  induction f as [|f IH]; intros n k Hf Hn Hk Hlt; [lia|].
  cbn [digits_fuel]. destruct (Z.ltb_spec n 10) as [Hsmall|Hbig].
  - simpl. lia.
  - destruct (div10_bound n f) as [Hq Hf']; [lia|].
    rewrite string_length_append. simpl.
    destruct k as [|k]; [lia|]. destruct k as [|k]; [simpl in Hlt; lia|].
    assert (Hdiv : n / 10 < 10 ^ Z.of_nat (S k)).
    { apply Z.div_lt_upper_bound; [lia|].
      rewrite (Nat2Z.inj_succ (S k)), Z.pow_succ_r in Hlt by lia. lia. }
    specialize (IH (n / 10) (S k) Hf' Hq ltac:(lia) Hdiv). lia.
Qed.

Lemma digits_fuel_enough n :
  0 <= n -> 0 <= n < 2 ^ Z.of_nat (S (Z.to_nat (Z.log2 n))).
Proof.
  intros Hn. split; [assumption|].
  rewrite Nat2Z.inj_succ, Z2Nat.id by apply Z.log2_nonneg.
  destruct (Z.eq_dec n 0) as [->|Hne]; [reflexivity|].
  apply Z.log2_spec. lia.
Qed.

(** Up to [2^53] [String] prints the digits of the number. *)
Lemma String_digits n :
  0 <= n <= 2 ^ 53 -> String_ n = digits n.
Proof.
  intros Hn. unfold String_, String_abs.
  destruct (Z.ltb_spec n 0); [lia|].
  destruct (Z.leb_spec n (2 ^ 53)); [reflexivity|lia].
Qed.

Lemma String_value n :
  0 <= n <= 2 ^ 53 -> decimal_value (String_ n) = Some n.
Proof.
  intros Hn. rewrite String_digits by exact Hn. unfold decimal_value.
  apply digits_fuel_value; [lia | apply digits_fuel_enough; lia].
Qed.

Lemma String_length n k :
  0 <= n < 10 ^ Z.of_nat k -> n <= 2 ^ 53 -> (1 <= k)%nat ->
  (String.length (String_ n) <= k)%nat.
Proof.
  intros Hn Hb Hk. rewrite String_digits by lia.
  apply digits_fuel_length; try lia. apply digits_fuel_enough. lia.
Qed.

Lemma pad_loop_value f : forall s,
  decimal_value (pad_loop f s) = decimal_value s.
Proof.
  induction f as [|f IH]; intros s; [reflexivity|].
  cbn [pad_loop]. destruct (_ <? 6); [|reflexivity].
  now rewrite IH.
Qed.

Lemma pad_loop_length f : forall s,
  (String.length s <= 6)%nat -> (6 <= f + String.length s)%nat ->
  String.length (pad_loop f s) = 6%nat.
Proof.
  induction f as [|f IH]; intros s Hle Hge; [simpl in *; lia|].
  cbn [pad_loop].
  destruct (Z.ltb_spec (Z.of_nat (String.length s)) 6); [|lia].
  apply IH; simpl; lia.
Qed.

(** The part of C9 that holds: [numberToString], which names the log, table
    and manifest files, writes a number from 0 to 999999 as its zero-padded
    six-digit decimal. *)
Lemma numberToString_six_digits n :
  0 <= n <= 999999 -> six_digit_decimal n (numberToString n).
Proof.
  intros Hn. unfold six_digit_decimal, numberToString. split.
  - apply pad_loop_length; [|lia].
    apply String_length; [|lia|lia].
    change (10 ^ Z.of_nat 6) with 1000000. lia.
  - rewrite pad_loop_value. apply String_value. lia.
Qed.

Lemma padded_filenames dbpath n :
  1 <= n <= 999999 ->
  exists s,
    six_digit_decimal n s
    /\ getLogFilename dbpath n = Path.resolve dbpath (s +:+ ".log")
    /\ getTableFilename dbpath n = Path.resolve dbpath (s +:+ ".ldb")
    /\ getManifestFilename dbpath n
       = Path.resolve dbpath ("MANIFEST-" +:+ s).
Proof.
  intros Hn. exists (numberToString n).
  split; [apply numberToString_six_digits; lia|]. repeat split.
Qed.

(** C9 (fails for the temp file).  The temp file of number 1 is named
    [1.dbtmp]: [getTempFilename] interpolates the number itself and does
    not go through [numberToString], so the name does not hold the
    six-digit decimal [000001]. *)
Theorem getTempFilename_not_padded dbpath :
  getTempFilename dbpath 1 = Some (Path.resolve dbpath "1.dbtmp")
  /\ ~ six_digit_decimal 1 "1"
  /\ getLogFilename dbpath 1 = Path.resolve dbpath "000001.log".
Proof.
  split; [reflexivity|]. split; [|reflexivity].
  intros [Hlen _]. discriminate Hlen.
Qed.

End FilenameClaims.

(** ** Compactions *)

Section CompactionClaims.

Import VersionFormat Compaction.

(** The part of C6 that holds.  For a compaction with an input version,
    [isTrivialMove] returns true exactly when [inputs[0]] has one file,
    [inputs[1]] is empty, and the grandparents are there and their total
    size is at most ten times the [maxFileSize] of the version set's
    options. *)
Theorem isTrivialMove_iff (c : Compaction.t) (v : Version.t) :
  inputVersion c = Some v ->
  (isTrivialMove c = Some true
   <-> length (fst (inputs c)) = 1%nat
       /\ length (snd (inputs c)) = 0%nat
       /\ exists gp,
            grandparents c = Some gp
            /\ totalFileSize gp
               <= 10 * Options.maxFileSize
                         (Version._options (Version.versionSet v))).
Proof.
  intros Hv. unfold isTrivialMove, numInputFiles. rewrite Hv.
  cbn [mbind option_bind]. change (0 =? 0) with true.
  change (1 =? 0) with false. cbv iota.
  unfold maxGrandParentOverlapBytes, targetFileSize.
  destruct (Z.eqb_spec (Z.of_nat (length (fst (inputs c)))) 1) as [H0|H0];
    cbn [negb].
  - destruct (Z.eqb_spec (Z.of_nat (length (snd (inputs c)))) 0) as [H1|H1];
      cbn [negb].
    + destruct (grandparents c) as [gp|]; cbn [mbind option_bind].
      * split.
        -- intros Heq. injection Heq as Heq. apply Z.leb_le in Heq.
           repeat split; try lia. exists gp. split; [reflexivity | exact Heq].
        -- intros (_ & _ & gp' & Hgp & Hle). injection Hgp as <-.
           f_equal. now apply Z.leb_le.
      * split; [discriminate|]. intros (_ & _ & gp' & Hgp & _).
        discriminate.
    + split; [discriminate|]. intros (_ & Hl & _). lia.
  - split; [discriminate|]. intros (Hl & _). lia.
Qed.

Lemma isTrivialMove_iff_witness :
  isTrivialMove Samples.sample_move = Some true
  <-> length (fst (inputs Samples.sample_move)) = 1%nat
      /\ length (snd (inputs Samples.sample_move)) = 0%nat
      /\ exists gp,
           grandparents Samples.sample_move = Some gp
           /\ totalFileSize gp
              <= 10 * Options.maxFileSize
                        (Version._options (Version.versionSet Samples.sample_version)).
Proof. apply (isTrivialMove_iff Samples.sample_move Samples.sample_version). reflexivity. Defined.

(** With one input file, no parent file and no grandparents assigned (a
    compaction of level 5 or more never gets any), the call throws. *)
Lemma isTrivialMove_without_grandparents c v f :
  inputVersion c = Some v ->
  inputs c = ([f], []) ->
  grandparents c = None ->
  isTrivialMove c = None.
Proof.
  intros Hv Hi Hg. unfold isTrivialMove, numInputFiles.
  now rewrite Hv, Hi, Hg.
Qed.

End CompactionClaims.

(** ** The version set *)

Section VersionSetClaims.

Import VersionFormat VersionSet.

Context {C : Collaborators}.

Lemma addRecord_status w r b env s env' :
  LogWriter.addRecord w r b env = (s, env') ->
  Status.ok s = false -> env' = env.
Proof.
  unfold LogWriter.addRecord. destruct b; intros [= <- <-]; [discriminate|].
  reflexivity.
Qed.

Lemma manifest_filename_not_empty dbpath n :
  String.eqb (Filename.getManifestFilename dbpath n) EmptyString = false.
Proof.
  unfold Filename.getManifestFilename, Path.resolve.
  destruct dbpath; reflexivity.
Qed.

(** What the descriptor step leaves: the versions are untouched; the file
    name is that of the MANIFEST exactly when no writer was open. *)
Lemma open_manifest_spec this outcome env edit name status this1 env1 edit1 :
  open_manifest this outcome env edit
  = Some (name, status, this1, env1, edit1) ->
  _current this1 = _current this
  /\ older this1 = older this
  /\ _dbpath this1 = _dbpath this
  /\ manifestFileNumber this1 = manifestFileNumber this
  /\ match manifestWriter this with
     | None =>
         name = Filename.getManifestFilename (_dbpath this)
                  (manifestFileNumber this)
     | Some _ => name = EmptyString /\ env1 = env
     end.
Proof.
  unfold open_manifest. destruct (manifestWriter this) as [w|].
  - intros [= <- <- <- <- <-]. repeat split.
  - destruct (Env.open_ok outcome); [|discriminate].
    cbn [attempt mbind option_bind].
    destruct (writeSnapshot _ _ _ _) as [[st e]|]; [|discriminate].
    cbn [mbind option_bind]. intros [= <- <- <- <- <-]. repeat split.
Qed.

(** A failed installation leaves the versions untouched; it unlinks the
    file it was given the name of, and without a name it leaves the files
    as they were. *)
Lemma writeCurrentFile_skipped (st : Status.t) (env env0 : Env.t)
    dbpath n b st2 env2 :
  (if Status.ok st && (0 <? Z.of_nat (String.length EmptyString))
   then writeCurrentFile dbpath n b env
   else (st, env)) = (st2, env2) ->
  (Status.ok st = false -> env = env0) ->
  Status.ok st2 = false -> env2 = env0.
Proof.
  rewrite andb_false_r. intros [= <- <-]. auto.
Qed.

(** The last branch of [logAndApply] on a status that is not ok. *)
Ltac install_failed_branch Hrun Hres Henv :=
  match type of Hrun with
  | context [String.eqb ?name EmptyString] =>
      destruct (String.eqb_spec name EmptyString) as [->|Hname];
      cbn [negb] in Hrun;
      [ injection Hrun as <- <- <-;
        split; [reflexivity|]; split; [reflexivity|];
        eapply writeCurrentFile_skipped; [exact Hres | exact Henv | assumption]
      | destruct (Env.close_ok _); [|discriminate];
        destruct (Env.unlink_ok _); [|discriminate];
        cbn [attempt mbind option_bind] in Hrun;
        injection Hrun as <- <- <-;
        split; [reflexivity|]; split; [reflexivity|];
        apply lookup_delete_eq ]
  end.

(** The last branch of [logAndApply] on a status that is ok returns that
    status. *)
Ltac install_ok_branch Hrun :=
  repeat match type of Hrun with
         | context [attempt ?b] =>
             destruct b; cbn [attempt mbind option_bind] in Hrun;
             [|discriminate]
         | context [negb ?b] => destruct b; cbn [negb mbind option_bind] in Hrun
         | context [appendVersion ?t ?v] =>
             destruct (appendVersion t v);
             cbn [mbind option_bind] in Hrun; [|discriminate]
         end;
  injection Hrun as <- <- <-; congruence.

(** A failed installation leaves the versions untouched; it unlinks the
    file it was given the name of, and without a name it leaves the files
    as they were. *)
Lemma install_failure this outcome env edit ver name status status' this' env' :
  install this outcome env edit ver name status = Some (status', this', env') ->
  Status.ok status' = false ->
  _current this' = _current this
  /\ older this' = older this
  /\ (if String.eqb name EmptyString then env' = env
      else env' !! name = None).
Proof.
  unfold install. intros Hrun Hfail.
  destruct (Status.ok status) eqn:Hok.
  - destruct (manifestWriter this) as [w|]; [|discriminate].
    cbn [mbind option_bind] in Hrun.
    destruct (LogWriter.addRecord _ _ _ _) as [st1 env1] eqn:Hadd.
    cbn [mbind option_bind] in Hrun.
    pose proof (addRecord_status _ _ _ _ _ _ Hadd) as Henv.
    destruct (if Status.ok st1 && _ then _ else _) as [st2 env2] eqn:Hres.
    destruct (Status.ok st2) eqn:Hok2.
    + install_ok_branch Hrun.
    + install_failed_branch Hrun Hres Henv.
  - cbn [mbind option_bind] in Hrun.
    assert (Henv : Status.ok status = false -> env = env) by reflexivity.
    destruct (if Status.ok status && _ then _ else _) as [st2 env2] eqn:Hres.
    destruct (Status.ok st2) eqn:Hok2.
    + install_ok_branch Hrun.
    + install_failed_branch Hrun Hres Henv.
Qed.

(** C4.  When [logAndApply] returns a status that is not ok, the current
    version is the one from before the call, and so is the ring of older
    versions; a MANIFEST that the call created (there was no writer yet) is
    unlinked, and a call that created none leaves the files as they were. *)
Theorem logAndApply_failure this outcome env edit status this' env' :
  logAndApply this outcome env edit = Some (status, this', env') ->
  Status.ok status = false ->
  _current this' = _current this
  /\ older this' = older this
  /\ match manifestWriter this with
     | None =>
         env' !! Filename.getManifestFilename (_dbpath this)
                   (manifestFileNumber this) = None
     | Some _ => env' = env
     end.
Proof.
  intros Hrun Hfail. unfold logAndApply in Hrun.
  destruct (complete_edit this edit) as [edit1|]; [|discriminate].
  cbn [mbind option_bind] in Hrun.
  destruct (finalize _) as [ver|]; [|discriminate].
  cbn [mbind option_bind] in Hrun.
  destruct (open_manifest _ _ _ _) as [[[[[name st] this1] env1] edit2]|]
    eqn:Hopen; [|discriminate].
  cbn [mbind option_bind] in Hrun.
  apply open_manifest_spec in Hopen as (Hcur & Hold & Hpath & Hnum & Hname).
  destruct (install_failure _ _ _ _ _ _ _ _ _ _ Hrun Hfail)
    as (Hcur' & Hold' & Henv).
  cbn [set_compactPointers _current older manifestWriter _dbpath
       manifestFileNumber] in *.
  split; [congruence|]. split; [congruence|].
  destruct (manifestWriter this) as [w|].
  - destruct Hname as [-> ->]. exact Henv.
  - subst name. now rewrite manifest_filename_not_empty in Henv.
Qed.

(** *** The inputs of a manual compaction *)

Lemma getTotalBytes_from (files : list FileMetaData) (a : Z) :
  fold_left (fun sum f => sum + fileSize f) files a
  = a + getTotalBytes files.
Proof.
  unfold getTotalBytes. revert a.
  induction files as [|f files IH]; intros a; simpl; [lia|].
  rewrite IH, (IH (0 + fileSize f)). lia.
Qed.

Lemma getTotalBytes_snoc (files : list FileMetaData) f :
  getTotalBytes (files ++ [f]) = getTotalBytes files + fileSize f.
Proof.
  unfold getTotalBytes at 1. rewrite fold_left_app. simpl.
  now fold (getTotalBytes files).
Qed.

(** The loop stops at the first prefix whose total reaches the limit. *)
Lemma limit_inputs_inv limit (inputs : list FileMetaData) :
  forall rest i total,
    drop i inputs = rest ->
    total = getTotalBytes (take i inputs) ->
    (forall k, (0 < k <= i)%nat -> getTotalBytes (take k inputs) < limit) ->
    (limit_inputs limit inputs i rest total = inputs
     /\ forall k, (0 < k <= length inputs)%nat ->
                  getTotalBytes (take k inputs) < limit)
    \/ exists j,
         (i <= j < length inputs)%nat
         /\ limit_inputs limit inputs i rest total = take (S j) inputs
         /\ limit <= getTotalBytes (take (S j) inputs)
         /\ forall k, (0 < k <= j)%nat ->
                      getTotalBytes (take k inputs) < limit.
Proof.
  induction rest as [|f rest IH]; intros i total Hdrop Htotal Hbelow.
  - left. split; [reflexivity|]. intros k Hk. apply Hbelow.
    apply drop_nil_inv in Hdrop. lia.
  - assert (Hi : inputs !! i = Some f).
    { rewrite <- (Nat.add_0_r i), <- lookup_drop, Hdrop. reflexivity. }
    assert (Hlen : (i < length inputs)%nat) by (eapply lookup_lt_Some; eauto).
    assert (Hnext : getTotalBytes (take (S i) inputs) = total + fileSize f).
    { rewrite (take_S_r _ _ _ Hi), getTotalBytes_snoc. lia. }
    cbn [limit_inputs]. destruct (Z.leb_spec limit (total + fileSize f)).
    + right. exists i. repeat split; auto; lia.
    + destruct (IH (S i) (total + fileSize f))
        as [Hall | (j & Hj & Heq & Hreach & Hprefix)].
      * replace (S i) with (i + 1)%nat by lia.
        rewrite <- drop_drop, Hdrop. reflexivity.
      * now rewrite Hnext.
      * intros k Hk. destruct (Nat.eq_dec k (S i)) as [->|Hne];
          [lia | apply Hbelow; lia].
      * now left.
      * right. exists j. repeat split; auto; lia.
Qed.

(** C5 (as amended).  For [level > 0], the level files that [compactRange]
    selects are a non-empty prefix of the files that overlap the range: the
    shortest prefix whose total size reaches [maxFileSize], or all of them
    when none does.  Every proper non-empty prefix of the selection totals
    less than [maxFileSize]; the selection itself may exceed it. *)
Theorem compactRange_inputs_limit this level begin end_ selected :
  0 < level ->
  compactRange_inputs this level begin end_ = Some selected ->
  let inputs := getOverlappingInputs (_current this) level begin end_ in
  let limit := Options.maxFileSize (_options this) in
  selected <> []
  /\ (exists k, selected = take k inputs)
  /\ (forall k, (0 < k < length selected)%nat ->
                getTotalBytes (take k selected) < limit)
  /\ (selected = inputs \/ limit <= getTotalBytes selected).
Proof.
  intros Hlevel Hsel inputs limit. unfold compactRange_inputs in Hsel.
  fold inputs in Hsel.
  destruct (Z.eqb_spec (Z.of_nat (length inputs)) 0) as [|Hne];
    [discriminate|].
  destruct (Z.ltb_spec 0 level); [|lia].
  injection Hsel as <-. unfold maxFileSizeForLevel. fold limit.
  destruct (limit_inputs_inv limit inputs inputs 0 0)
    as [[-> Hall] | (j & Hj & -> & Hreach & Hbelow)];
    try reflexivity; try (intros k Hk; lia).
  - split; [intros ->; simpl in Hne; lia|].
    split; [exists (length inputs); now rewrite firstn_all|].
    split; [|now left]. intros k Hk. apply Hall. lia.
  - split.
    { intros Hnil. apply (f_equal length) in Hnil.
      rewrite length_take in Hnil. cbn [length] in Hnil. lia. }
    split; [now exists (S j)|].
    split; [|now right]. intros k Hk. rewrite length_take in Hk.
    rewrite take_take. replace (k `min` S j)%nat with k by lia.
    apply Hbelow. lia.
Qed.

End VersionSetClaims.

Section VersionSetExamples.

Import VersionFormat VersionSet.

Lemma logAndApply_failure_witness :
  match
    logAndApply (C := Samples.sample_collaborators) Samples.sample_versionSet
      Samples.snapshot_fails ∅ VersionEdit.make
  with
  | Some (status, this', env') =>
      Status.ok status = false
      /\ _current this' = _current Samples.sample_versionSet
      /\ older this' = older Samples.sample_versionSet
      /\ env' !! Filename.getManifestFilename "/db" 4 = None
  | None => False
  end.
Proof.
  destruct (logAndApply (C := Samples.sample_collaborators) _ _ _ _)
    as [[[status this'] env']|] eqn:Hrun.
  - assert (Hfail : Status.ok status = false).
    { vm_compute in Hrun. injection Hrun as <- _ _. reflexivity. }
    split; [exact Hfail|].
    exact (logAndApply_failure (C := Samples.sample_collaborators)
             Samples.sample_versionSet Samples.snapshot_fails ∅
             VersionEdit.make status this' env' Hrun Hfail).
  - vm_compute in Hrun. discriminate Hrun.
Defined.

Lemma compactRange_inputs_limit_witness :
  [Samples.sample_file 11 1572864; Samples.sample_file 12 1572864] <> []
  /\ (exists k,
        [Samples.sample_file 11 1572864; Samples.sample_file 12 1572864]
        = take k
            (getOverlappingInputs (Collaborators := Samples.sample_collaborators)
               (_current Samples.sample_versionSet) 1 [] []))
  /\ (forall k,
        (0 < k < 2)%nat ->
        getTotalBytes
          (take k
             [Samples.sample_file 11 1572864; Samples.sample_file 12 1572864])
        < Options.maxFileSize (_options Samples.sample_versionSet))
  /\ ([Samples.sample_file 11 1572864; Samples.sample_file 12 1572864]
      = getOverlappingInputs (Collaborators := Samples.sample_collaborators)
          (_current Samples.sample_versionSet) 1 [] []
      \/ Options.maxFileSize (_options Samples.sample_versionSet)
         <= getTotalBytes
              [Samples.sample_file 11 1572864;
               Samples.sample_file 12 1572864]).
Proof.
  apply (compactRange_inputs_limit (C := Samples.sample_collaborators)
           Samples.sample_versionSet 1 [] []).
  - lia.
  - reflexivity.
Defined.

(** C5 as stated fails: at level 1, with three files of 1.5 MiB that
    overlap the range (user keys a to b, c to d, e to f; the range is a to
    z) and the default [maxFileSize] of 2 MiB, the loop selects the first
    two files, 3 MiB.  [compactRange] returns: [setupOtherInputs] finds no
    boundary file, no parent file and nothing to expand, and the compaction
    holds the two files, with the compact pointer of level 1 at the largest
    key of the second. *)
Lemma compactRange_inputs_exceed_limit :
  exists selected this' c,
    compactRange_inputs (C := OtherInputs.keyed_collaborators)
      (OtherInputs.keyed_versionSet OtherInputs.level1_files) 1
      OtherInputs.range_begin OtherInputs.range_end
    = Some selected
    /\ OtherInputs.compactRange (C := OtherInputs.keyed_collaborators)
         (OtherInputs.keyed_versionSet OtherInputs.level1_files) 1
         OtherInputs.range_begin OtherInputs.range_end 4
       = BoundaryInputs.Returned (Some (this', c))
    /\ Compaction.inputs c = (selected, [])
    /\ compactPointers this' !! 1
       = Some (largest (OtherInputs.keyed_file 12 99 100 20))
    /\ getTotalBytes selected = 3145728
    /\ ~ getTotalBytes selected
         <= Options.maxFileSize
              (_options
                 (OtherInputs.keyed_versionSet OtherInputs.level1_files)).
Proof.
  exists [OtherInputs.keyed_file 11 97 98 30;
          OtherInputs.keyed_file 12 99 100 20].
  eexists _, _. split; [vm_compute; reflexivity|].
  split; [vm_compute; reflexivity|]. split; [reflexivity|].
  split; [reflexivity|]. split; [reflexivity|].
  vm_compute. intros Hle. apply Hle. reflexivity.
Qed.

End VersionSetExamples.

(** ** A compaction of level 5 *)

Section CompactionOfLevel5.

Import VersionFormat BoundaryInputs OtherInputs.

Context {C : VersionSet.Collaborators}.

(** [setupOtherInputs] keeps the input version, and it assigns the
    grandparents only below level 5. *)
Lemma setupOtherInputs_keeps this c fuel this' c' :
  setupOtherInputs this c fuel = Returned (this', c') ->
  Compaction.inputVersion c' = Compaction.inputVersion c
  /\ (Config.kNumLevels <= Compaction.level c + 2 ->
      Compaction.grandparents c' = Compaction.grandparents c).
Proof.
  unfold setupOtherInputs. cbv zeta.
  destruct (addBoundaryInputs_of _ _ _ _) as [inputs0| |];
    cbn [mbind outcome_bind]; try discriminate.
  destruct (of_option (KeyRange.getRange this inputs0)) as [[smallest largest]| |];
    cbn [mbind outcome_bind]; try discriminate.
  destruct (of_option (KeyRange.getRange2 _ _ _)) as [[allStart allLimit]| |];
    cbn [mbind outcome_bind]; try discriminate.
  destruct (addBoundaryInputs_of _ _ _ _) as [expand0| |];
    cbn [mbind outcome_bind]; try discriminate.
  match goal with
  | |- context [outcome_bind _ _ _ ?m] => destruct m as [e| |]
  | |- context [mbind _ ?m] => destruct m as [e| |]
  end; cbn [mbind outcome_bind]; try discriminate.
  intros [= <- <-]. cbn [Compaction.inputVersion Compaction.grandparents].
  split; [reflexivity|]. intros Hlevel.
  destruct (Z.ltb_spec (Compaction.level c + 2) Config.kNumLevels);
    [lia|reflexivity].
Qed.

(** C6 (fails at level 5).  A compaction that [compactRange] returns for
    level 5 has no grandparents: [setupOtherInputs] assigns them only when
    [level + 2 < kNumLevels].  When it has one input file and no parent
    file, the two other conditions of a trivial move, [isTrivialMove] does
    not return true: summing the sizes of the missing grandparents
    throws. *)
Theorem isTrivialMove_throws_at_level5 this begin end_ fuel this' c :
  compactRange this 5 begin end_ fuel = Returned (Some (this', c)) ->
  length (fst (Compaction.inputs c)) = 1%nat ->
  length (snd (Compaction.inputs c)) = 0%nat ->
  Compaction.grandparents c = None
  /\ Compaction.isTrivialMove c = None.
Proof.
  unfold compactRange. intros Hrun Hone Hnone.
  destruct (VersionSet.compactRange_inputs this 5 begin end_) as [inputs|];
    [|discriminate].
  cbv zeta in Hrun.
  destruct (setupOtherInputs _ _ fuel) as [[this1 c1]| |] eqn:Hsetup;
    cbn [mbind outcome_bind] in Hrun; try discriminate.
  injection Hrun as <- <-.
  destruct (setupOtherInputs_keeps _ _ _ _ _ Hsetup) as [Hversion Hgrand].
  cbn [Compaction.inputVersion Compaction.set_inputs0
       Compaction.set_inputVersion Compaction.grandparents Compaction.level
       Compaction.make] in Hversion, Hgrand.
  specialize (Hgrand ltac:(unfold Config.kNumLevels; lia)).
  split; [exact Hgrand|].
  unfold Compaction.isTrivialMove, Compaction.numInputFiles.
  rewrite Hversion, Hgrand, Hone, Hnone. reflexivity.
Qed.

End CompactionOfLevel5.

Section CompactionOfLevel5Example.

Import VersionFormat BoundaryInputs OtherInputs.

Lemma isTrivialMove_throws_at_level5_witness :
  exists this' c,
    compactRange (C := keyed_collaborators) (keyed_versionSet level5_files) 5
      range_begin range_end 2
    = Returned (Some (this', c))
    /\ Compaction.inputs c = ([keyed_file 51 97 98 30], [])
    /\ Compaction.grandparents c = None
    /\ Compaction.isTrivialMove c = None.
Proof.
  eexists _, _. split; [vm_compute; reflexivity|]. split; [reflexivity|].
  eapply (isTrivialMove_throws_at_level5 (C := keyed_collaborators)
            (keyed_versionSet level5_files) range_begin range_end 2).
  - vm_compute. reflexivity.
  - reflexivity.
  - reflexivity.
Defined.

End CompactionOfLevel5Example.

(** ** The memtable *)

Section MemTableClaims.

Import Format MemTable.

Lemma add_immutable this sequence valueType key value this' :
  add this sequence valueType key value = Some this' ->
  _immutable this' = _immutable this.
Proof.
  unfold add. intros Hadd.
  destruct (assert _); [|discriminate]. cbn [mbind option_bind] in Hadd.
  destruct (Skiplist.put _ _ _); [|discriminate].
  cbn [mbind option_bind] in Hadd. now injection Hadd as <-.
Qed.

(** No operation resets the flag. *)
Lemma step_immutable this o :
  _immutable this = true -> _immutable (step this o) = true.
Proof.
  intros Him. destruct o as [| | | |next|sequence valueType key value| |];
    cbn [step]; try assumption.
  - unfold set_immutable. now destruct next.
  - destruct (add this sequence valueType key value) as [this'|] eqn:Hadd;
      [|assumption].
    change (_immutable this' = true).
    now rewrite (add_immutable _ _ _ _ _ _ Hadd).
Qed.

Lemma run_immutable os : forall this,
  _immutable this = true -> _immutable (run this os) = true.
Proof.
  unfold run. induction os as [|o os IH]; intros this Him; [assumption|].
  cbn [fold_left]. apply IH. now apply step_immutable.
Qed.

Lemma run_app this os1 os2 : run this (os1 ++ os2) = run (run this os1) os2.
Proof. unfold run. apply fold_left_app. Qed.

(** C10.  The immutable flag of a memtable starts false, and once a
    sequence of operations has made it true, no further operations, the
    assignment of [false] to [immutable] among them, make it false again. *)
Theorem immutable_flag_monotone (c : Comparator.t) (os1 os2 : list operation) :
  immutable (make c) = false
  /\ (immutable (run (make c) os1) = true ->
      immutable (run (make c) (os1 ++ os2)) = true).
Proof.
  split; [reflexivity|]. unfold immutable. intros Him.
  rewrite run_app. now apply run_immutable.
Qed.

Lemma immutable_flag_monotone_witness :
  immutable (make Comparator.BytewiseComparator) = false
  /\ immutable
       (run (make Comparator.BytewiseComparator)
          ([Add 1 kTypeValue [97] (Some [120]); SetImmutable true]
           ++ [SetImmutable false; Add 2 kTypeDeletion [97] None; Unref]))
     = true.
Proof.
  destruct (immutable_flag_monotone Comparator.BytewiseComparator
              [Add 1 kTypeValue [97] (Some [120]); SetImmutable true]
              [SetImmutable false; Add 2 kTypeDeletion [97] None; Unref])
    as [Hstart Hkeep].
  split; [exact Hstart|]. apply Hkeep. reflexivity.
Defined.

End MemTableClaims.

(** * Further properties of the code *)

(** ** Internal keys: packing and parsing *)

Section InternalKeyRoundTrips.

Import Format.

Lemma size_fill_range f n : forall (b : Buffer.t) i,
  Buffer.size (Buffer.fill_range b f i n) = Buffer.size b.
Proof.
  induction n as [|n IH]; intros b i; [reflexivity|].
  cbn [Buffer.fill_range]. now rewrite IH, size_put.
Qed.

Lemma size_fillBuffer (b src : Buffer.t) s e :
  Buffer.size (Buffer.fillBuffer b src s e) = Buffer.size b.
Proof.
  unfold Buffer.fillBuffer. destruct src; [reflexivity|].
  apply size_fill_range.
Qed.

(** Copying an eight-byte tail into the first seven bytes of a fresh
    eight-byte buffer. *)
Lemma fillBuffer_tail a0 a1 a2 a3 a4 a5 a6 a7 :
  Buffer.fillBuffer (Buffer.alloc 8) [a0; a1; a2; a3; a4; a5; a6; a7] 0 7
  = [a0 mod 256; a1 mod 256; a2 mod 256; a3 mod 256; a4 mod 256;
     a5 mod 256; a6 mod 256; 0].
Proof. reflexivity. Qed.

Lemma tail_sequence_bytes s t :
  Buffer.fillBuffer (Buffer.alloc 8) (make_tail s t) 0 7
  = Coding.encodeLE 7 (s mod 2 ^ 64) ++ [0].
Proof.
  rewrite make_tail_shape. cbn [Coding.encodeLE app].
  rewrite fillBuffer_tail. now rewrite !Z.mod_mod by lia.
Qed.

Lemma low56 s : 0 <= s <= kMaxSequenceNumber -> (s mod 2 ^ 64) mod 2 ^ 56 = s.
Proof.
  change kMaxSequenceNumber with (2 ^ 56 - 1). intros Hs.
  rewrite (Z.mod_small s) by lia. apply Z.mod_small. lia.
Qed.

(** X1.  Parsing is the inverse of packing: an internal key made of a user
    key, a sequence number of at most 2^56-1 and a value type parses back to
    that user key, that sequence number and the number of that type. *)
Theorem parseInternalKey_make u s t :
  0 <= s <= kMaxSequenceNumber ->
  parseInternalKey (InternalKey.make u s t)
  = Some {| userKey := u; sn := s; valueType := ValueType_code t |}.
Proof.
  intros Hs. unfold parseInternalKey. rewrite extractUserKey_make.
  cbn [mbind option_bind]. rewrite make_unfold.
  rewrite slice_from_tail, at_last by reflexivity.
  rewrite tail_sequence_bytes. unfold Coding.decodeFixed64.
  assert (Hlen : length (Coding.encodeLE 7 (s mod 2 ^ 64) ++ [0]) = 8%nat)
    by now rewrite length_app, encodeLE_length.
  unfold Buffer.size at 1. rewrite Hlen. change (Z.of_nat 8 <? 8) with false.
  cbv iota. rewrite <- Hlen at 1. rewrite firstn_all, decodeLE_app_zero.
  rewrite decode_encodeLE. change (256 ^ Z.of_nat 7) with (2 ^ 56).
  rewrite low56 by assumption. cbn [mbind option_bind].
  destruct t; reflexivity.
Qed.

Lemma parseInternalKey_make_witness :
  parseInternalKey (InternalKey.make [107; 101; 121] 42 kTypeDeletion)
  = Some {| userKey := [107; 101; 121]; sn := 42;
            valueType := ValueType_code kTypeDeletion |}.
Proof.
  apply (parseInternalKey_make [107; 101; 121] 42 kTypeDeletion).
  change kMaxSequenceNumber with (2 ^ 56 - 1). lia.
Defined.

(** X2.  [parseInternalKey] fails exactly on the slices of fewer than eight
    bytes: every slice of at least eight bytes parses, whatever its bytes. *)
Theorem parseInternalKey_accepts (k : Slice) :
  parseInternalKey k = None <-> Buffer.size k < 8.
Proof.
  unfold parseInternalKey, extractUserKey. split.
  - destruct (Z.leb_spec 8 (Buffer.size k)) as [Hk|Hk]; [|lia].
    cbn [assert mbind option_bind]. unfold Coding.decodeFixed64.
    rewrite size_fillBuffer. change (Buffer.size (Buffer.alloc 8) <? 8)
      with false. cbv iota. cbn [mbind option_bind].
    destruct (internal_key_split k Hk) as (u & v & -> & Hv).
    rewrite at_last by assumption.
    destruct (v !! 7%nat) as [x|] eqn:Hx; [discriminate|].
    apply lookup_ge_None in Hx. unfold Buffer.size in Hv. lia.
  - intros Hk. destruct (Z.leb_spec 8 (Buffer.size k)); [lia|reflexivity].
Qed.

(** X3.  The accessors of an internal key: [userKey] and [type] give back
    what the key was made of, and [sequence] gives the sequence number
    modulo 2^32, so exactly the sequence numbers below 2^32 are read back
    unchanged. *)
Theorem internalKey_accessors u s t :
  0 <= s <= kMaxSequenceNumber ->
  InternalKey.userKey (InternalKey.make u s t) = Some u
  /\ InternalKey.type (InternalKey.make u s t) = Some (ValueType_code t)
  /\ InternalKey.sequence (InternalKey.make u s t) = Some (s mod 2 ^ 32).
Proof.
  intros Hs. split; [apply extractUserKey_make|]. split.
  - unfold InternalKey.type. rewrite make_unfold, at_last by reflexivity.
    destruct t; reflexivity.
  - unfold InternalKey.sequence. rewrite make_unfold.
    rewrite slice_from_tail by reflexivity. rewrite tail_sequence_bytes.
    unfold Coding.decodeFixed32.
    assert (Hlen : Buffer.size (Coding.encodeLE 7 (s mod 2 ^ 64) ++ [0]) = 8)
      by (unfold Buffer.size; now rewrite length_app, encodeLE_length).
    rewrite Hlen. change (8 <? 4) with false. cbv iota. f_equal.
    rewrite take_app_le by (rewrite encodeLE_length; lia).
    rewrite take_encodeLE by lia. rewrite decode_encodeLE.
    change (256 ^ Z.of_nat 4) with (2 ^ 32).
    apply Z.mod_mod_divide. now exists (2 ^ 32).
Qed.

Lemma internalKey_accessors_witness :
  InternalKey.userKey (InternalKey.make [97] 4294967301 kTypeValue)
  = Some [97]
  /\ InternalKey.type (InternalKey.make [97] 4294967301 kTypeValue)
     = Some (ValueType_code kTypeValue)
  /\ InternalKey.sequence (InternalKey.make [97] 4294967301 kTypeValue)
     = Some (4294967301 mod 2 ^ 32).
Proof.
  apply (internalKey_accessors [97] 4294967301 kTypeValue).
  change kMaxSequenceNumber with (2 ^ 56 - 1). lia.
Defined.

Lemma lookupKey_internalKey_parts u s :
  LookupKey.internalKey (LookupKey.make u s)
  = InternalKey.make u s kValueTypeForSeek
  /\ LookupKey.memKey (LookupKey.make u s)
     = Coding.varint_encode (Buffer.size u + 8)
       ++ InternalKey.make u s kValueTypeForSeek.
Proof.
  rewrite make_unfold. split.
  - unfold LookupKey.internalKey, LookupKey.make.
    cbn [LookupKey._userKeyBuf LookupKey._sequenceBuf]. rewrite concat2.
    reflexivity.
  - unfold LookupKey.memKey, LookupKey.buffer, LookupKey.make.
    cbn [LookupKey._userKeyBuf LookupKey._sequenceBuf
         LookupKey._internalKeySizeBuf].
    rewrite concat3. reflexivity.
Qed.

Lemma accessors_make u s t :
  0 <= s <= kMaxSequenceNumber ->
  InternalKey.userKey (InternalKey.make u s t) = Some u
  /\ InternalKey.type (InternalKey.make u s t) = Some (ValueType_code t).
Proof.
  intros Hs. split; [apply extractUserKey_make|].
  unfold InternalKey.type. rewrite make_unfold, at_last by reflexivity.
  destruct t; reflexivity.
Qed.

(** X4.  The internal key of a lookup key is the internal key that the
    constructor of [InternalKey] makes of the same user key and sequence
    number with the type [kValueTypeForSeek]; the memtable key is that
    internal key behind the varint of its length. *)
Theorem lookupKey_internalKey u s :
  LookupKey.internalKey (LookupKey.make u s)
  = InternalKey.make u s kValueTypeForSeek
  /\ LookupKey.memKey (LookupKey.make u s)
     = Coding.varint_encode (Buffer.size u + 8)
       ++ InternalKey.make u s kValueTypeForSeek
  /\ LookupKey.userKey (LookupKey.make u s) = u.
Proof.
  assert (Hik : LookupKey.internalKey (LookupKey.make u s)
                = InternalKey.make u s kValueTypeForSeek).
  { rewrite make_unfold. unfold LookupKey.internalKey, LookupKey.make.
    cbn [LookupKey._userKeyBuf LookupKey._sequenceBuf]. rewrite concat2.
    reflexivity. }
  split; [exact Hik|]. split; [|reflexivity].
  rewrite make_unfold. unfold LookupKey.memKey, LookupKey.buffer, LookupKey.make.
  cbn [LookupKey._userKeyBuf LookupKey._sequenceBuf
       LookupKey._internalKeySizeBuf].
  rewrite concat3. reflexivity.
Qed.

(** X9.  [findShortSuccessor] throws on a key of fewer than eight bytes
    and on no other key: its assertion always holds.  The key it leaves is
    an internal key that is not longer than the given one and does not
    compare less than it; when the key was changed, it is shorter and
    compares greater.  The user comparator is any comparator that satisfies
    the comparator laws. *)
Theorem findShortSuccessor_above (uc : Comparator.t)
    (HL : Comparator.Laws uc) (key : Slice) :
  (Buffer.size key < 8 ->
   InternalKeyComparator.findShortSuccessor uc key = None)
  /\ (8 <= Buffer.size key ->
      exists key' r,
        InternalKeyComparator.findShortSuccessor uc key = Some key'
        /\ InternalKeyComparator.compare uc key key' = Some r
        /\ r <= 0
        /\ 8 <= Buffer.size key' <= Buffer.size key
        /\ (key' = key \/ (Buffer.size key' < Buffer.size key /\ r < 0))).
Proof.
  unfold InternalKeyComparator.findShortSuccessor. split.
  - intros Hk. unfold extractUserKey.
    destruct (Z.leb_spec 8 (Buffer.size key)); [lia|reflexivity].
  - intros Hk.
    destruct (internal_key_parts key Hk) as (u & sq & Hu & Hseq).
    rewrite Hu. cbn [mbind option_bind].
    set (tmp := Comparator.findShortSuccessor uc u).
    assert (Hsize : Buffer.size key = Buffer.size u + 8).
    { destruct (internal_key_split key Hk) as (u0 & v & -> & Hv).
      rewrite extractUserKey_app in Hu by assumption.
      injection Hu as ->. rewrite size_app. lia. }
    destruct ((Buffer.size tmp <? Buffer.size u)
              && (Comparator.compare uc u tmp <? 0)) eqn:Hcond.
    + apply andb_prop in Hcond as [Hshort Hup].
      apply Z.ltb_lt in Hshort, Hup.
      rewrite seek_tail_value. cbn [mbind option_bind]. rewrite concat2.
      set (tl := [1; 255; 255; 255; 255; 255; 255; 255]).
      assert (Hnew : extractUserKey (tmp ++ tl) = Some tmp)
        by now apply extractUserKey_app.
      rewrite (compare_user_keys uc key (tmp ++ tl) u tmp) by (auto; lia).
      cbn [mbind option_bind].
      destruct (Z.ltb_spec (Comparator.compare uc u tmp) 0); [|lia].
      cbn [mbind option_bind assert].
      exists (tmp ++ tl), (Comparator.compare uc u tmp).
      assert (Hlen : Buffer.size (tmp ++ tl) = Buffer.size tmp + 8)
        by now rewrite size_app.
      pose proof (size_nonneg tmp).
      split; [reflexivity|].
      split; [apply compare_user_keys; (auto; lia)|].
      split; [lia|]. split; [lia|]. right. lia.
    + exists key, 0. split; [reflexivity|].
      rewrite (compare_parts uc key key u u sq sq) by assumption.
      cbv zeta. rewrite Comparator.compare_refl. cbn [Z.eqb negb].
      rewrite Z.eqb_refl.
      split; [reflexivity|]. split; [lia|]. split; [lia|]. now left.
Qed.

Lemma findShortSuccessor_above_witness :
  exists key' r,
    InternalKeyComparator.findShortSuccessor Comparator.BytewiseComparator
      (InternalKey.make [97; 98; 99] 5 kTypeValue) = Some key'
    /\ InternalKeyComparator.compare Comparator.BytewiseComparator
         (InternalKey.make [97; 98; 99] 5 kTypeValue) key' = Some r
    /\ r <= 0
    /\ 8 <= Buffer.size key'
       <= Buffer.size (InternalKey.make [97; 98; 99] 5 kTypeValue)
    /\ (key' = InternalKey.make [97; 98; 99] 5 kTypeValue
        \/ (Buffer.size key'
            < Buffer.size (InternalKey.make [97; 98; 99] 5 kTypeValue)
            /\ r < 0)).
Proof.
  apply (findShortSuccessor_above Comparator.BytewiseComparator bytewise_laws
           (InternalKey.make [97; 98; 99] 5 kTypeValue)).
  vm_compute. discriminate.
Defined.

End InternalKeyRoundTrips.

(** ** The memtable: entries, insertion and lookup *)

Section MemTableRoundTrips.

Import Format MemTable MemTableEntry.

Lemma varint_fuel_roundtrip fuel : forall v rest,
  0 <= v < 128 ^ Z.of_nat (S fuel) ->
  Coding.varint_decode (Coding.varint_encode_fuel fuel v ++ rest)
  = Some (v, Buffer.size (Coding.varint_encode_fuel fuel v)).
Proof.
  induction fuel as [|fuel IH]; intros v rest Hv.
  - change (128 ^ Z.of_nat 1) with 128 in Hv.
    cbn [Coding.varint_encode_fuel app Coding.varint_decode].
    rewrite Z.mod_small by lia.
    destruct (Z.ltb_spec v 128); [reflexivity|lia].
  - cbn [Coding.varint_encode_fuel].
    destruct (Z.ltb_spec v 128) as [Hsmall|Hbig].
    + cbn [app Coding.varint_decode].
      destruct (Z.ltb_spec v 128); [reflexivity|lia].
    + cbn [app Coding.varint_decode].
      assert (Hm : 0 <= v mod 128 < 128) by (apply Z.mod_pos_bound; lia).
      destruct (Z.ltb_spec (v mod 128 + 128) 128); [lia|].
      rewrite IH.
      * cbn [mbind option_bind fst snd]. f_equal. f_equal.
        -- pose proof (Z.div_mod v 128). lia.
        -- unfold Buffer.size. cbn [length]. lia.
      * rewrite (Nat2Z.inj_succ (S fuel)), Z.pow_succ_r in Hv by lia.
        split; [apply Z.div_pos; lia|].
        apply Z.div_lt_upper_bound; lia.
Qed.

(** The varint round trip for the sizes of JavaScript buffers. *)
Lemma varint_roundtrip v rest :
  0 <= v < 2 ^ 53 ->
  Coding.varint_decode (Coding.varint_encode v ++ rest)
  = Some (v, Buffer.size (Coding.varint_encode v)).
Proof.
  intros Hv. apply varint_fuel_roundtrip.
  change (128 ^ Z.of_nat 10) with (2 ^ 70). lia.
Qed.

Lemma slice_middle (a b c : Buffer.t) :
  Buffer.slice (a ++ b ++ c) (Buffer.size a) (Buffer.size a + Buffer.size b)
  = b.
Proof.
  unfold Buffer.slice, Buffer.rel_index. rewrite !size_app.
  pose proof (size_nonneg a). pose proof (size_nonneg b).
  pose proof (size_nonneg c).
  destruct (Z.ltb_spec (Buffer.size a) 0); [lia|].
  destruct (Z.ltb_spec (Buffer.size a + Buffer.size b) 0); [lia|].
  rewrite !Z.min_l by lia.
  replace (Buffer.size a + Buffer.size b - Buffer.size a)
    with (Buffer.size b) by lia.
  unfold Buffer.size. rewrite !Nat2Z.id.
  now rewrite drop_app_length, take_app_length.
Qed.

Lemma slice_from_app (a b : Buffer.t) :
  Buffer.slice_from (a ++ b) (Buffer.size a) = b.
Proof.
  replace (Buffer.size a)
    with (Buffer.size (a ++ b) - Buffer.size b) by (rewrite size_app; lia).
  apply slice_from_back.
Qed.

Lemma entry_buffer_parts sequence valueType key value :
  entry_buffer sequence valueType key value
  = Coding.varint_encode (Buffer.size key + 8)
    ++ InternalKey.make key sequence valueType
    ++ Coding.varint_encode (Buffer.size (value_bytes value))
    ++ value_bytes value.
Proof.
  unfold entry_buffer, Buffer.concat. rewrite make_unfold. unfold make_tail.
  destruct value; cbn [List.concat value_bytes Buffer.alloc];
    now rewrite ?app_nil_r, <- ?app_assoc.
Qed.

Lemma size_make key sequence valueType :
  Buffer.size (InternalKey.make key sequence valueType) = Buffer.size key + 8.
Proof. now rewrite make_unfold, size_app, make_tail_size. Qed.

(** The length assertion of [add] holds, so that [add] is the insertion of
    the entry into the list. *)
Lemma add_unfold this sequence valueType key value :
  add this sequence valueType key value
  = (list ← Skiplist.put (keyComparator this) (_list this)
              (entry_buffer sequence valueType key value);
     Some {| _immutable := _immutable this;
             _list := list;
             _size :=
               _size this
               + Buffer.size (entry_buffer sequence valueType key value);
             refs := refs this;
             internalKeyComparator := internalKeyComparator this |}).
Proof.
  unfold add. cbv zeta. fold (entry_buffer sequence valueType key value).
  set (buf := entry_buffer sequence valueType key value).
  assert (Hlen :
    Buffer.size key + 8
    + match value with None => 0 | Some v => Buffer.size v end
    + Buffer.size
        (Coding.varint_encode
           match value with None => 0 | Some v => Buffer.size v end)
    + Buffer.size (Coding.varint_encode (Buffer.size key + 8))
    = Buffer.size buf).
  { unfold buf. rewrite entry_buffer_parts, !size_app, size_make.
    destruct value; cbn [value_bytes]; [lia|]. change (Buffer.size []) with 0.
    lia. }
  rewrite Hlen, Z.eqb_refl. reflexivity.
Qed.

Lemma getLengthPrefixedSlice_prefixed (ikey rest : Slice) :
  Buffer.size ikey < 2 ^ 53 ->
  getLengthPrefixedSlice (Coding.varint_encode (Buffer.size ikey) ++ ikey ++ rest)
  = Some ikey.
Proof.
  intros Hk. unfold getLengthPrefixedSlice.
  rewrite varint_roundtrip by (pose proof (size_nonneg ikey); lia).
  cbn [mbind option_bind]. now rewrite slice_middle.
Qed.

Lemma getLengthPrefixedSlice_entry sequence valueType key value :
  Buffer.size key + 8 < 2 ^ 53 ->
  getLengthPrefixedSlice (entry_buffer sequence valueType key value)
  = Some (InternalKey.make key sequence valueType).
Proof.
  intros Hk. rewrite entry_buffer_parts.
  rewrite <- (size_make key sequence valueType) in *.
  now apply getLengthPrefixedSlice_prefixed.
Qed.

(** Decoding the entry that [add] builds. *)
Lemma getEntryFromMemTableKey_entry sequence valueType key value :
  Buffer.size key + 8 < 2 ^ 53 ->
  Buffer.size (value_bytes value) < 2 ^ 53 ->
  getEntryFromMemTableKey (entry_buffer sequence valueType key value)
  = Some {| entry_key := InternalKey.make key sequence valueType;
            entry_value := value_bytes value;
            entry_type := None |}.
Proof.
  intros Hk Hv. unfold getEntryFromMemTableKey. rewrite entry_buffer_parts.
  set (ik := InternalKey.make key sequence valueType).
  set (n1 := Coding.varint_encode (Buffer.size key + 8)).
  set (n2 := Coding.varint_encode (Buffer.size (value_bytes value))).
  pose proof (size_nonneg key). pose proof (size_nonneg (value_bytes value)).
  assert (Hik : Buffer.size ik = Buffer.size key + 8) by apply size_make.
  assert (H1 : forall rest,
             Coding.varint_decode (n1 ++ rest)
             = Some (Buffer.size ik, Buffer.size n1))
    by (intros rest; rewrite Hik; apply varint_roundtrip; lia).
  assert (H2 : forall rest,
             Coding.varint_decode (n2 ++ rest)
             = Some (Buffer.size (value_bytes value), Buffer.size n2))
    by (intros rest; apply varint_roundtrip; lia).
  rewrite H1. cbn [mbind option_bind]. cbv zeta.
  rewrite slice_middle.
  replace (Buffer.size n1 + Buffer.size ik)
    with (Buffer.size (n1 ++ ik)) by now rewrite size_app.
  rewrite (app_assoc n1 ik). rewrite slice_from_app.
  rewrite H2. cbn [mbind option_bind].
  replace (Buffer.size (n1 ++ ik) + Buffer.size n2)
    with (Buffer.size ((n1 ++ ik) ++ n2)) by now rewrite size_app.
  rewrite (app_assoc (n1 ++ ik) n2).
  rewrite <- (app_nil_r (value_bytes value)) at 1.
  rewrite slice_middle. reflexivity.
Qed.

(** *** The ordered list *)

Lemma put_spec (cmp : Slice -> Slice -> option Z) x : forall l l',
  Skiplist.put cmp l x = Some l' ->
  exists l1 l2,
    l = l1 ++ l2 /\ l' = l1 ++ x :: l2
    /\ Forall (fun y => exists c, cmp y x = Some c /\ c < 0) l1
    /\ match l2 with
       | [] => True
       | y :: _ => exists c, cmp y x = Some c /\ 0 <= c
       end.
Proof.
  induction l as [|y l IH]; intros l' Hput.
  - injection Hput as <-. now exists [], [].
  - cbn [Skiplist.put] in Hput.
    destruct (cmp y x) as [c|] eqn:Hc; [|discriminate].
    cbn [mbind option_bind] in Hput.
    destruct (Z.ltb_spec c 0) as [Hneg|Hpos].
    + destruct (Skiplist.put cmp l x) as [l0|] eqn:Hrec; [|discriminate].
      injection Hput as <-.
      destruct (IH l0 eq_refl) as (l1 & l2 & -> & -> & Hall & Hhead).
      exists (y :: l1), l2. repeat split; [|exact Hhead].
      constructor; eauto.
    + injection Hput as <-. exists [], (y :: l). repeat split; eauto.
Qed.

Lemma put_total (cmp : Slice -> Slice -> option Z) x : forall l,
  Forall (fun y => is_Some (cmp y x)) l -> is_Some (Skiplist.put cmp l x).
Proof.
  induction l as [|y l IH]; intros Hall; [now eexists|].
  apply Forall_cons in Hall as [[c Hc] Hall]. cbn [Skiplist.put].
  rewrite Hc. cbn [mbind option_bind].
  destruct (c <? 0); [|now eexists].
  destruct (IH Hall) as [l0 ->]. now eexists.
Qed.

Lemma seek_spec (cmp : Slice -> Slice -> option Z) x l2 key : forall l1,
  Forall (fun y => exists c, cmp y key = Some c /\ c < 0) l1 ->
  (exists c, cmp x key = Some c /\ 0 <= c) ->
  Skiplist.seek cmp (l1 ++ x :: l2) key = Some (Some x).
Proof.
  intros l1 Hall (c & Hc & Hpos). induction Hall as [|y l1 (d & Hd & Hneg) _ IH].
  - cbn [app Skiplist.seek]. rewrite Hc. cbn [mbind option_bind].
    destruct (Z.ltb_spec c 0); [lia|reflexivity].
  - cbn [app Skiplist.seek]. rewrite Hd. cbn [mbind option_bind].
    destruct (Z.ltb_spec d 0); [exact IH|lia].
Qed.

(** *** The comparator of the memtable on its entries *)

Lemma order_make uc k1 s1 t1 k2 s2 t2 :
  0 <= s1 <= kMaxSequenceNumber ->
  0 <= s2 <= kMaxSequenceNumber ->
  InternalKeyComparator.compare uc
    (InternalKey.make k1 s1 t1) (InternalKey.make k2 s2 t2)
  = Some (order uc k1 s1 k2 s2).
Proof. intros H1 H2. now rewrite compare_make. Qed.

Lemma keyComparator_entries this s1 t1 k1 v1 s2 t2 k2 v2 :
  0 <= s1 <= kMaxSequenceNumber -> 0 <= s2 <= kMaxSequenceNumber ->
  Buffer.size k1 + 8 < 2 ^ 53 -> Buffer.size k2 + 8 < 2 ^ 53 ->
  keyComparator this (entry_buffer s1 t1 k1 v1) (entry_buffer s2 t2 k2 v2)
  = Some (order (internalKeyComparator this) k1 s1 k2 s2).
Proof.
  intros H1 H2 Hk1 Hk2. unfold keyComparator.
  rewrite !getLengthPrefixedSlice_entry by assumption.
  cbn [mbind option_bind]. now apply order_make.
Qed.

Lemma getLengthPrefixedSlice_memKey k s :
  Buffer.size k + 8 < 2 ^ 53 ->
  getLengthPrefixedSlice (LookupKey.memKey (LookupKey.make k s))
  = Some (InternalKey.make k s kValueTypeForSeek).
Proof.
  intros Hk. destruct (lookupKey_internalKey_parts k s) as [_ ->].
  rewrite <- (size_make k s kValueTypeForSeek) in *.
  rewrite <- (app_nil_r (InternalKey.make k s kValueTypeForSeek)) at 2.
  now apply getLengthPrefixedSlice_prefixed.
Qed.

Lemma keyComparator_lookup this s1 t1 k1 v1 k s :
  0 <= s1 <= kMaxSequenceNumber -> 0 <= s <= kMaxSequenceNumber ->
  Buffer.size k1 + 8 < 2 ^ 53 -> Buffer.size k + 8 < 2 ^ 53 ->
  keyComparator this (entry_buffer s1 t1 k1 v1)
    (LookupKey.memKey (LookupKey.make k s))
  = Some (order (internalKeyComparator this) k1 s1 k s).
Proof.
  intros H1 H2 Hk1 Hk. unfold keyComparator.
  rewrite getLengthPrefixedSlice_entry, getLengthPrefixedSlice_memKey
    by assumption.
  cbn [mbind option_bind]. now apply order_make.
Qed.

(** What [get] does with the node that [seek] gives it. *)
Lemma get_found this key sequence valueType k value :
  Skiplist.seek (keyComparator this) (_list this) (LookupKey.memKey key)
  = Some (Some (entry_buffer sequence valueType k value)) ->
  0 <= sequence <= kMaxSequenceNumber ->
  Buffer.size k + 8 < 2 ^ 53 ->
  Buffer.size (value_bytes value) < 2 ^ 53 ->
  get this key
  = Some (if Comparator.compare (internalKeyComparator this) k
               (LookupKey.userKey key) =? 0
          then Some {| entry_key := InternalKey.make k sequence valueType;
                       entry_value := value_bytes value;
                       entry_type := Some (ValueType_code valueType) |}
          else None).
Proof.
  intros Hseek Hs Hk Hv. unfold get. cbv zeta. rewrite Hseek.
  cbn [mbind option_bind].
  rewrite getEntryFromMemTableKey_entry by assumption.
  cbn [mbind option_bind entry_key entry_value].
  pose proof (size_nonneg k).
  rewrite size_make. destruct (Z.ltb_spec 0 (Buffer.size k + 8)); [|lia].
  cbn [assert mbind option_bind].
  destruct (accessors_make k sequence valueType Hs) as [-> ->].
  cbn [mbind option_bind]. now destruct (_ =? 0).
Qed.

Lemma seek_insert (cmp : Slice -> Slice -> option Z) x l2 key c :
  cmp x key = Some c ->
  forall l1,
    Skiplist.seek cmp (l1 ++ x :: l2) key = Skiplist.seek cmp (l1 ++ l2) key
    \/ (0 <= c
        /\ Skiplist.seek cmp (l1 ++ x :: l2) key = Some (Some x)
        /\ Skiplist.seek cmp (l1 ++ l2) key = Skiplist.seek cmp l2 key).
Proof.
  intros Hc. induction l1 as [|y l1 IH].
  - cbn [app]. cbn [Skiplist.seek]. rewrite Hc. cbn [mbind option_bind].
    destruct (Z.ltb_spec c 0); [now left|right; auto].
  - cbn [app Skiplist.seek]. destruct (cmp y key) as [d|]; [|now left].
    cbn [mbind option_bind]. destruct (d <? 0); [exact IH|now left].
Qed.

(** *** The order of the entries *)

Lemma order_newer uc ky sy k sequence snapshot :
  sy < sequence ->
  order uc ky sy k sequence < 0 ->
  order uc ky sy k snapshot < 0.
Proof.
  unfold order. intros Hsy. destruct (Comparator.compare uc ky k =? 0);
    cbn [negb]; [|trivial].
  destruct (Z.eqb_spec sy sequence); [lia|].
  destruct (Z.ltb_spec sequence sy); lia.
Qed.

Lemma order_self uc k sequence snapshot :
  Comparator.compare uc k k = 0 ->
  sequence <= snapshot ->
  0 <= order uc k sequence k snapshot.
Proof.
  unfold order. intros -> Hle. cbn [Z.eqb negb].
  destruct (Z.eqb_spec sequence snapshot); [lia|].
  destruct (Z.ltb_spec snapshot sequence); lia.
Qed.

Lemma order_older uc k sequence k2 snapshot :
  snapshot < sequence ->
  0 <= order uc k sequence k2 snapshot ->
  0 < Comparator.compare uc k k2.
Proof.
  unfold order. intros Hlt.
  destruct (Z.eqb_spec (Comparator.compare uc k k2) 0) as [->|Hne];
    cbn [negb]; [|lia].
  destruct (Z.eqb_spec sequence snapshot); [lia|].
  destruct (Z.ltb_spec snapshot sequence); lia.
Qed.

Lemma order_above uc k1 s1 k2 s2 :
  0 < Comparator.compare uc k1 k2 ->
  order uc k1 s1 k2 s2 = Comparator.compare uc k1 k2.
Proof.
  unfold order. intros Hpos.
  destruct (Z.eqb_spec (Comparator.compare uc k1 k2) 0); [lia|reflexivity].
Qed.

Lemma order_user_key uc k1 s1 k2 s2 :
  0 <= order uc k1 s1 k2 s2 -> 0 <= Comparator.compare uc k1 k2.
Proof.
  unfold order.
  destruct (Z.eqb_spec (Comparator.compare uc k1 k2) 0); cbn [negb]; lia.
Qed.

(** Every entry of a written memtable can be compared with a new entry and
    with a lookup key. *)
Lemma written_comparable this bound :
  bound <= kMaxSequenceNumber + 1 ->
  forall l, Forall (written_below bound) l ->
  (forall s t k v,
     0 <= s <= kMaxSequenceNumber -> Buffer.size k + 8 < 2 ^ 53 ->
     Forall (fun y => is_Some (keyComparator this y (entry_buffer s t k v))) l).
Proof.
  intros Hb l Hall s t k v Hs Hk. eapply Forall_impl; [exact Hall|].
  intros y (sy & ty & ky & vy & -> & Hsy & Hky & _).
  rewrite keyComparator_entries by (assumption || lia). now eexists.
Qed.

Lemma add_keeps_written this sequence valueType key value this' :
  add this sequence valueType key value = Some this' ->
  Forall (written_below sequence) (_list this) ->
  0 <= sequence ->
  Buffer.size key + 8 < 2 ^ 53 ->
  Buffer.size (value_bytes value) < 2 ^ 53 ->
  Forall (written_below (sequence + 1)) (_list this').
Proof.
  intros Hadd Hall Hs Hk Hv. rewrite add_unfold in Hadd.
  destruct (Skiplist.put _ _ _) as [l'|] eqn:Hput; [|discriminate].
  injection Hadd as <-. cbn [_list].
  destruct (put_spec _ _ _ _ Hput) as (l1 & l2 & Hl & -> & _).
  rewrite Hl in Hall. apply Forall_app in Hall as [H1 H2].
  assert (Hweak : forall l, Forall (written_below sequence) l ->
                            Forall (written_below (sequence + 1)) l).
  { intros l Hl0. eapply Forall_impl; [exact Hl0|].
    intros y (sy & ty & ky & vy & -> & Hsy & Hky & Hvy).
    exists sy, ty, ky, vy. repeat split; (assumption || lia). }
  apply Forall_app. split; [now apply Hweak|].
  constructor; [|now apply Hweak].
  exists sequence, valueType, key, value.
  repeat split; (assumption || lia).
Qed.

Lemma add_succeeds this sequence valueType key value :
  Forall (written_below sequence) (_list this) ->
  0 <= sequence <= kMaxSequenceNumber ->
  Buffer.size key + 8 < 2 ^ 53 ->
  is_Some (add this sequence valueType key value).
Proof.
  intros Hall Hs Hk. rewrite add_unfold.
  destruct (put_total (keyComparator this)
              (entry_buffer sequence valueType key value) (_list this))
    as [l' ->]; [|now eexists].
  apply (written_comparable this sequence); (assumption || lia).
Qed.

(** The byte-lexicographic order is transitive in the form the memtable
    needs. *)
Lemma bytewise_compare_trans : forall a b c,
  0 <= Comparator.bytewise_compare a b ->
  0 < Comparator.bytewise_compare b c ->
  0 < Comparator.bytewise_compare a c.
Proof.
  induction a as [|x a IH]; intros [|y b] [|z c]; cbn [Comparator.bytewise_compare];
    try lia.
  destruct (Z.ltb_spec x y); [lia|]. destruct (Z.ltb_spec y x).
  - intros _. destruct (Z.ltb_spec y z); [lia|].
    destruct (Z.ltb_spec z y).
    + intros _. destruct (Z.ltb_spec x z); [lia|].
      destruct (Z.ltb_spec z x); lia.
    + intros _. destruct (Z.ltb_spec x z); [lia|].
      destruct (Z.ltb_spec z x); lia.
  - destruct (Z.ltb_spec y z); [lia|]. destruct (Z.ltb_spec z y).
    + intros _ _. destruct (Z.ltb_spec x z); [lia|].
      destruct (Z.ltb_spec z x); lia.
    + destruct (Z.ltb_spec x z); [lia|].
      destruct (Z.ltb_spec z x); [lia|]. apply IH.
Qed.

Lemma one_entry_written :
  Forall (written_below 2) (_list MemTableSamples.one_entry).
Proof.
  constructor; [|constructor].
  exists 1, kTypeValue, [97], (Some [120]).
  repeat split; (reflexivity || lia).
Qed.

(** X5.  [add] never fails its length assertion: it throws exactly when
    the insertion of the entry into the list throws.  When it returns, the
    memory usage has grown by the encoded length of the entry (two varints,
    the user key, eight bytes, the value), the entry has been put between
    the entries that were there, in their order, and the immutable flag and
    the reference count are as before. *)
Theorem add_accounting this sequence valueType key value :
  (add this sequence valueType key value = None
   <-> Skiplist.put (keyComparator this) (_list this)
         (entry_buffer sequence valueType key value) = None)
  /\ forall this',
       add this sequence valueType key value = Some this' ->
       size this'
       = size this
         + (Buffer.size (Coding.varint_encode (Buffer.size key + 8))
            + (Buffer.size key + 8)
            + Buffer.size
                (Coding.varint_encode (Buffer.size (value_bytes value)))
            + Buffer.size (value_bytes value))
       /\ (exists l1 l2,
             _list this = l1 ++ l2
             /\ _list this'
                = l1 ++ entry_buffer sequence valueType key value :: l2)
       /\ immutable this' = immutable this
       /\ refs this' = refs this.
Proof.
  rewrite add_unfold.
  destruct (Skiplist.put _ _ _) as [l'|] eqn:Hput; cbn [mbind option_bind].
  - split; [split; discriminate|].
    intros this' [= <-]. unfold size, immutable.
    cbn [_size _list _immutable refs]. repeat split.
    + rewrite entry_buffer_parts, !size_app, size_make. lia.
    + destruct (put_spec _ _ _ _ Hput) as (l1 & l2 & Hl & Hl' & _). eauto.
  - split; [split; reflexivity|]. intros this' Hadd. discriminate Hadd.
Qed.

Lemma add_accounting_witness :
  size (run (make Comparator.BytewiseComparator)
          [Add 1 kTypeValue [97] (Some [120])])
  = 0 + (1 + (1 + 8) + 1 + 1).
Proof.
  destruct (add_accounting (make Comparator.BytewiseComparator) 1 kTypeValue
              [97] (Some [120])) as [_ Hreturns].
  apply Hreturns. reflexivity.
Defined.

(** X6.  Read your write.  In a memtable whose entries were added with
    sequence numbers below [sequence], under a user comparator for which the
    key equals itself, [add] of a key returns, and [get] of that key at any
    snapshot from [sequence] on returns the entry just added: its internal
    key, its value and its type.  The entries of the new memtable are again
    entries written below [sequence + 1]. *)
Theorem get_after_add this sequence valueType key value snapshot :
  Forall (written_below sequence) (_list this) ->
  Comparator.compare (internalKeyComparator this) key key = 0 ->
  0 <= sequence <= snapshot ->
  snapshot <= kMaxSequenceNumber ->
  Buffer.size key + 8 < 2 ^ 53 ->
  Buffer.size (value_bytes value) < 2 ^ 53 ->
  exists this',
    add this sequence valueType key value = Some this'
    /\ get this' (LookupKey.make key snapshot)
       = Some (Some {| entry_key := InternalKey.make key sequence valueType;
                       entry_value := value_bytes value;
                       entry_type := Some (ValueType_code valueType) |})
    /\ Forall (written_below (sequence + 1)) (_list this').
Proof.
  intros Hall Hrefl Hs Hsnap Hk Hv.
  destruct (add_succeeds this sequence valueType key value)
    as [this' Hadd]; [assumption|lia|assumption|].
  exists this'. split; [exact Hadd|]. split;
    [|eapply add_keeps_written; (eassumption || lia)].
  pose proof Hadd as Hadd0. rewrite add_unfold in Hadd0.
  destruct (Skiplist.put _ _ _) as [l'|] eqn:Hput; [|discriminate].
  injection Hadd0 as <-.
  destruct (put_spec _ _ _ _ Hput) as (l1 & l2 & Hl & -> & Hless & _).
  rewrite Hl in Hall. apply Forall_app in Hall as [Hw1 _].
  set (this' := {| _immutable := _immutable this;
                   _list := l1 ++ entry_buffer sequence valueType key value :: l2;
                   _size := _ ; refs := refs this;
                   internalKeyComparator := internalKeyComparator this |}) in *.
  erewrite (get_found this' (LookupKey.make key snapshot) sequence valueType
              key value); [|  |lia|assumption|assumption].
  - change (LookupKey.userKey (LookupKey.make key snapshot)) with key.
    change (internalKeyComparator this') with (internalKeyComparator this).
    now rewrite Hrefl.
  - change (_list this')
      with (l1 ++ entry_buffer sequence valueType key value :: l2).
    apply seek_spec.
    + apply Forall_forall. intros y Hy.
      pose proof (proj1 (Forall_forall _ _) Hw1 y Hy)
        as (sy & ty & ky & vy & -> & Hsy & Hky & Hvy).
      pose proof (proj1 (Forall_forall _ _) Hless _ Hy) as (c & Hc & Hneg).
      change (keyComparator this') with (keyComparator this) in *.
      rewrite keyComparator_entries in Hc by (assumption || lia).
      injection Hc as <-.
      rewrite keyComparator_lookup by (assumption || lia).
      eexists. split; [reflexivity|].
      now apply (order_newer _ _ _ _ sequence).
    + change (keyComparator this') with (keyComparator this).
      rewrite keyComparator_lookup by (assumption || lia).
      eexists. split; [reflexivity|]. apply order_self; [assumption|lia].
Qed.

Lemma get_after_add_witness :
  exists this',
    add MemTableSamples.one_entry 2 kTypeDeletion [97] None = Some this'
    /\ get this' (LookupKey.make [97] 5)
       = Some (Some {| entry_key := InternalKey.make [97] 2 kTypeDeletion;
                       entry_value := value_bytes None;
                       entry_type := Some (ValueType_code kTypeDeletion) |})
    /\ Forall (written_below (2 + 1)) (_list this').
Proof.
  apply (get_after_add MemTableSamples.one_entry 2 kTypeDeletion [97] None 5).
  - exact one_entry_written.
  - reflexivity.
  - lia.
  - change kMaxSequenceNumber with (2 ^ 56 - 1). lia.
  - change (Buffer.size [97]) with 1. lia.
  - change (Buffer.size (value_bytes None)) with 0. lia.
Defined.

(** [get] is a function of the node that [seek] finds. *)
Lemma get_of_seek this this' key :
  internalKeyComparator this' = internalKeyComparator this ->
  Skiplist.seek (keyComparator this) (_list this') (LookupKey.memKey key)
  = Skiplist.seek (keyComparator this) (_list this) (LookupKey.memKey key) ->
  get this' key = get this key.
Proof.
  intros Hc Hseek. unfold get. cbv zeta.
  replace (keyComparator this') with (keyComparator this)
    by (unfold keyComparator; now rewrite Hc).
  now rewrite Hseek, Hc.
Qed.

(** X7.  A write is not seen by older snapshots.  In a memtable whose
    entries were added with sequence numbers below [sequence], under a user
    comparator that is transitive, [add] with [sequence] changes no answer
    of [get] at a snapshot below [sequence], whatever the key looked up. *)
Theorem get_older_snapshot this sequence valueType key value lookup snapshot :
  Forall (written_below sequence) (_list this) ->
  (forall a b c,
     0 <= Comparator.compare (internalKeyComparator this) a b ->
     0 < Comparator.compare (internalKeyComparator this) b c ->
     0 < Comparator.compare (internalKeyComparator this) a c) ->
  0 <= snapshot < sequence ->
  sequence <= kMaxSequenceNumber ->
  Buffer.size key + 8 < 2 ^ 53 ->
  Buffer.size (value_bytes value) < 2 ^ 53 ->
  Buffer.size lookup + 8 < 2 ^ 53 ->
  exists this',
    add this sequence valueType key value = Some this'
    /\ get this' (LookupKey.make lookup snapshot)
       = get this (LookupKey.make lookup snapshot).
Proof.
  intros Hall Htrans Hsnap Hs Hk Hv Hl.
  destruct (add_succeeds this sequence valueType key value)
    as [this' Hadd]; [assumption|lia|assumption|].
  exists this'. split; [exact Hadd|].
  rewrite add_unfold in Hadd.
  destruct (Skiplist.put _ _ _) as [l'|] eqn:Hput; [|discriminate].
  injection Hadd as <-.
  destruct (put_spec _ _ _ _ Hput) as (l1 & l2 & Hlist & -> & _ & Hhead).
  set (this' := {| _immutable := _immutable this;
                   _list := l1 ++ entry_buffer sequence valueType key value :: l2;
                   _size := _ ; refs := refs this;
                   internalKeyComparator := internalKeyComparator this |}).
  set (key' := LookupKey.make lookup snapshot).
  assert (Hcmp : keyComparator this
                   (entry_buffer sequence valueType key value)
                   (LookupKey.memKey key')
                 = Some (order (internalKeyComparator this) key sequence
                           lookup snapshot))
    by (apply keyComparator_lookup; (assumption || lia)).
  destruct (seek_insert (keyComparator this) _ l2 _ _ Hcmp l1)
    as [Hsame|(Hpos & Hnew & Hold)].
  - apply get_of_seek; [reflexivity|]. cbn [_list this']. now rewrite Hlist.
  - apply order_older in Hpos; [|lia].
    assert (Hget' : get this' key' = Some None).
    { rewrite (get_found this' key' sequence valueType key value);
        [|exact Hnew|lia|assumption|assumption].
      change (LookupKey.userKey key') with lookup.
      change (internalKeyComparator this') with (internalKeyComparator this).
      destruct (Z.eqb_spec
                  (Comparator.compare (internalKeyComparator this) key lookup)
                  0); [lia|reflexivity]. }
    rewrite Hget'. symmetry. clear Hget'. subst key'.
    rewrite Hlist in Hall. apply Forall_app in Hall as [_ Hw2].
    destruct l2 as [|y l2].
    { unfold get. cbv zeta. rewrite Hlist, Hold. reflexivity. }
    apply Forall_cons in Hw2 as [(sy & ty & ky & vy & -> & Hsy & Hky & Hvy) _].
    destruct Hhead as (c & Hc & Hc0).
    rewrite keyComparator_entries in Hc by (assumption || lia).
    injection Hc as <-. apply order_user_key in Hc0.
    pose proof (Htrans _ _ _ Hc0 Hpos) as Habove.
    rewrite (get_found this (LookupKey.make lookup snapshot) sy ty ky vy);
      [| |lia|assumption|assumption].
    + change (LookupKey.userKey (LookupKey.make lookup snapshot)) with lookup.
      destruct (Z.eqb_spec
                  (Comparator.compare (internalKeyComparator this) ky lookup)
                  0); [lia|reflexivity].
    + rewrite Hlist, Hold. cbn [Skiplist.seek].
      rewrite keyComparator_lookup by (assumption || lia).
      rewrite order_above by assumption. cbn [mbind option_bind].
      destruct (Z.ltb_spec
                  (Comparator.compare (internalKeyComparator this) ky lookup)
                  0); [lia|reflexivity].
Qed.

Lemma get_older_snapshot_witness :
  exists this',
    add MemTableSamples.one_entry 7 kTypeValue [97] (Some [121]) = Some this'
    /\ get this' (LookupKey.make [97] 3)
       = get MemTableSamples.one_entry (LookupKey.make [97] 3).
Proof.
  apply (get_older_snapshot MemTableSamples.one_entry 7 kTypeValue [97]
           (Some [121]) [97] 3).
  - eapply Forall_impl; [exact one_entry_written|].
    intros y (sy & ty & ky & vy & -> & Hsy & Hky & Hvy).
    exists sy, ty, ky, vy. repeat split; (assumption || lia).
  - exact bytewise_compare_trans.
  - lia.
  - change kMaxSequenceNumber with (2 ^ 56 - 1). lia.
  - change (Buffer.size [97]) with 1. lia.
  - change (Buffer.size (value_bytes (Some [121]))) with 1. lia.
  - change (Buffer.size [97]) with 1. lia.
Defined.

(** X8.  Over a memtable of written entries [iterator] never throws: it
    yields, in the order of the list, for each entry the internal key and
    the value that [add] was given, with no type; with [reverse] it yields
    the same entries in the opposite order. *)
Theorem iterator_entries this bound :
  Forall (written_below bound) (_list this) ->
  exists entries,
    iterator this false = Some entries
    /\ iterator this true = Some (rev entries)
    /\ Forall2
         (fun node entry =>
            exists sequence valueType key value,
              node = entry_buffer sequence valueType key value
              /\ entry = {| entry_key :=
                              InternalKey.make key sequence valueType;
                            entry_value := value_bytes value;
                            entry_type := None |})
         (_list this) entries.
Proof.
  unfold iterator. generalize (_list this) as l.
  assert (Hsnoc : forall (l : list Slice) x es e,
            mapM getEntryFromMemTableKey l = Some es ->
            getEntryFromMemTableKey x = Some e ->
            mapM getEntryFromMemTableKey (l ++ [x]) = Some (es ++ [e])).
  { induction l as [|y l IH]; intros x es e Hl Hx.
    - injection Hl as <-. cbn. now rewrite Hx.
    - cbn in Hl |- *. destruct (getEntryFromMemTableKey y); [|discriminate].
      cbn in Hl |- *. destruct (mapM getEntryFromMemTableKey l) as [es0|]
        eqn:Hes0; [|discriminate].
      injection Hl as <-. rewrite (IH x es0 e eq_refl Hx). reflexivity. }
  induction l as [|y l IH]; intros Hall.
  - exists []. repeat split. constructor.
  - apply Forall_cons in Hall
      as [(sy & ty & ky & vy & -> & Hsy & Hky & Hvy) Hall].
    destruct (IH Hall) as (es & Hfwd & Hrev & Hrel).
    eexists (_ :: es). split; [|split].
    + cbn [mapM]. rewrite getEntryFromMemTableKey_entry by assumption.
      cbn [mbind option_bind]. rewrite Hfwd. reflexivity.
    + cbn [rev]. apply Hsnoc; [exact Hrev|].
      now apply getEntryFromMemTableKey_entry.
    + constructor; [|exact Hrel]. now exists sy, ty, ky, vy.
Qed.

Lemma iterator_entries_witness :
  exists entries,
    iterator MemTableSamples.one_entry false = Some entries
    /\ iterator MemTableSamples.one_entry true = Some (rev entries)
    /\ Forall2
         (fun node entry =>
            exists sequence valueType key value,
              node = entry_buffer sequence valueType key value
              /\ entry = {| entry_key :=
                              InternalKey.make key sequence valueType;
                            entry_value := value_bytes value;
                            entry_type := None |})
         (_list MemTableSamples.one_entry) entries.
Proof.
  apply (iterator_entries MemTableSamples.one_entry 2).
  exact one_entry_written.
Defined.

End MemTableRoundTrips.

(** ** Numbers: the rounding of a quotient to a double *)

Section Doubles.

Lemma round_div_cases n d :
  0 < d ->
  exists q r,
    n = d * q + r /\ 0 <= r < d
    /\ (JS.round_div n d = q \/ (JS.round_div n d = q + 1 /\ d <= 2 * r)).
Proof.
  intros Hd. exists (n / d), (n mod d).
  split; [apply Z.div_mod; lia|]. split; [apply Z.mod_pos_bound; lia|].
  unfold JS.round_div. cbv zeta.
  destruct (Z.ltb_spec (2 * (n mod d)) d); [now left|].
  destruct (Z.ltb_spec d (2 * (n mod d))); [right; split; [reflexivity|lia]|].
  destruct (Z.even (n / d)); [now left|right; split; [reflexivity|lia]].
Qed.

Lemma round_div_ge n d c : 0 < d -> c * d <= n -> c <= JS.round_div n d.
Proof.
  intros Hd Hc. destruct (round_div_cases n d Hd) as (q & r & Hn & Hr & Hq).
  assert (c <= q) by nia. destruct Hq as [->|[-> _]]; lia.
Qed.

Lemma round_div_le n d c : 0 < d -> n <= c * d -> JS.round_div n d <= c.
Proof.
  intros Hd Hc. destruct (round_div_cases n d Hd) as (q & r & Hn & Hr & Hq).
  destruct Hq as [->|[-> Hhalf]]; nia.
Qed.

Lemma round_div_lt n d c :
  0 < d -> 2 * n + d < 2 * c * d -> JS.round_div n d < c.
Proof.
  intros Hd Hc. destruct (round_div_cases n d Hd) as (q & r & Hn & Hr & Hq).
  destruct Hq as [->|[-> Hhalf]]; nia.
Qed.

(** The exponent of a quotient that is at least 1. *)
Lemma exponent_nonneg n d :
  0 < d <= n -> 0 <= JS.exponent n d /\ d * 2 ^ JS.exponent n d <= n.
Proof.
  intros Hnd. unfold JS.exponent. cbv zeta.
  pose proof (Z.log2_le_mono d n ltac:(lia)) as Hmono.
  destruct (Z.log2_spec n ltac:(lia)) as [Hn1 Hn2].
  destruct (Z.log2_spec d ltac:(lia)) as [Hd1 Hd2].
  pose proof (Z.log2_nonneg d) as Hld.
  set (ln := Z.log2 n) in *. set (ld := Z.log2 d) in *.
  destruct (Z.leb_spec 0 (ln - ld)); [|lia].
  destruct (Z.leb_spec (d * 2 ^ (ln - ld)) n) as [Hle|Hgt]; [split; lia|].
  destruct (Z.eq_dec (ln - ld) 0) as [H0|H0].
  { rewrite H0 in Hgt. change (2 ^ 0) with 1 in Hgt. lia. }
  split; [lia|].
  assert (Hpow : 2 ^ ln = 2 ^ Z.succ ld * 2 ^ (ln - ld - 1)).
  { rewrite <- Z.pow_add_r by lia. f_equal. lia. }
  assert (0 < 2 ^ (ln - ld - 1)) by (apply Z.pow_pos_nonneg; lia).
  nia.
Qed.

(** The exponent of a quotient below 1. *)
Lemma exponent_neg n d :
  0 < n < d ->
  JS.exponent n d < 0 /\ n * 2 ^ (- JS.exponent n d - 1) < d.
Proof.
  intros Hnd. unfold JS.exponent. cbv zeta.
  pose proof (Z.log2_le_mono n d ltac:(lia)) as Hmono.
  destruct (Z.log2_spec n ltac:(lia)) as [Hn1 Hn2].
  destruct (Z.log2_spec d ltac:(lia)) as [Hd1 Hd2].
  pose proof (Z.log2_nonneg n) as Hln.
  set (ln := Z.log2 n) in *. set (ld := Z.log2 d) in *.
  destruct (Z.leb_spec 0 (ln - ld)) as [H0|H0].
  - assert (Heq : ln - ld = 0) by lia. rewrite Heq.
    change (2 ^ 0) with 1.
    destruct (Z.leb_spec (d * 1) n); [lia|].
    split; [lia|]. change (- (0 - 1) - 1) with 0. change (2 ^ 0) with 1. lia.
  - destruct (Z.leb_spec d (n * 2 ^ (- (ln - ld)))) as [Hle|Hgt].
    + split; [lia|].
      assert (Hpow : 2 ^ ld = 2 ^ Z.succ ln * 2 ^ (- (ln - ld) - 1)).
      { rewrite <- Z.pow_add_r by lia. f_equal. lia. }
      assert (0 < 2 ^ (- (ln - ld) - 1)) by (apply Z.pow_pos_nonneg; lia).
      nia.
    + split; [lia|].
      replace (- (ln - ld - 1) - 1) with (- (ln - ld)) by lia. exact Hgt.
Qed.

Lemma double_pos_nonneg n d : 0 < n -> 0 < d -> (0 <= JS.double_pos n d)%Q.
Proof.
  intros Hn Hd. unfold JS.double_pos. cbv zeta.
  destruct (Z.leb_spec 0 (52 - JS.exponent n d)) as [Hk|Hk].
  - unfold Qle. cbn [Qnum Qden]. rewrite Z.mul_1_r. change (0 * _) with 0.
    apply (round_div_ge _ _ 0); [lia|].
    pose proof (Z.pow_pos_nonneg 2 (52 - JS.exponent n d)). nia.
  - unfold Qle, inject_Z. cbn [Qnum Qden]. rewrite Z.mul_1_r.
    change (0 * 1) with 0.
    pose proof (Z.pow_pos_nonneg 2 (- (52 - JS.exponent n d))
                  ltac:(lia) ltac:(lia)) as Hp.
    assert (0 <= JS.round_div n (d * 2 ^ (- (52 - JS.exponent n d))))
      by (apply (round_div_ge _ _ 0); nia).
    nia.
Qed.

(** A quotient that is at least 1 rounds to a double that is at least 1. *)
Lemma double_pos_ge_1 n d : 0 < d <= n -> (1 <= JS.double_pos n d)%Q.
Proof.
  intros Hnd. destruct (exponent_nonneg n d Hnd) as [He Hle].
  unfold JS.double_pos. cbv zeta. set (e := JS.exponent n d) in *.
  destruct (Z.leb_spec 0 (52 - e)) as [Hk|Hk].
  - pose proof (Z.pow_pos_nonneg 2 (52 - e) ltac:(lia) Hk) as Hp.
    unfold Qle. cbn [Qnum Qden]. rewrite Z.mul_1_r, Z.mul_1_l.
    rewrite Z2Pos.id by exact Hp. apply round_div_ge; [lia|nia].
  - pose proof (Z.pow_pos_nonneg 2 (- (52 - e)) ltac:(lia) ltac:(lia)) as Hp.
    unfold Qle, inject_Z. cbn [Qnum Qden]. rewrite !Z.mul_1_r.
    assert (Hmono : 2 ^ (- (52 - e)) <= 2 ^ e)
      by (apply Z.pow_le_mono_r; lia).
    assert (1 <= JS.round_div n (d * 2 ^ (- (52 - e))))
      by (apply round_div_ge; nia).
    nia.
Qed.

(** A quotient below 1 rounds to a double below 1 as long as the divisor
    is below [2^54]: from there on the quotients next to 1 round to 1. *)
Lemma double_pos_lt_1 n d :
  0 < n < d -> d < 2 ^ 54 -> (JS.double_pos n d < 1)%Q.
Proof.
  intros Hnd Hd. destruct (exponent_neg n d Hnd) as [He Hlt].
  unfold JS.double_pos. cbv zeta. set (e := JS.exponent n d) in *.
  destruct (Z.leb_spec 0 (52 - e)) as [Hk|Hk]; [|lia].
  pose proof (Z.pow_pos_nonneg 2 (52 - e) ltac:(lia) Hk) as Hp.
  unfold Qlt. cbn [Qnum Qden]. rewrite Z.mul_1_r, Z.mul_1_l.
  rewrite Z2Pos.id by exact Hp.
  assert (Hsplit : 2 ^ (52 - e) = 2 ^ (- e - 1) * 2 ^ 53).
  { rewrite <- Z.pow_add_r by lia. f_equal. lia. }
  pose proof (Z.pow_pos_nonneg 2 (- e - 1) ltac:(lia) ltac:(lia)) as Hq.
  destruct (Z.eq_dec e (-1)) as [->|Hne].
  - change (52 - -1) with 53. apply round_div_lt; [lia|].
    change (2 ^ 54) with (2 * 2 ^ 53) in Hd. nia.
  - assert (Hm : JS.round_div (n * 2 ^ (52 - e)) d <= 2 ^ 53).
    { apply round_div_le; [lia|]. rewrite Hsplit. nia. }
    assert (Hbig : 2 ^ 54 <= 2 ^ (52 - e)) by (apply Z.pow_le_mono_r; lia).
    change (2 ^ 54) with (2 * 2 ^ 53) in Hbig. lia.
Qed.

Lemma fdiv_integers a b :
  0 < b ->
  JS.fdiv (inject_Z a) (inject_Z b)
  = match a with
    | 0 => 0%Q
    | Z.pos _ => JS.double_pos a b
    | Z.neg _ => (- JS.double_pos (- a) b)%Q
    end.
Proof.
  intros Hb. destruct b as [|p|p]; try lia.
  unfold JS.fdiv, JS.double, Qdiv, Qmult, Qinv, inject_Z. cbn [Qnum Qden].
  rewrite Z.mul_1_r. change (1 * p)%positive with p.
  destruct a; reflexivity.
Qed.

(** A quotient of integers that is not negative does not round to a
    negative double. *)
Lemma fdiv_nonneg a b :
  0 <= a -> 0 < b -> (0 <= JS.fdiv (inject_Z a) (inject_Z b))%Q.
Proof.
  intros Ha Hb. rewrite fdiv_integers by exact Hb.
  destruct a as [|a|a]; [apply Qle_refl| |lia].
  apply double_pos_nonneg; lia.
Qed.

(** The rounded quotient reaches 1 exactly when the dividend reaches the
    divisor, for a divisor below [2^54]. *)
Lemma fdiv_reaches_1 a b :
  0 < b < 2 ^ 54 ->
  (1 <= JS.fdiv (inject_Z a) (inject_Z b))%Q <-> b <= a.
Proof.
  intros Hb. rewrite fdiv_integers by lia.
  destruct a as [|a|a].
  - split; [intros H; exfalso; revert H; unfold Qle; cbn; lia|lia].
  - destruct (Z_le_gt_dec b (Z.pos a)) as [Hle|Hgt].
    + split; [intros _; exact Hle|intros _; apply double_pos_ge_1; lia].
    + split; [|lia]. intros H1. exfalso.
      apply (Qlt_irrefl 1). eapply Qle_lt_trans; [exact H1|].
      apply double_pos_lt_1; lia.
  - split; [|lia]. intros H1. exfalso.
    pose proof (double_pos_nonneg (- Z.neg a) b ltac:(lia) ltac:(lia)) as Hp.
    apply (Qlt_irrefl 1). eapply Qle_lt_trans; [exact H1|].
    apply Qle_lt_trans with 0%Q; [|reflexivity].
    apply (Qopp_le_compat 0) in Hp. exact Hp.
Qed.

End Doubles.

(** ** The version set: scores, snapshots and the installation of an edit *)

Section VersionSetScores.

Import VersionFormat VersionSet LevelScore.

Lemma finalize_loop_unfold files level count bl bs levelFiles :
  files !! Z.to_nat level = Some levelFiles ->
  finalize_loop files level (S count) bl bs
  = if negb (Qle_bool (score levelFiles level) bs)
    then finalize_loop files (level + 1) count level (score levelFiles level)
    else finalize_loop files (level + 1) count bl bs.
Proof. intros Hl. cbn [finalize_loop]. rewrite Hl. reflexivity. Qed.

Lemma of_level_lookup files level levelFiles :
  files !! Z.to_nat level = Some levelFiles ->
  of_level files level = score levelFiles level.
Proof. unfold of_level. now intros ->. Qed.

(** The loop keeps the best score so far, or moves to the first level from
    [level] on whose score is the greatest. *)
Lemma finalize_loop_spec files : forall count level bl bs,
  0 <= level ->
  (Z.to_nat level + count <= length files)%nat ->
  exists bl' bs',
    finalize_loop files level count bl bs = Some (bl', bs')
    /\ ((bl' = bl /\ bs' = bs
         /\ forall l, level <= l < level + Z.of_nat count ->
                      (of_level files l <= bs)%Q)
        \/ (level <= bl' < level + Z.of_nat count
            /\ bs' = of_level files bl'
            /\ (bs < bs')%Q
            /\ (forall l, level <= l < bl' -> (of_level files l < bs')%Q)
            /\ forall l, level <= l < level + Z.of_nat count ->
                         (of_level files l <= bs')%Q)).
Proof.
  induction count as [|count IH]; intros level bl bs Hlevel Hlen.
  - exists bl, bs. split; [reflexivity|]. left. repeat split. intros l Hl. lia.
  - destruct (lookup_lt_is_Some_2 files (Z.to_nat level)) as [lf Hlf]; [lia|].
    rewrite (finalize_loop_unfold _ _ _ _ _ _ Hlf).
    rewrite <- (of_level_lookup _ _ _ Hlf).
    set (s := of_level files level).
    destruct (IH (level + 1) level s) as (bl1 & bs1 & Hrun1 & Hcase1);
      [lia|lia|].
    destruct (IH (level + 1) bl bs) as (bl2 & bs2 & Hrun2 & Hcase2);
      [lia|lia|].
    destruct (Qle_bool s bs) eqn:Hcmp; cbn [negb].
    + apply Qle_bool_iff in Hcmp. exists bl2, bs2. split; [exact Hrun2|].
      destruct Hcase2 as [(-> & -> & Hall)|(Hb & -> & Hlt & Hfirst & Hall)].
      * left. repeat split. intros l Hl.
        destruct (Z.eq_dec l level) as [->|]; [exact Hcmp|apply Hall; lia].
      * right. split; [lia|]. split; [reflexivity|]. split; [exact Hlt|].
        assert (Hs : (s < of_level files bl2)%Q)
          by (eapply Qle_lt_trans; eauto).
        split; intros l Hl; (destruct (Z.eq_dec l level) as [->|];
          [|apply Hfirst || apply Hall; lia]);
          [exact Hs|now apply Qlt_le_weak].
    + assert (Hgt : (bs < s)%Q).
      { apply Qnot_le_lt. intros Hle. apply Qle_bool_iff in Hle. congruence. }
      exists bl1, bs1. split; [exact Hrun1|]. right.
      destruct Hcase1 as [(-> & -> & Hall)|(Hb & -> & Hlt & Hfirst & Hall)].
      * split; [lia|]. split; [reflexivity|]. split; [exact Hgt|].
        split; intros l Hl; [lia|].
        destruct (Z.eq_dec l level) as [->|]; [apply Qle_refl|apply Hall; lia].
      * split; [lia|]. split; [reflexivity|].
        split; [eapply Qlt_trans; eauto|].
        split; intros l Hl; (destruct (Z.eq_dec l level) as [->|];
          [|apply Hfirst || apply Hall; lia]);
          [exact Hlt|now apply Qlt_le_weak].
Qed.

Lemma score_level0_nonneg files : (-1 < of_level files 0)%Q.
Proof.
  unfold of_level, score. cbn [Z.eqb].
  generalize (length (default [] (files !! Z.to_nat 0))). intros n.
  apply Qlt_le_trans with 0%Q; [reflexivity|].
  apply fdiv_nonneg; [lia|reflexivity].
Qed.

(** The budgets of the seven levels are far below [2^54]. *)
Lemma budget_bounds level :
  0 <= level < Config.kNumLevels ->
  0 < getMaxBytesForLevel level < 2 ^ 54.
Proof.
  unfold Config.kNumLevels, getMaxBytesForLevel. intros Hl.
  assert (Hcases : level = 0 \/ level = 1 \/ level = 2 \/ level = 3
                   \/ level = 4 \/ level = 5 \/ level = 6) by lia.
  destruct Hcases as [->|[->|[->|[->|[->|[->| ->]]]]]];
    split; reflexivity.
Qed.

(** A score reaches 1 exactly when the level is over its budget: the
    rounding of the quotient to a double does not move it across 1. *)
Lemma score_over_budget files level :
  0 <= level < Config.kNumLevels ->
  (1 <= of_level files level)%Q <-> over_budget files level.
Proof.
  intros Hlevel. unfold of_level, over_budget, score.
  destruct (Z.eqb_spec level 0) as [->|Hne].
  - change (Z.to_nat 0) with 0%nat.
    generalize (length (default [] (files !! 0%nat))). intros n.
    apply fdiv_reaches_1. split; reflexivity.
  - apply fdiv_reaches_1. now apply budget_bounds.
Qed.

(** Scores are compared as doubles: of two levels whose exact quotients
    differ by less than the rounding, the lower one is kept. *)
Lemma finalize_rounded_scores :
  (879609302220805 # 104857600 < 8796093022208051 # 1048576000)%Q
  /\ of_level (Version.files close_scores_version) 1
     = of_level (Version.files close_scores_version) 2
  /\ Version.compactionLevel <$> finalize close_scores_version = Some 1.
Proof. split; [reflexivity|]. split; vm_compute; reflexivity. Qed.

(** X10.  [finalize] of a version with seven levels, whose file sizes are
    byte counts with level totals within [2^53], returns and leaves the
    files as they are.  The compaction level it records is a level from 0 to
    6, the lowest of the levels with the greatest score, and the compaction
    score is the score of that level: no level has a greater score, and the
    levels below have a smaller one.  The score of a level is a double, the
    one nearest to the quotient, and the scores are compared as such. *)
Theorem finalize_best (ver : Version.t) :
  length (Version.files ver) = 7%nat ->
  exact_sizes (Version.files ver) = true ->
  exists ver',
    finalize ver = Some ver'
    /\ Version.files ver' = Version.files ver
    /\ 0 <= Version.compactionLevel ver' < Config.kNumLevels
    /\ Version.compactionScore ver'
       = of_level (Version.files ver) (Version.compactionLevel ver')
    /\ (forall level, 0 <= level < Config.kNumLevels ->
          (of_level (Version.files ver) level
           <= Version.compactionScore ver')%Q)
    /\ (forall level, 0 <= level < Version.compactionLevel ver' ->
          (of_level (Version.files ver) level
           < Version.compactionScore ver')%Q).
Proof.
  intros Hlen _. unfold finalize.
  destruct (finalize_loop_spec (Version.files ver)
              (Z.to_nat Config.kNumLevels) 0 (-1) (-1))
    as (bl & bs & -> & Hcase); [lia|rewrite Hlen; reflexivity|].
  cbn [mbind option_bind fst snd]. eexists. split; [reflexivity|].
  cbn [Version.set_compaction Version.files Version.compactionLevel
       Version.compactionScore].
  change (0 + Z.of_nat (Z.to_nat Config.kNumLevels))
    with Config.kNumLevels in Hcase.
  destruct Hcase as [(_ & -> & Hall)|(Hb & -> & _ & Hfirst & Hall)].
  - exfalso. pose proof (Hall 0 ltac:(unfold Config.kNumLevels; lia)) as H0.
    pose proof (score_level0_nonneg (Version.files ver)) as H1.
    apply (Qlt_irrefl (-1)). eapply Qlt_le_trans; eauto.
  - repeat split; try lia; assumption.
Qed.

Lemma finalize_best_witness :
  exists ver',
    finalize Samples.level1_version = Some ver'
    /\ Version.files ver' = Version.files Samples.level1_version
    /\ 0 <= Version.compactionLevel ver' < Config.kNumLevels
    /\ Version.compactionScore ver'
       = of_level (Version.files Samples.level1_version)
           (Version.compactionLevel ver')
    /\ (forall level, 0 <= level < Config.kNumLevels ->
          (of_level (Version.files Samples.level1_version) level
           <= Version.compactionScore ver')%Q)
    /\ (forall level, 0 <= level < Version.compactionLevel ver' ->
          (of_level (Version.files Samples.level1_version) level
           < Version.compactionScore ver')%Q).
Proof.
  apply (finalize_best Samples.level1_version); reflexivity.
Defined.

(** X11.  After [finalize] of a version with seven levels the compaction
    score is at least 1, which is what [needsCompaction] tests, exactly when
    some level is over its budget: level 0 holds four files or more, or a
    level from 1 to 6 holds at least [10^level * 10 MiB]. *)
Theorem finalize_score_threshold (ver ver' : Version.t) :
  length (Version.files ver) = 7%nat ->
  finalize ver = Some ver' ->
  (1 <= Version.compactionScore ver')%Q
  <-> exists level,
        0 <= level < Config.kNumLevels
        /\ over_budget (Version.files ver) level.
Proof.
  intros Hlen Hfin. unfold finalize in Hfin.
  destruct (finalize_loop_spec (Version.files ver)
              (Z.to_nat Config.kNumLevels) 0 (-1) (-1))
    as (bl & bs & Hrun & Hcase); [lia|rewrite Hlen; reflexivity|].
  rewrite Hrun in Hfin. cbn [mbind option_bind fst snd] in Hfin.
  injection Hfin as <-. cbn [Version.set_compaction Version.compactionScore].
  change (0 + Z.of_nat (Z.to_nat Config.kNumLevels))
    with Config.kNumLevels in Hcase.
  destruct Hcase as [(_ & -> & Hall)|(Hb & -> & _ & _ & Hall)].
  - exfalso. pose proof (Hall 0 ltac:(unfold Config.kNumLevels; lia)) as H0.
    pose proof (score_level0_nonneg (Version.files ver)) as H1.
    apply (Qlt_irrefl (-1)). eapply Qlt_le_trans; eauto.
  - split.
    + intros Hone. exists bl. split; [exact Hb|].
      apply score_over_budget; [exact Hb|exact Hone].
    + intros (level & Hl & Hover).
      apply score_over_budget in Hover; [|exact Hl].
      eapply Qle_trans; [exact Hover|]. now apply Hall.
Qed.

Lemma finalize_score_threshold_witness :
  (1 <= Version.compactionScore
          (Version.set_compaction Samples.level1_version 1
             (of_level (Version.files Samples.level1_version) 1)))%Q
  <-> exists level,
        0 <= level < Config.kNumLevels
        /\ over_budget (Version.files Samples.level1_version) level.
Proof.
  apply (finalize_score_threshold Samples.level1_version
           (Version.set_compaction Samples.level1_version 1
              (of_level (Version.files Samples.level1_version) 1))).
  - reflexivity.
  - reflexivity.
Defined.

End VersionSetScores.

Section VersionSetSnapshot.

Import VersionFormat VersionSet Snapshot.

Lemma same_numbers_refl e : same_numbers e e.
Proof. repeat split. Qed.

Lemma same_numbers_trans e1 e2 e3 :
  same_numbers e1 e2 -> same_numbers e2 e3 -> same_numbers e1 e3.
Proof.
  unfold same_numbers. intros (? & ? & ? & ? & ? & ?) (? & ? & ? & ? & ? & ?).
  repeat split; congruence.
Qed.

Lemma fold_pointers (pointers : gmap Z Slice) : forall levels e,
  let e' :=
    fold_left
      (fun edit level =>
         match pointers !! level with
         | Some pointer =>
             if negb (Buffer.size pointer =? 0)
             then VersionEdit.setCompactPointer edit level pointer
             else edit
         | None => edit
         end) levels e in
  same_numbers e e'
  /\ VersionEdit.newFiles e' = VersionEdit.newFiles e
  /\ VersionEdit.compactPointers e'
     = VersionEdit.compactPointers e
       ++ omap (fun level =>
                  match pointers !! level with
                  | Some pointer =>
                      if negb (Buffer.size pointer =? 0)
                      then Some (level, pointer) else None
                  | None => None
                  end) levels.
Proof.
  induction levels as [|level levels IH]; intros e; cbv zeta.
  - cbn [fold_left omap]. rewrite app_nil_r.
    split; [apply same_numbers_refl|]. now split.
  - cbn [fold_left]. cbn [omap list_omap]. fold (@omap list _ Z (Z * Slice)).
    destruct (pointers !! level) as [pointer|]; [|apply IH].
    destruct (negb (Buffer.size pointer =? 0)); [|apply IH].
    destruct (IH (VersionEdit.setCompactPointer e level pointer))
      as (Hsame & Hfiles & Hptrs).
    split; [|split].
    + eapply same_numbers_trans; [|exact Hsame]. repeat split.
    + rewrite Hfiles. reflexivity.
    + rewrite Hptrs. cbn [VersionEdit.setCompactPointer
                           VersionEdit.compactPointers].
      now rewrite <- app_assoc.
Qed.

Lemma fold_addFile level : forall (files : list FileMetaData) e,
  let e' := fold_left (fun edit f => VersionEdit.addFile edit level f)
              files e in
  same_numbers e e'
  /\ VersionEdit.compactPointers e' = VersionEdit.compactPointers e
  /\ VersionEdit.newFiles e'
     = VersionEdit.newFiles e ++ map (pair level) files.
Proof.
  induction files as [|f files IH]; intros e; cbv zeta.
  - cbn [fold_left map]. rewrite app_nil_r.
    split; [apply same_numbers_refl|]. now split.
  - cbn [fold_left map].
    destruct (IH (VersionEdit.addFile e level f)) as (Hsame & Hptrs & Hfiles).
    split; [|split].
    + eapply same_numbers_trans; [|exact Hsame]. repeat split.
    + rewrite Hptrs. reflexivity.
    + rewrite Hfiles. cbn [VersionEdit.addFile VersionEdit.newFiles].
      now rewrite <- app_assoc.
Qed.

Lemma fold_levels (files : list (list FileMetaData)) :
  forall (rest : list (list FileMetaData)) (start : nat) e,
    drop start files = rest ->
    exists e',
      fold_left
        (fun edit level =>
           edit ← edit;
           levelFiles ← files !! Z.to_nat level;
           Some (fold_left (fun edit f => VersionEdit.addFile edit level f)
                   levelFiles edit))
        (seqZ (Z.of_nat start) (Z.of_nat (length rest))) (Some e)
      = Some e'
      /\ same_numbers e e'
      /\ VersionEdit.compactPointers e' = VersionEdit.compactPointers e
      /\ VersionEdit.newFiles e'
         = VersionEdit.newFiles e
           ++ concat (imap (fun level levelFiles =>
                              map (pair (Z.of_nat (start + level))) levelFiles)
                        rest).
Proof.
  induction rest as [|lf rest IH]; intros start e Hdrop.
  - exists e. cbn. rewrite app_nil_r. split; [reflexivity|].
    split; [apply same_numbers_refl|]. now split.
  - assert (Hlf : files !! start = Some lf).
    { rewrite <- (Nat.add_0_r start), <- lookup_drop, Hdrop. reflexivity. }
    cbn [length]. rewrite Nat2Z.inj_succ, seqZ_cons by lia.
    cbn [fold_left mbind option_bind]. rewrite Nat2Z.id, Hlf.
    cbn [mbind option_bind].
    destruct (fold_addFile (Z.of_nat start) lf e) as (Hs1 & Hp1 & Hf1).
    destruct (IH (S start)
                (fold_left
                   (fun edit f => VersionEdit.addFile edit (Z.of_nat start) f)
                   lf e))
      as (e' & Hrun & Hs2 & Hp2 & Hf2).
    { replace (S start) with (start + 1)%nat by lia.
      rewrite <- drop_drop, Hdrop. reflexivity. }
    exists e'. split.
    + replace (Z.succ (Z.of_nat start)) with (Z.of_nat (S start)) by lia.
      replace (Z.pred (Z.succ (Z.of_nat (length rest))))
        with (Z.of_nat (length rest)) by lia.
      exact Hrun.
    + split; [eapply same_numbers_trans; eauto|]. split; [congruence|].
      rewrite Hf2, Hf1, <- app_assoc. f_equal.
      cbn [imap concat]. rewrite Nat.add_0_r. f_equal. f_equal.
      apply imap_ext. intros i x _. cbn. do 2 f_equal. lia.
Qed.

Lemma snapshot_edit_returns (this : t) :
  length (Version.files (_current this)) = 7%nat ->
  is_Some (snapshot_edit this).
Proof.
  intros Hlen. unfold snapshot_edit. cbv zeta.
  match goal with
  | |- is_Some (fold_left _ _ (Some ?e)) =>
      destruct (fold_levels (Version.files (_current this))
                  (Version.files (_current this)) 0 e eq_refl)
        as (e2 & Hrun & _)
  end.
  rewrite Hlen in Hrun. exists e2. exact Hrun.
Qed.

(** X12.  The snapshot that opens a new MANIFEST.  For a current version
    with seven levels the edit that [writeSnapshot] builds names the
    comparator, holds the compact pointers that are set and not empty, and
    adds every file of every level of the current version, level by level
    in the order of the version; it deletes no file and carries no log
    number, previous log number, next file number or last sequence. *)
Theorem snapshot_edit_complete (this : t) :
  length (Version.files (_current this)) = 7%nat ->
  exists edit,
    snapshot_edit this = Some edit
    /\ VersionEdit.comparator edit
       = Some (Comparator.getName (internalKeyComparator this))
    /\ VersionEdit.compactPointers edit = pointers_of (compactPointers this)
    /\ VersionEdit.newFiles edit = files_of (Version.files (_current this))
    /\ VersionEdit.deletedFiles edit = []
    /\ VersionEdit.hasLogNumber edit = false
    /\ VersionEdit.hasPrevLogNumber edit = false
    /\ VersionEdit.hasNextFileNumber edit = false
    /\ VersionEdit.hasLastSequence edit = false.
Proof.
  intros Hlen. unfold snapshot_edit. cbv zeta.
  set (e0 := VersionEdit.set_comparator VersionEdit.make _).
  destruct (fold_pointers (compactPointers this) (seqZ 0 Config.kNumLevels) e0)
    as (Hs1 & Hf1 & Hp1).
  set (e1 := fold_left _ (seqZ 0 Config.kNumLevels) e0) in *.
  destruct (fold_levels (Version.files (_current this))
              (Version.files (_current this)) 0 e1 eq_refl)
    as (e2 & Hrun & Hs2 & Hp2 & Hf2).
  rewrite Hlen in Hrun. exists e2. split; [exact Hrun|].
  destruct (same_numbers_trans _ _ _ Hs1 Hs2) as (Hc & Hl & Hp & Hn & Hq & Hd).
  repeat split; try (rewrite ?Hc, ?Hl, ?Hp, ?Hn, ?Hq, ?Hd; reflexivity).
  - rewrite Hp2, Hp1. reflexivity.
  - rewrite Hf2, Hf1. reflexivity.
Qed.

Lemma snapshot_edit_complete_witness :
  exists edit,
    snapshot_edit Samples.sample_versionSet = Some edit
    /\ VersionEdit.comparator edit
       = Some (Comparator.getName
                 (internalKeyComparator Samples.sample_versionSet))
    /\ VersionEdit.compactPointers edit
       = pointers_of (compactPointers Samples.sample_versionSet)
    /\ VersionEdit.newFiles edit
       = files_of (Version.files (_current Samples.sample_versionSet))
    /\ VersionEdit.deletedFiles edit = []
    /\ VersionEdit.hasLogNumber edit = false
    /\ VersionEdit.hasPrevLogNumber edit = false
    /\ VersionEdit.hasNextFileNumber edit = false
    /\ VersionEdit.hasLastSequence edit = false.
Proof.
  apply (snapshot_edit_complete Samples.sample_versionSet). reflexivity.
Defined.

End VersionSetSnapshot.

Section VersionSetInstall.

Import VersionFormat VersionSet Snapshot.

Context {C : Collaborators}.

Lemma substring_all (s : string) : String.substring 0 (String.length s) s = s.
Proof. induction s as [|c s IH]; [reflexivity|]. cbn. now rewrite IH. Qed.

Lemma string_append_assoc (a b c : string) :
  (a +:+ b) +:+ c = a +:+ (b +:+ c).
Proof.
  induction a as [|x a IH]; [reflexivity|].
  change (String x ((a +:+ b) +:+ c) = String x (a +:+ (b +:+ c))).
  now rewrite IH.
Qed.

Lemma prefix_resolve (dbpath name : string) :
  String.prefix (dbpath +:+ "/") (Path.resolve dbpath name) = true.
Proof.
  unfold Path.resolve. induction dbpath as [|c dbpath IH].
  - now destruct name.
  - simpl. destruct (ascii_dec c c); [exact IH|congruence].
Qed.

Lemma substring_resolve (dbpath name : string) :
  String.substring (S (String.length dbpath))
    (String.length (Path.resolve dbpath name) - S (String.length dbpath))
    (Path.resolve dbpath name)
  = name.
Proof.
  unfold Path.resolve. induction dbpath as [|c dbpath IH].
  - simpl. rewrite ?Nat.sub_0_r. apply substring_all.
  - simpl. exact IH.
Qed.

(** [writeCurrentFile] never fails its assertion: when the write succeeds,
    CURRENT holds the name of the MANIFEST and a newline. *)
Lemma writeCurrentFile_content dbpath n env :
  writeCurrentFile dbpath n true env
  = (Status.Ok,
     <[Filename.getCurrentFilename dbpath :=
         Env.Text ("MANIFEST-" +:+ Filename.numberToString n
                   +:+ String (ascii_of_nat 10) "")]> env).
Proof.
  unfold writeCurrentFile, Filename.getManifestFilename. cbv zeta.
  rewrite prefix_resolve. cbn [negb]. rewrite substring_resolve.
  unfold Env.writeFile. now rewrite string_append_assoc.
Qed.

Lemma manifest_is_not_current dbpath n :
  Filename.getManifestFilename dbpath n <> Filename.getCurrentFilename dbpath.
Proof.
  unfold Filename.getManifestFilename, Filename.getCurrentFilename,
    Path.resolve.
  intros Heq. apply String.app_inj in Heq. discriminate Heq.
Qed.

Lemma complete_edit_idempotent this edit edit1 :
  complete_edit this edit = Some edit1 ->
  VersionEdit.set_nextFileNumber edit1 (nextFileNumber this) = edit1.
Proof.
  unfold complete_edit.
  destruct (if VersionEdit.hasLogNumber edit then _ else _) as [e|];
    [|discriminate].
  cbn [mbind option_bind]. intros [= <-]. reflexivity.
Qed.

(** X13.  The numbers of an edit.  [logAndApply] first completes the edit,
    and throws there exactly when the edit has a log number that is below
    the log number of the version set or not below its next file number.
    The completed edit has all four numbers: its own log number and
    previous log number when it had them, else those of the version set,
    and always the next file number and the last sequence of the version
    set; its files and pointers are untouched. *)
Theorem complete_edit_numbers (this : t) (edit : VersionEdit.t) :
  (complete_edit this edit = None
   <-> VersionEdit.hasLogNumber edit = true
       /\ (VersionEdit.logNumber edit < logNumber this
           \/ nextFileNumber this <= VersionEdit.logNumber edit))
  /\ forall edit1,
       complete_edit this edit = Some edit1 ->
       VersionEdit.hasLogNumber edit1 = true
       /\ VersionEdit.hasPrevLogNumber edit1 = true
       /\ VersionEdit.hasNextFileNumber edit1 = true
       /\ VersionEdit.hasLastSequence edit1 = true
       /\ VersionEdit.logNumber edit1
          = (if VersionEdit.hasLogNumber edit
             then VersionEdit.logNumber edit else logNumber this)
       /\ VersionEdit.prevLogNumber edit1
          = (if VersionEdit.hasPrevLogNumber edit
             then VersionEdit.prevLogNumber edit else prevLogNumber this)
       /\ VersionEdit.nextFileNumber edit1 = nextFileNumber this
       /\ VersionEdit.lastSequence edit1 = _lastSequence this
       /\ logNumber this <= VersionEdit.logNumber edit1
       /\ (VersionEdit.hasLogNumber edit = true ->
           VersionEdit.logNumber edit1 < nextFileNumber this)
       /\ VersionEdit.newFiles edit1 = VersionEdit.newFiles edit
       /\ VersionEdit.deletedFiles edit1 = VersionEdit.deletedFiles edit
       /\ VersionEdit.compactPointers edit1
          = VersionEdit.compactPointers edit.
Proof.
  unfold complete_edit.
  destruct (VersionEdit.hasLogNumber edit) eqn:Hhas.
  - destruct (Z.leb_spec (logNumber this) (VersionEdit.logNumber edit));
      cbn [assert mbind option_bind].
    + destruct (Z.ltb_spec (VersionEdit.logNumber edit) (nextFileNumber this));
        cbn [assert mbind option_bind].
      * split; [split; [discriminate|intros [_ [?|?]]; lia]|].
        intros edit1 [= <-].
        destruct (VersionEdit.hasPrevLogNumber edit) eqn:Hprev;
          cbn [negb]; cbn; rewrite ?Hhas, ?Hprev; repeat split; auto.
      * split; [split; [intros _; split; [reflexivity|lia]|reflexivity]|].
        discriminate.
    + split; [split; [intros _; split; [reflexivity|lia]|reflexivity]|].
      discriminate.
  - cbn [mbind option_bind].
    split; [split; [discriminate|intros [? _]; discriminate]|].
    intros edit1 [= <-].
    destruct (VersionEdit.hasPrevLogNumber edit) eqn:Hprev;
      cbn [negb]; cbn; rewrite ?Hhas, ?Hprev; repeat split; auto;
      try lia; discriminate.
Qed.

Lemma complete_edit_numbers_witness :
  VersionEdit.nextFileNumber
    (VersionEdit.set_lastSequence
       (VersionEdit.set_nextFileNumber
          (VersionEdit.set_prevLogNumber
             (VersionEdit.set_logNumber VersionEdit.make 3) 0) 14) 100)
  = nextFileNumber Samples.sample_versionSet.
Proof.
  destruct (complete_edit_numbers Samples.sample_versionSet VersionEdit.make)
    as [_ Hnumbers].
  apply Hnumbers. reflexivity.
Defined.

Lemma appendVersion_fresh this ver :
  Version.refs ver = 0 ->
  appendVersion this ver
  = Some (set_current this (Version.ref ver)
            (older this ++ option_list (Version.unref (_current this)))).
Proof. unfold appendVersion. now intros ->. Qed.

Lemma unref_ring v :
  option_list (Version.unref v)
  = if Version.refs v =? 1 then []
    else [Version.set_refs v (Version.refs v - 1)].
Proof.
  unfold Version.unref. cbv zeta. cbn [Version.refs Version.set_refs].
  destruct (Z.eqb_spec (Version.refs v - 1) 0) as [H0|H0];
    destruct (Z.eqb_spec (Version.refs v) 1); try lia; reflexivity.
Qed.

Lemma finalize_refs ver ver' :
  finalize ver = Some ver' -> Version.refs ver' = Version.refs ver.
Proof.
  unfold finalize. destruct (finalize_loop _ _ _ _ _); [|discriminate].
  now intros [= <-].
Qed.

Lemma manifest_filename_length dbpath n :
  (0 <? Z.of_nat (String.length (Filename.getManifestFilename dbpath n)))
  = true.
Proof.
  unfold Filename.getManifestFilename, Path.resolve.
  destruct dbpath; reflexivity.
Qed.

(** X14.  A call of [logAndApply] whose file operations all succeed.  When
    the edit can be completed and the built version finalized, the call
    returns an ok status; the finalized version is the current one, with
    one reference.  The former current version loses the reference of the
    version set: when others are left it follows the older versions in the
    ring, one reference poorer, and when that was its last one it is
    destroyed and the ring holds the older versions only.  The log numbers
    are those of the completed edit.
    With a MANIFEST writer open, the record of the edit is appended to its
    file and nothing else is written.  With none, CURRENT names the
    MANIFEST, a MANIFEST that was not there holds the snapshot record and
    the record of the edit, and the writer is closed and removed again. *)
Theorem logAndApply_installs this outcome env edit edit1 ver :
  complete_edit this edit = Some edit1 ->
  finalize (builder_saveTo (_current this) edit1 (Version.make (self this)))
  = Some ver ->
  Version.refs ver = 0 ->
  length (Version.files (_current this)) = 7%nat ->
  Env.open_ok outcome = true ->
  Env.snapshot_ok outcome = true ->
  Env.addRecord_ok outcome = true ->
  Env.writeCurrent_ok outcome = true ->
  Env.close_ok outcome = true ->
  exists this' env',
    logAndApply this outcome env edit = Some (Status.Ok, this', env')
    /\ _current this' = Version.ref ver
    /\ older this'
       = older this
         ++ (if Version.refs (_current this) =? 1 then []
             else [Version.set_refs (_current this)
                     (Version.refs (_current this) - 1)])
    /\ logNumber this' = VersionEdit.logNumber edit1
    /\ prevLogNumber this' = VersionEdit.prevLogNumber edit1
    /\ compactPointers this'
       = builder_compactPointers (compactPointers this) edit1
    /\ match manifestWriter this with
       | Some writer =>
           manifestWriter this' = Some writer
           /\ env' = Env.append_record env (LogWriter.file writer)
                       (encodeEdit edit1)
       | None =>
           manifestWriter this' = None
           /\ env' !! Filename.getCurrentFilename (_dbpath this)
              = Some (Env.Text
                        ("MANIFEST-"
                         +:+ Filename.numberToString (manifestFileNumber this)
                         +:+ String (ascii_of_nat 10) ""))
           /\ (env !! Filename.getManifestFilename (_dbpath this)
                        (manifestFileNumber this) = None ->
               exists snapshot,
                 snapshot_edit
                   (set_compactPointers this
                      (builder_compactPointers (compactPointers this) edit1))
                 = Some snapshot
                 /\ env' !! Filename.getManifestFilename (_dbpath this)
                              (manifestFileNumber this)
                    = Some (Env.Records
                              [encodeEdit snapshot; encodeEdit edit1]))
       end.
Proof.
  intros Hedit Hfin Hrefs Hlen Hopen Hsnap Hadd Hcur Hclose.
  unfold logAndApply. rewrite Hedit. cbn [mbind option_bind]. cbv zeta.
  rewrite Hfin. cbn [mbind option_bind].
  set (this0 := set_compactPointers this _).
  unfold open_manifest.
  change (manifestWriter this0) with (manifestWriter this).
  destruct (manifestWriter this) as [writer|] eqn:Hwriter.
  - cbn [mbind option_bind]. unfold install.
    change (manifestWriter this0) with (manifestWriter this).
    rewrite Hwriter. cbn [Status.ok mbind option_bind].
    unfold LogWriter.addRecord. rewrite Hadd.
    cbn [mbind option_bind Status.ok String.length Z.of_nat Z.ltb Z.compare
         andb String.eqb negb].
    rewrite appendVersion_fresh by assumption. cbn [mbind option_bind].
    eexists _, _. split; [reflexivity|]. repeat split.
    + apply (f_equal (app (older this))), unref_ring.
    + exact Hwriter.
  - rewrite Hopen. cbn [attempt mbind option_bind]. cbv zeta.
    destruct (snapshot_edit_returns this0) as [snapshot Hsnapshot];
      [exact Hlen|].
    unfold writeSnapshot.
    assert (Hsnapshot' :
              snapshot_edit
                (set_manifestWriter this0
                   (Some {| LogWriter.file :=
                              Filename.getManifestFilename (_dbpath this0)
                                (manifestFileNumber this0) |}))
              = Some snapshot) by exact Hsnapshot.
    rewrite Hsnapshot'. cbn [mbind option_bind].
    unfold LogWriter.addRecord at 1. rewrite Hsnap.
    cbn [mbind option_bind LogWriter.file]. unfold install.
    cbn [manifestWriter set_manifestWriter Status.ok mbind option_bind].
    unfold LogWriter.addRecord. rewrite Hadd.
    cbn [mbind option_bind Status.ok LogWriter.file andb].
    rewrite manifest_filename_length, manifest_filename_not_empty.
    cbn [_dbpath manifestFileNumber set_manifestWriter].
    rewrite Hcur, writeCurrentFile_content, Hclose.
    cbn [Status.ok negb attempt mbind option_bind].
    rewrite appendVersion_fresh by assumption. cbn [mbind option_bind].
    change (nextFileNumber this0) with (nextFileNumber this).
    rewrite (complete_edit_idempotent _ _ _ Hedit).
    eexists _, _. split; [reflexivity|]. repeat split.
    + apply (f_equal (app (older this))), unref_ring.
    + apply lookup_insert_eq.
    + intros Hfresh. exists snapshot. split; [exact Hsnapshot|].
      change (_dbpath this0) with (_dbpath this).
      change (manifestFileNumber this0) with (manifestFileNumber this).
      set (name := Filename.getManifestFilename _ _) in *.
      rewrite lookup_insert_ne
        by (intros Heq; symmetry in Heq;
            now apply manifest_is_not_current in Heq).
      unfold Env.open_append. rewrite Hfresh.
      unfold Env.append_record at 2. rewrite lookup_insert_eq.
      unfold Env.append_record. rewrite lookup_insert_eq.
      rewrite lookup_insert_eq. reflexivity.
Qed.

End VersionSetInstall.

Section VersionSetInstallExamples.

Import VersionFormat VersionSet Snapshot.

Lemma logAndApply_installs_witness :
  exists this' env',
    logAndApply (C := Samples.sample_collaborators) Samples.sample_versionSet
      all_succeed ∅ VersionEdit.make
    = Some (Status.Ok, this', env')
    /\ older this' = []
    /\ logNumber this' = 3
    /\ manifestWriter this' = None
    /\ env' !! Filename.getCurrentFilename "/db"
       = Some (Env.Text ("MANIFEST-" +:+ Filename.numberToString 4
                         +:+ String (ascii_of_nat 10) "")).
Proof.
  edestruct (logAndApply_installs (C := Samples.sample_collaborators)
               Samples.sample_versionSet all_succeed ∅ VersionEdit.make)
    as (this' & env' & Hrun & _ & Holder & Hlog & _ & _ & Hwriter & Hcurrent
        & _).
  - reflexivity.
  - reflexivity.
  - reflexivity.
  - reflexivity.
  - reflexivity.
  - reflexivity.
  - reflexivity.
  - reflexivity.
  - reflexivity.
  - exists this', env'. split; [exact Hrun|]. split; [exact Holder|].
    split; [exact Hlog|]. split; [exact Hwriter|exact Hcurrent].
Defined.

End VersionSetInstallExamples.

(** ** File names: generating and parsing *)

Section FilenameRoundTrips.

Import Filename FilenameParse.

Lemma digit_is_no_letter c d :
  digit_of_ascii c = Some d ->
  Ascii.eqb c "." = false /\ Ascii.eqb c "C" = false
  /\ Ascii.eqb c "L" = false /\ c <> "M"%char.
Proof.
  destruct c as [[] [] [] [] [] [] [] []]; intros Hd;
    try discriminate Hd; repeat split; discriminate.
Qed.

Lemma decimal_head acc c s n :
  decimal_value_from acc (String c s) = Some n ->
  exists d, digit_of_ascii c = Some d.
Proof.
  cbn [decimal_value_from]. destruct (digit_of_ascii c) as [d|];
    [eauto|discriminate].
Qed.

Lemma before_dot_digits t : forall s acc n,
  decimal_value_from acc s = Some n ->
  before_dot (s +:+ String "." t) = s.
Proof.
  induction s as [|c s IH]; intros acc n Hv; [reflexivity|].
  destruct (decimal_head _ _ _ _ Hv) as [d Hd].
  destruct (digit_is_no_letter c d Hd) as (Hdot & _).
  simpl. rewrite Hdot. f_equal.
  cbn [decimal_value_from] in Hv. rewrite Hd in Hv.
  cbn [mbind option_bind] in Hv. eauto.
Qed.

Lemma substr_append t : forall s, substr (s +:+ t) (String.length s) = t.
Proof. induction s as [|c s IH]; [now destruct t|exact IH]. Qed.

Lemma pad_loop_not_empty f : forall s,
  s <> EmptyString -> pad_loop f s <> EmptyString.
Proof.
  induction f as [|f IH]; intros s Hs; [exact Hs|]. cbn [pad_loop].
  destruct (_ <? 6); [apply IH; discriminate|exact Hs].
Qed.

Lemma append_not_empty (s : string) c :
  s +:+ String c EmptyString <> EmptyString.
Proof. destruct s; discriminate. Qed.

Lemma String_not_empty n : 0 <= n <= 2 ^ 53 -> String_ n <> EmptyString.
Proof.
  intros Hn. rewrite String_digits by exact Hn. unfold digits.
  cbn [digits_fuel]. destruct (n <? 10); [discriminate|].
  apply append_not_empty.
Qed.

Lemma numberToString_value n :
  0 <= n <= 2 ^ 53 ->
  decimal_value (numberToString n) = Some n
  /\ numberToString n <> EmptyString.
Proof.
  intros Hn. unfold numberToString. split.
  - rewrite pad_loop_value. now apply String_value.
  - apply pad_loop_not_empty, String_not_empty. exact Hn.
Qed.

Lemma prefix_append (a b : string) : String.prefix a (a +:+ b) = true.
Proof.
  induction a as [|c a IH]; [now destruct b|].
  simpl. destruct (ascii_dec c c); [exact IH|congruence].
Qed.

(** A name that starts with a digit is none of the fixed names. *)
Lemma digits_name_plain c s d :
  digit_of_ascii c = Some d ->
  String.eqb (String c s) "CURRENT" = false
  /\ String.eqb (String c s) "LOCK" = false
  /\ String.eqb (String c s) "LOG" = false
  /\ String.eqb (String c s) "LOG.old" = false
  /\ String.prefix "MANIFEST-" (String c s) = false.
Proof.
  intros Hd. destruct (digit_is_no_letter c d Hd) as (_ & HC & HL & HM).
  cbn [String.eqb String.prefix]. rewrite HC, HL.
  repeat split. destruct (ascii_dec _ _) as [Heq|]; [|reflexivity].
  now symmetry in Heq.
Qed.

Lemma parse_numbered `{JSNumber} s n suffix t :
  s <> EmptyString ->
  decimal_value s = Some n ->
  n <= 2 ^ 53 ->
  (suffix = ".log" /\ t = kLogFile)
  \/ (suffix = ".ldb" /\ t = kTableFile)
  \/ (suffix = ".dbtmp" /\ t = kTempFile) ->
  parseFilename (s +:+ suffix) = internal (of_integer n) t.
Proof.
  intros Hs Hv Hn Hsuffix.
  assert (Hdot : exists rest, suffix = String "." rest).
  { destruct Hsuffix as [[-> _]|[[-> _]|[-> _]]]; eauto. }
  destruct Hdot as [rest Hrest].
  assert (Hbefore : before_dot (s +:+ suffix) = s).
  { rewrite Hrest. eapply before_dot_digits. exact Hv. }
  unfold parseFilename. cbv zeta. rewrite Hbefore, substr_append.
  destruct s as [|c s]; [congruence|].
  destruct (decimal_head _ _ _ _ Hv) as [d Hd].
  change (String c s +:+ suffix) with (String c (s +:+ suffix)).
  destruct (digits_name_plain c (s +:+ suffix) d Hd)
    as (-> & -> & -> & -> & ->).
  cbn [orb]. rewrite (Number_decimal _ n) by (assumption || discriminate).
  rewrite isNaN_integer.
  destruct Hsuffix as [[-> ->]|[[-> ->]|[-> ->]]]; reflexivity.
Qed.

(** X15.  [parseFilename] reads back the names that the module generates.
    For a file number [n] from 0 to [2^53], the base names of
    [getLogFilename], [getTableFilename], [getManifestFilename] and
    [getTempFilename] parse as internal files with the number [n] and the
    types log, table, descriptor and temp.  [Number] is any function that
    converts strings of decimal digits as JavaScript does. *)
Theorem parseFilename_generated `{JSNumber} (dbpath : string) (n : Z) :
  0 <= n <= 2 ^ 53 ->
  (getLogFilename dbpath n
   = Path.resolve dbpath (numberToString n +:+ ".log")
   /\ parseFilename (numberToString n +:+ ".log")
      = internal (of_integer n) kLogFile)
  /\ (getTableFilename dbpath n
      = Path.resolve dbpath (numberToString n +:+ ".ldb")
      /\ parseFilename (numberToString n +:+ ".ldb")
         = internal (of_integer n) kTableFile)
  /\ (getManifestFilename dbpath n
      = Path.resolve dbpath ("MANIFEST-" +:+ numberToString n)
      /\ parseFilename ("MANIFEST-" +:+ numberToString n)
         = internal (of_integer n) kDescriptorFile)
  /\ (0 < n ->
      getTempFilename dbpath n
      = Some (Path.resolve dbpath (String_ n +:+ ".dbtmp"))
      /\ parseFilename (String_ n +:+ ".dbtmp")
         = internal (of_integer n) kTempFile).
Proof.
  intros Hn. destruct (numberToString_value n) as [Hv Hne]; [lia|].
  split; [split; [reflexivity|]|split; [split; [reflexivity|]|split;
    [split; [reflexivity|]|]]].
  - apply parse_numbered; auto; lia.
  - apply parse_numbered; auto; lia.
  - unfold parseFilename. cbv zeta.
    change (String.eqb ("MANIFEST-" +:+ numberToString n) "CURRENT")
      with false.
    change (String.eqb ("MANIFEST-" +:+ numberToString n) "LOCK") with false.
    change (String.eqb ("MANIFEST-" +:+ numberToString n) "LOG") with false.
    change (String.eqb ("MANIFEST-" +:+ numberToString n) "LOG.old")
      with false.
    cbn [orb].
    assert (Hprefix :
              String.prefix "MANIFEST-" ("MANIFEST-" +:+ numberToString n)
              = true) by apply prefix_append.
    rewrite Hprefix.
    rewrite substr_append.
    rewrite (Number_decimal _ n) by (assumption || lia).
    now rewrite isNaN_integer.
  - intros Hpos. split.
    + unfold getTempFilename. destruct (Z.ltb_spec 0 n); [reflexivity|lia].
    + apply parse_numbered; auto; try lia.
      * apply String_not_empty. lia.
      * apply String_value. lia.
Qed.

Lemma parseFilename_generated_witness :
  (getLogFilename "/db" 42 = Path.resolve "/db" (numberToString 42 +:+ ".log")
   /\ parseFilename (H := sample_number) (numberToString 42 +:+ ".log")
      = internal (H := sample_number) (Some 42) kLogFile)
  /\ (getTableFilename "/db" 42
      = Path.resolve "/db" (numberToString 42 +:+ ".ldb")
      /\ parseFilename (H := sample_number) (numberToString 42 +:+ ".ldb")
         = internal (H := sample_number) (Some 42) kTableFile)
  /\ (getManifestFilename "/db" 42
      = Path.resolve "/db" ("MANIFEST-" +:+ numberToString 42)
      /\ parseFilename (H := sample_number) ("MANIFEST-" +:+ numberToString 42)
         = internal (H := sample_number) (Some 42) kDescriptorFile)
  /\ (0 < 42 ->
      getTempFilename "/db" 42
      = Some (Path.resolve "/db" (String_ 42 +:+ ".dbtmp"))
      /\ parseFilename (H := sample_number) (String_ 42 +:+ ".dbtmp")
         = internal (H := sample_number) (Some 42) kTempFile).
Proof. apply (parseFilename_generated (H := sample_number) "/db" 42). lia. Defined.

Lemma resolve_inj dbpath a b :
  Path.resolve dbpath a = Path.resolve dbpath b -> a = b.
Proof.
  unfold Path.resolve. intros Heq. apply String.app_inj in Heq.
  now injection Heq.
Qed.

Lemma digits_suffix_inj s1 s2 n1 n2 t :
  decimal_value s1 = Some n1 ->
  decimal_value s2 = Some n2 ->
  s1 +:+ String "." t = s2 +:+ String "." t ->
  n1 = n2.
Proof.
  intros H1 H2 Heq. apply (f_equal before_dot) in Heq.
  rewrite (before_dot_digits t s1 0 n1 H1),
    (before_dot_digits t s2 0 n2 H2) in Heq.
  congruence.
Qed.

(** Where the guarantee ends: a file number is a double, and from [2^53]
    on [String] prints the shortest decimal that reads back as the double,
    with an exponent from [10^21] on.  The names of [2^60] and of [10^21]
    do not hold the digits of the numbers. *)
Lemma numberToString_large :
  numberToString (2 ^ 60) = "1152921504606847000"
  /\ decimal_value (numberToString (2 ^ 60)) <> Some (2 ^ 60)
  /\ numberToString (10 ^ 21) = "01e+21"
  /\ getTableFilename "/db" (10 ^ 21) = "/db/01e+21.ldb".
Proof.
  split; [vm_compute; reflexivity|]. split; [vm_compute; discriminate|].
  split; vm_compute; reflexivity.
Qed.

(** X16.  No two file numbers up to [2^53] share a file name: for file
    numbers from 0 to [2^53], the range in which every integer is a number
    of its own and [String] prints its digits, the names of
    [getLogFilename], of [getTableFilename], of [getManifestFilename] and,
    for positive numbers, of [getTempFilename] are equal only for equal
    numbers.  Numbers above 999999 are not cut: the decimal value of
    [numberToString n] is [n] for every [n] of that range. *)
Theorem filenames_injective (dbpath : string) (a b : Z) :
  0 <= a <= 2 ^ 53 -> 0 <= b <= 2 ^ 53 ->
  decimal_value (numberToString a) = Some a
  /\ (getLogFilename dbpath a = getLogFilename dbpath b -> a = b)
  /\ (getTableFilename dbpath a = getTableFilename dbpath b -> a = b)
  /\ (getManifestFilename dbpath a = getManifestFilename dbpath b -> a = b)
  /\ (0 < a -> getTempFilename dbpath a = getTempFilename dbpath b -> a = b).
Proof.
  intros Ha Hb.
  destruct (numberToString_value a Ha) as [Hva _].
  destruct (numberToString_value b Hb) as [Hvb _].
  split; [exact Hva|]. repeat split.
  - intros Heq. apply resolve_inj in Heq.
    exact (digits_suffix_inj _ _ _ _ _ Hva Hvb Heq).
  - intros Heq. apply resolve_inj in Heq.
    exact (digits_suffix_inj _ _ _ _ _ Hva Hvb Heq).
  - intros Heq. apply resolve_inj in Heq. apply String.app_inj in Heq.
    congruence.
  - intros Hpos. unfold getTempFilename.
    destruct (Z.ltb_spec 0 a); [|lia]. cbn [assert mbind option_bind].
    destruct (Z.ltb_spec 0 b); [|discriminate]. cbn [assert mbind option_bind].
    intros [= Heq]. apply resolve_inj in Heq.
    exact (digits_suffix_inj _ _ _ _ _ (String_value a Ha) (String_value b Hb)
             Heq).
Qed.

Lemma filenames_injective_witness :
  decimal_value (numberToString 1234567) = Some 1234567
  /\ (getLogFilename "/db" 1234567 = getLogFilename "/db" 7 -> 1234567 = 7)
  /\ (getTableFilename "/db" 1234567 = getTableFilename "/db" 7
      -> 1234567 = 7)
  /\ (getManifestFilename "/db" 1234567 = getManifestFilename "/db" 7
      -> 1234567 = 7)
  /\ (0 < 1234567 ->
      getTempFilename "/db" 1234567 = getTempFilename "/db" 7 -> 1234567 = 7).
Proof. apply (filenames_injective "/db" 1234567 7); lia. Defined.

Lemma temp_suffix_is_not_current (s : string) : s +:+ ".dbtmp" <> "CURRENT".
Proof.
  do 8 (destruct s as [|? s]; [discriminate|]). discriminate.
Qed.

Lemma temp_is_not_current dbpath n :
  0 <= n ->
  Path.resolve dbpath (String_ n +:+ ".dbtmp") <> getCurrentFilename dbpath.
Proof.
  intros _ Heq. apply resolve_inj in Heq.
  exact (temp_suffix_is_not_current _ Heq).
Qed.

Lemma manifest_content dbpath n :
  substr (getManifestFilename dbpath n)
    (String.length (CurrentFile.resolve_directory dbpath) + 1)
  = "MANIFEST-" +:+ numberToString n.
Proof.
  unfold getManifestFilename, Path.resolve, CurrentFile.resolve_directory.
  rewrite Nat.add_1_r. induction dbpath as [|c dbpath IH]; [|exact IH].
  cbn [String.length String.append substr]. now destruct (numberToString n).
Qed.

(** X17.  [setCurrentFile] replaces CURRENT through a temp file.  For a
    manifest number that is not positive the promise is rejected.  For a
    positive one: when the write and the rename succeed, no error is
    returned, CURRENT holds the base name of the MANIFEST and a newline, the
    temp file is gone and every other file is as before; when the write
    fails, the error is returned, the temp file is gone and every other
    file, CURRENT among them, is as before. *)
Theorem setCurrentFile_replaces (env : Env.t) (dbpath : string)
    (manifestNumber : Z) (rename_ok unlink_ok : bool) :
  (manifestNumber <= 0 ->
   forall write_ok,
     CurrentFile.setCurrentFile write_ok rename_ok unlink_ok env dbpath
       manifestNumber = None)
  /\ (0 < manifestNumber ->
      rename_ok = true ->
      exists env',
        CurrentFile.setCurrentFile true rename_ok unlink_ok env dbpath
          manifestNumber = Some (Status.Ok, env')
        /\ env' !! getCurrentFilename dbpath
           = Some (Env.Text ("MANIFEST-" +:+ numberToString manifestNumber
                             +:+ String (ascii_of_nat 10) ""))
        /\ env' !! Path.resolve dbpath (String_ manifestNumber +:+ ".dbtmp")
           = None
        /\ forall name,
             name <> getCurrentFilename dbpath ->
             name <> Path.resolve dbpath (String_ manifestNumber +:+ ".dbtmp")
             -> env' !! name = env !! name)
  /\ (0 < manifestNumber ->
      unlink_ok = true ->
      exists env',
        CurrentFile.setCurrentFile false rename_ok unlink_ok env dbpath
          manifestNumber = Some (Status.Failed, env')
        /\ env' !! Path.resolve dbpath (String_ manifestNumber +:+ ".dbtmp")
           = None
        /\ forall name,
             name <> Path.resolve dbpath (String_ manifestNumber +:+ ".dbtmp")
             -> env' !! name = env !! name).
Proof.
  assert (Hprefix :
            String.prefix (CurrentFile.resolve_directory dbpath)
              (getManifestFilename dbpath manifestNumber) = true)
    by apply prefix_append.
  unfold CurrentFile.setCurrentFile. cbv zeta. rewrite Hprefix, manifest_content.
  cbn [assert mbind option_bind]. unfold getTempFilename.
  split; [|split].
  - intros Hn write_ok. destruct (Z.ltb_spec 0 manifestNumber); [lia|].
    reflexivity.
  - intros Hn ->. destruct (Z.ltb_spec 0 manifestNumber); [|lia].
    cbn [assert mbind option_bind VersionSet.attempt].
    set (temp := Path.resolve dbpath (String_ manifestNumber +:+ ".dbtmp")).
    assert (Hne : temp <> getCurrentFilename dbpath)
      by (apply temp_is_not_current; lia).
    eexists. split; [reflexivity|].
    unfold CurrentFile.rename, Env.writeFile. rewrite lookup_insert_eq.
    rewrite string_append_assoc. split; [apply lookup_insert_eq|]. split.
    + rewrite lookup_insert_ne by congruence. apply lookup_delete_eq.
    + intros name Hc Ht. rewrite lookup_insert_ne by congruence.
      rewrite lookup_delete_ne by congruence.
      now rewrite lookup_insert_ne by congruence.
  - intros Hn ->. destruct (Z.ltb_spec 0 manifestNumber); [|lia].
    cbn [assert mbind option_bind VersionSet.attempt].
    eexists. split; [reflexivity|]. unfold Env.unlink.
    split; [apply lookup_delete_eq|].
    intros name Ht. now rewrite lookup_delete_ne by congruence.
Qed.

Lemma setCurrentFile_replaces_witness :
  exists env',
    CurrentFile.setCurrentFile true true true ∅ "/db" 4
    = Some (Status.Ok, env')
    /\ env' !! getCurrentFilename "/db"
       = Some (Env.Text ("MANIFEST-" +:+ numberToString 4
                         +:+ String (ascii_of_nat 10) ""))
    /\ env' !! Path.resolve "/db" (String_ 4 +:+ ".dbtmp") = None
    /\ forall name,
         name <> getCurrentFilename "/db" ->
         name <> Path.resolve "/db" (String_ 4 +:+ ".dbtmp") ->
         env' !! name = (∅ : Env.t) !! name.
Proof.
  destruct (setCurrentFile_replaces ∅ "/db" 4 true true) as (_ & Hok & _).
  apply Hok; [lia|reflexivity].
Defined.

End FilenameRoundTrips.

(** ** The bloom filter: no keys, too few keys *)

Section BloomEdges.

Import Hash BloomFilter.

Context {H : HashFn}.

Lemma put_loop_throws kNumber bits keys : forall count i bb,
  (i <= length keys)%nat ->
  put_loop kNumber bits keys i count bb = None
  <-> (length keys < i + count)%nat.
Proof.
  induction count as [|count IH]; intros i bb Hi.
  - cbn [put_loop]. split; [discriminate|lia].
  - cbn [put_loop]. destruct (keys !! i) as [key|] eqn:Hkey.
    + cbn [mbind option_bind]. apply lookup_lt_Some in Hkey.
      rewrite IH by lia. lia.
    + cbn [mbind option_bind]. apply lookup_ge_None in Hkey.
      split; [lia|reflexivity].
Qed.

(** X18.  [putKeys(keys, n)] throws exactly when [n] is greater than the
    number of keys: it then reads a key that is not there.  Otherwise it
    returns a filter, whatever the keys and the hash function. *)
Theorem putKeys_throws (this : t) (keys : list Slice) (n : Z) :
  putKeys this keys n = None <-> Z.of_nat (length keys) < n.
Proof.
  unfold putKeys. cbv zeta.
  destruct (put_loop _ _ _ _ _ _) as [bb|] eqn:Hloop.
  - cbn [mbind option_bind]. split; [discriminate|]. intros Hn.
    assert (Hnone : put_loop (_kNumber this)
                      (BitBuffer.bits
                         (BitBuffer.resizeBits (_bitBuffer this)
                            (inject_Z
                               ((if _bitsPerKey this * n <? 64 then 64
                                 else _bitsPerKey this * n) + 7) / 8 * 8)%Q))
                      keys 0 (Z.to_nat n)
                      (BitBuffer.resizeBits (_bitBuffer this)
                         (inject_Z
                            ((if _bitsPerKey this * n <? 64 then 64
                              else _bitsPerKey this * n) + 7) / 8 * 8)%Q)
                    = None) by (apply put_loop_throws; lia).
    congruence.
  - cbn [mbind option_bind]. split; [|reflexivity]. intros _.
    apply put_loop_throws in Hloop; lia.
Qed.

(** X19.  A filter built from no keys matches no key: for [n <= 0],
    [putKeys] of a fresh filter returns a filter on which [keyMayMatch]
    answers false for every key, whatever the hash function. *)
Theorem keyMayMatch_empty_filter (keys : list Slice) (n : Z) (key : Slice) :
  n <= 0 ->
  exists filter,
    putKeys (make_empty default_bitsPerKey) keys n = Some filter
    /\ keyMayMatch key (_buffer filter) = Some false.
Proof.
  intros Hn. unfold putKeys.
  change (_bitsPerKey (make_empty default_bitsPerKey)) with 10.
  change (_bitBuffer (make_empty default_bitsPerKey)) with [0].
  change (_kNumber (make_empty default_bitsPerKey)) with 7.
  change (_buffer (make_empty default_bitsPerKey)) with [7].
  change (_offset (make_empty default_bitsPerKey)) with 0.
  change (_size (make_empty default_bitsPerKey)) with 1.
  cbv zeta. destruct (Z.ltb_spec (10 * n) 64); [|lia].
  replace (Z.to_nat n) with 0%nat by lia. cbn [put_loop mbind option_bind].
  eexists. split; [reflexivity|]. cbn [_buffer].
  change (Buffer.concat
            [BitBuffer.resizeBits [0] (inject_Z (64 + 7) / 8 * 8)%Q;
             Buffer.slice [7] (0 + 1 - 1) (0 + 1)])
    with (repeat 0 9 ++ [7]).
  rewrite keyMayMatch_unfold, make_of_encoded. cbn [mbind option_bind _kNumber].
  change (30 <? 7) with false. cbv iota. cbn [_bitBuffer].
  change (Z.to_nat 7) with 7%nat. cbn [probe].
  rewrite get_zero_buffer; [reflexivity|].
  repeat constructor.
Qed.

End BloomEdges.

Lemma keyMayMatch_empty_filter_witness :
  exists filter,
    BloomFilter.putKeys (H := constant_hash)
      (BloomFilter.make_empty BloomFilter.default_bitsPerKey) [] 0
    = Some filter
    /\ BloomFilter.keyMayMatch (H := constant_hash) [97]
         (BloomFilter._buffer filter) = Some false.
Proof.
  apply (keyMayMatch_empty_filter (H := constant_hash) [] 0 [97]). lia.
Defined.

(** ** Block handles *)

Section BlockHandleRoundTrip.

(** X20.  A block handle survives its encoding: for an offset and a size
    that are JavaScript integers, [BlockHandle.from] of the bytes of the
    getter [buffer], followed by any bytes, is the handle. *)
Theorem blockHandle_roundtrip (handle : BlockHandle.t) (rest : Buffer.t) :
  0 <= BlockHandle.offset handle < 2 ^ 53 ->
  0 <= BlockHandle.size handle < 2 ^ 53 ->
  BlockHandle.from (BlockHandle.buffer handle ++ rest) = Some handle.
Proof.
  intros Ho Hs. destruct handle as [o sz]. cbn [BlockHandle.offset
    BlockHandle.size] in *.
  unfold BlockHandle.from, BlockHandle.buffer.
  cbn [BlockHandle.offset BlockHandle.size]. rewrite concat2, <- app_assoc.
  rewrite varint_roundtrip by assumption. cbn [mbind option_bind].
  rewrite slice_from_app, varint_roundtrip by assumption.
  reflexivity.
Qed.

Lemma blockHandle_roundtrip_witness :
  BlockHandle.from
    (BlockHandle.buffer {| BlockHandle.offset := 300; BlockHandle.size := 4096 |}
     ++ [1; 2; 3])
  = Some {| BlockHandle.offset := 300; BlockHandle.size := 4096 |}.
Proof.
  apply (blockHandle_roundtrip
           {| BlockHandle.offset := 300; BlockHandle.size := 4096 |} [1; 2; 3]);
    cbn [BlockHandle.offset BlockHandle.size]; lia.
Defined.

End BlockHandleRoundTrip.

(** ** Key ranges of the version set *)

Section KeyOrderFacts.

Import Format MemTableEntry VersionFormat KeyOrder KeyRange.

Context (uc : Comparator.t) {HL : KeyOrder.Laws uc}.

Lemma user_zero_sym a b :
  Comparator.compare uc a b = 0 -> Comparator.compare uc b a = 0.
Proof.
  intros Hab. pose proof (flip (c := uc) a b). pose proof (flip (c := uc) b a).
  lia.
Qed.

Lemma order_flip k1 s1 k2 s2 :
  order uc k1 s1 k2 s2 < 0 <-> 0 < order uc k2 s2 k1 s1.
Proof.
  unfold order. pose proof (flip (c := uc) k1 k2) as H12.
  pose proof (flip (c := uc) k2 k1) as H21.
  destruct (Z.eqb_spec (Comparator.compare uc k1 k2) 0) as [Hz|Hnz];
    destruct (Z.eqb_spec (Comparator.compare uc k2 k1) 0) as [Hz'|Hnz'];
    cbn [negb]; try lia.
  destruct (Z.eqb_spec s1 s2), (Z.eqb_spec s2 s1); try lia.
  destruct (Z.ltb_spec s2 s1), (Z.ltb_spec s1 s2); lia.
Qed.

Lemma order_refl k s : order uc k s k s = 0.
Proof.
  unfold order. rewrite (refl (c := uc)). cbn [Z.eqb negb].
  now rewrite Z.eqb_refl.
Qed.

Lemma order_le_user k1 s1 k2 s2 :
  order uc k1 s1 k2 s2 <= 0 ->
  Comparator.compare uc k1 k2 <= 0
  /\ (Comparator.compare uc k1 k2 = 0 -> s2 <= s1).
Proof.
  unfold order.
  destruct (Z.eqb_spec (Comparator.compare uc k1 k2) 0) as [Hz|Hnz];
    cbn [negb]; [|lia].
  destruct (Z.eqb_spec s1 s2); [lia|].
  destruct (Z.ltb_spec s2 s1); lia.
Qed.

Lemma order_trans k1 s1 k2 s2 k3 s3 :
  order uc k1 s1 k2 s2 <= 0 ->
  order uc k2 s2 k3 s3 <= 0 ->
  order uc k1 s1 k3 s3 <= 0.
Proof.
  intros H12 H23.
  apply order_le_user in H12 as [Hu12 Hs12].
  apply order_le_user in H23 as [Hu23 Hs23].
  pose proof (trans (c := uc) k1 k2 k3 Hu12 Hu23) as Hu13.
  unfold order.
  destruct (Z.eqb_spec (Comparator.compare uc k1 k3) 0) as [Hz|Hnz];
    cbn [negb]; [|lia].
  pose proof (user_zero_sym _ _ Hz) as Hz31.
  assert (H12z : Comparator.compare uc k1 k2 = 0).
  { pose proof (trans (c := uc) k2 k3 k1 Hu23 ltac:(lia)) as H21.
    pose proof (flip (c := uc) k1 k2). lia. }
  assert (H23z : Comparator.compare uc k2 k3 = 0).
  { pose proof (trans (c := uc) k3 k1 k2 ltac:(lia) Hu12) as H32.
    pose proof (flip (c := uc) k2 k3). lia. }
  specialize (Hs12 H12z). specialize (Hs23 H23z).
  destruct (Z.eqb_spec s1 s3); [lia|].
  destruct (Z.ltb_spec s3 s1); lia.
Qed.

(** The comparison of two keys with tails, by their parts. *)
Lemma compare_valid a b :
  8 <= Buffer.size a -> 8 <= Buffer.size b ->
  exists ua sa ub sb,
    extractUserKey a = Some ua
    /\ InternalKeyComparator.tail_sequence a = Some sa
    /\ extractUserKey b = Some ub
    /\ InternalKeyComparator.tail_sequence b = Some sb
    /\ InternalKeyComparator.compare uc a b = Some (order uc ua sa ub sb).
Proof.
  intros Ha Hb.
  destruct (internal_key_parts a Ha) as (ua & sa & Hua & Hsa).
  destruct (internal_key_parts b Hb) as (ub & sb & Hub & Hsb).
  exists ua, sa, ub, sb. repeat split; try assumption.
  now rewrite (compare_parts uc a b ua ub sa sb).
Qed.

Lemma le_refl a : 8 <= Buffer.size a -> le uc a a.
Proof.
  intros Ha. destruct (compare_valid a a Ha Ha)
    as (ua & sa & ub & sb & Hua & Hsa & Hub & Hsb & Hc).
  assert (ub = ua) by congruence. assert (sb = sa) by congruence. subst.
  exists 0. split; [|lia]. now rewrite Hc, order_refl.
Qed.

Lemma le_trans a b d :
  le uc a b -> le uc b d -> le uc a d.
Proof.
  intros (c1 & H1 & Hc1) (c2 & H2 & Hc2).
  assert (Ha : 8 <= Buffer.size a).
  { unfold InternalKeyComparator.compare in H1.
    destruct (extractUserKey a) eqn:Hu; [|discriminate].
    eauto using extractUserKey_Some. }
  assert (Hb : 8 <= Buffer.size b).
  { unfold InternalKeyComparator.compare in H2.
    destruct (extractUserKey b) eqn:Hu; [|discriminate].
    eauto using extractUserKey_Some. }
  assert (Hd : 8 <= Buffer.size d).
  { unfold InternalKeyComparator.compare in H2.
    destruct (extractUserKey b); [|discriminate].
    cbn [mbind option_bind] in H2.
    destruct (extractUserKey d) eqn:Hu; [|discriminate].
    eauto using extractUserKey_Some. }
  destruct (compare_valid a b Ha Hb)
    as (ua & sa & ub & sb & Hua & Hsa & Hub & Hsb & Hab).
  destruct (compare_valid b d Hb Hd)
    as (ub' & sb' & ud & sd & Hub' & Hsb' & Hud & Hsd & Hbd).
  assert (ub' = ub) by congruence. assert (sb' = sb) by congruence. subst.
  exists (order uc ua sa ud sd). split.
  - now rewrite (compare_parts uc a d ua ud sa sd).
  - apply (order_trans _ _ ub sb); congruence.
Qed.

(** A comparison that is not negative, read the other way round. *)
Lemma le_of_not_lt a b c :
  InternalKeyComparator.compare uc a b = Some c -> 0 <= c -> le uc b a.
Proof.
  intros Hc Hpos.
  assert (Ha : 8 <= Buffer.size a).
  { unfold InternalKeyComparator.compare in Hc.
    destruct (extractUserKey a) eqn:Hu; [|discriminate].
    eauto using extractUserKey_Some. }
  assert (Hb : 8 <= Buffer.size b).
  { unfold InternalKeyComparator.compare in Hc.
    destruct (extractUserKey a); [|discriminate].
    cbn [mbind option_bind] in Hc.
    destruct (extractUserKey b) eqn:Hu; [|discriminate].
    eauto using extractUserKey_Some. }
  destruct (compare_valid a b Ha Hb)
    as (ua & sa & ub & sb & Hua & Hsa & Hub & Hsb & Hab).
  exists (order uc ub sb ua sa). split.
  - now rewrite (compare_parts uc b a ub ua sb sa).
  - pose proof (order_flip ua sa ub sb). rewrite Hab in Hc.
    injection Hc as <-. lia.
Qed.

Lemma le_of_lt a b c :
  InternalKeyComparator.compare uc a b = Some c -> c < 0 -> le uc a b.
Proof. intros Hc Hneg. exists c. split; [exact Hc|lia]. Qed.

Lemma compare_total a b :
  8 <= Buffer.size a -> 8 <= Buffer.size b ->
  is_Some (InternalKeyComparator.compare uc a b).
Proof.
  intros Ha Hb. destruct (compare_valid a b Ha Hb)
    as (? & ? & ? & ? & _ & _ & _ & _ & ->). now eexists.
Qed.

End KeyOrderFacts.

Section BytewiseOrder.

Import Comparator.

Lemma bytewise_compare_flip a : forall b,
  bytewise_compare a b < 0 <-> 0 < bytewise_compare b a.
Proof.
  induction a as [|x a IH]; intros [|y b]; cbn [bytewise_compare]; try lia.
  destruct (Z.ltb_spec x y), (Z.ltb_spec y x); try lia. apply IH.
Qed.

Lemma bytewise_compare_le_trans : forall a b d,
  bytewise_compare a b <= 0 -> bytewise_compare b d <= 0 ->
  bytewise_compare a d <= 0.
Proof.
  induction a as [|x a IH]; intros [|y b] [|z d]; cbn [bytewise_compare];
    try lia.
  destruct (Z.ltb_spec x y), (Z.ltb_spec y x), (Z.ltb_spec y z),
    (Z.ltb_spec z y), (Z.ltb_spec x z), (Z.ltb_spec z x); try lia.
  apply IH.
Qed.

#[export] Instance bytewise_order : KeyOrder.Laws BytewiseComparator.
Proof.
  constructor; cbn [compare BytewiseComparator].
  - apply bytewise_compare_refl.
  - intros a b. apply bytewise_compare_flip.
  - apply bytewise_compare_le_trans.
Qed.

End BytewiseOrder.

Section KeyRanges.

Import Format MemTableEntry VersionFormat KeyOrder KeyRange.

Context (uc : Comparator.t) {HL : KeyOrder.Laws uc}.

Lemma covers_snoc files s l f :
  Forall valid_file files -> valid_file f ->
  covers uc files s l ->
  forall c1 c2,
    InternalKeyComparator.compare uc (smallest f) s = Some c1 ->
    InternalKeyComparator.compare uc (largest f) l = Some c2 ->
    covers uc (files ++ [f])
      (if c1 <? 0 then smallest f else s)
      (if 0 <? c2 then largest f else l).
Proof.
  intros Hvalid [Hfs Hfl] ((fs & Hfs_in & ->) & (fl & Hfl_in & ->) & Hall)
    c1 c2 Hc1 Hc2.
  split; [|split].
  - destruct (c1 <? 0); [exists f|exists fs]; split; auto;
      apply elem_of_app; [right; now apply list_elem_of_singleton|now left].
  - destruct (0 <? c2); [exists f|exists fl]; split; auto;
      apply elem_of_app; [right; now apply list_elem_of_singleton|now left].
  - apply Forall_app. split.
    + eapply Forall_impl; [exact Hall|]. intros g [Hg1 Hg2]. split.
      * destruct (Z.ltb_spec c1 0); [|exact Hg1].
        eapply le_trans; [exact HL|eapply le_of_lt; eauto|exact Hg1].
      * destruct (Z.ltb_spec 0 c2); [|exact Hg2].
        eapply le_trans; [exact HL|exact Hg2|].
        eapply le_of_not_lt; [exact HL|exact Hc2|lia].
    + constructor; [|constructor]. split.
      * destruct (Z.ltb_spec c1 0); [now apply le_refl|].
        eapply le_of_not_lt; eauto.
      * destruct (Z.ltb_spec 0 c2); [now apply le_refl|].
        exists c2. split; [exact Hc2|lia].
Qed.

Lemma getRange_loop_covers : forall rest seen i s l,
  0 < i ->
  Forall valid_file seen -> Forall valid_file rest ->
  covers uc seen s l ->
  exists s' l',
    getRange_loop (InternalKeyComparator.compare uc) rest i s l
    = Some (s', l')
    /\ covers uc (seen ++ rest) s' l'.
Proof.
  induction rest as [|f rest IH]; intros seen i s l Hi Hseen Hrest Hcov.
  - exists s, l. rewrite app_nil_r. now split.
  - apply Forall_cons in Hrest as [Hf Hrest]. cbn [getRange_loop].
    destruct (Z.eqb_spec i 0); [lia|].
    destruct Hcov as ((fs & Hfs_in & Hs) & (fl & Hfl_in & Hl) & Hall).
    assert (Hsv : 8 <= Buffer.size s).
    { subst s. now apply (proj1 (Forall_forall _ _) Hseen fs). }
    assert (Hlv : 8 <= Buffer.size l).
    { subst l. now apply (proj1 (Forall_forall _ _) Hseen fl). }
    destruct (compare_total uc (smallest f) s) as [c1 Hc1];
      [apply Hf|exact Hsv|].
    destruct (compare_total uc (largest f) l) as [c2 Hc2];
      [apply Hf|exact Hlv|].
    rewrite Hc1. cbn [mbind option_bind]. rewrite Hc2.
    cbn [mbind option_bind].
    destruct (IH (seen ++ [f]) (i + 1)
                (if c1 <? 0 then smallest f else s)
                (if 0 <? c2 then largest f else l))
      as (s' & l' & Hrun & Hcov'); [lia| |exact Hrest| |].
    + apply Forall_app. split; [exact Hseen|now constructor].
    + apply covers_snoc; auto. split; [eauto|]. split; [eauto|exact Hall].
    + exists s', l'. split; [exact Hrun|]. now rewrite <- app_assoc in Hcov'.
Qed.

Lemma findLargestKey_loop : forall rest seen l,
  Forall valid_file rest ->
  8 <= Buffer.size l ->
  Forall (fun f => le uc (largest f) l) seen ->
  exists l',
    fold_left
      (fun largestKey f =>
         largestKey ← largestKey;
         c ← InternalKeyComparator.compare uc (largest f) largestKey;
         Some (if 0 <? c then largest f else largestKey))
      rest (Some l)
    = Some l'
    /\ (l' = l \/ exists f, f ∈ rest /\ l' = largest f)
    /\ Forall (fun f => le uc (largest f) l') (seen ++ rest).
Proof.
  induction rest as [|f rest IH]; intros seen l Hrest Hl Hseen.
  - exists l. rewrite app_nil_r. split; [reflexivity|]. split; [now left|].
    exact Hseen.
  - apply Forall_cons in Hrest as [Hf Hrest]. cbn [fold_left].
    cbn [mbind option_bind].
    destruct (compare_total uc (largest f) l) as [c Hc]; [apply Hf|exact Hl|].
    rewrite Hc. cbn [mbind option_bind].
    destruct (IH (seen ++ [f]) (if 0 <? c then largest f else l))
      as (l' & Hrun & Hfrom & Hall); [exact Hrest| | |].
    + destruct (0 <? c); [apply Hf|exact Hl].
    + apply Forall_app. split.
      * eapply Forall_impl; [exact Hseen|]. intros g Hg.
        destruct (Z.ltb_spec 0 c); [|exact Hg].
        eapply le_trans; [exact HL|exact Hg|].
        eapply le_of_not_lt; [exact HL|exact Hc|lia].
      * constructor; [|constructor].
        destruct (Z.ltb_spec 0 c); [apply le_refl; [exact HL|apply Hf]|].
        exists c. split; [exact Hc|lia].
    + exists l'. split; [exact Hrun|]. split.
      * destruct Hfrom as [->|(g & Hg & ->)].
        -- destruct (0 <? c); [right; exists f; split; [left|reflexivity]
                              |now left].
        -- right. exists g. split; [now right|reflexivity].
      * now rewrite <- app_assoc in Hall.
Qed.

(** The test of the loop of [findSmallestBoundaryFile] decides whether the
    file is a boundary file. *)
Lemma boundary_test largestKey f :
  valid_file f -> 8 <= Buffer.size largestKey ->
  exists c boundary,
    InternalKeyComparator.compare uc (smallest f) largestKey = Some c
    /\ (if 0 <? c then
          u1 ← InternalKey.userKey (smallest f);
          u2 ← InternalKey.userKey largestKey;
          Some (Comparator.compare uc u1 u2 =? 0)
        else Some false) = Some boundary
    /\ (boundary = true <-> boundary_file uc largestKey f).
Proof.
  intros [Hs _] Hk.
  destruct (compare_valid uc (smallest f) largestKey Hs Hk)
    as (u1 & s1 & u2 & s2 & Hu1 & _ & Hu2 & _ & Hc).
  exists (order uc u1 s1 u2 s2).
  exists ((0 <? order uc u1 s1 u2 s2) && (Comparator.compare uc u1 u2 =? 0)).
  split; [exact Hc|]. unfold InternalKey.userKey. rewrite Hu1, Hu2.
  cbn [mbind option_bind]. split.
  - now destruct (0 <? _).
  - unfold boundary_file, InternalKey.userKey. rewrite Hc, Hu1, Hu2. split.
    + intros Hb. apply andb_prop in Hb as [Hpos Hz].
      apply Z.ltb_lt in Hpos. apply Z.eqb_eq in Hz.
      split; [eauto|]. exists u1, u2. repeat split. exact Hz.
    + intros [(c & [= <-] & Hpos) (v1 & v2 & [= <-] & [= <-] & Hz)].
      apply andb_true_intro. split; [now apply Z.ltb_lt|now apply Z.eqb_eq].
Qed.

End KeyRanges.

Section KeyRangeTheorems.

Import Format MemTableEntry VersionFormat KeyOrder KeyRange.

(** X21.  [getRange] throws on no files.  On files whose keys have their
    eight-byte tail, under a user comparator that orders the keys, it
    returns: [smallest] is the smallest key of one of the files and
    [largest] the largest key of one of them, and every file lies between
    the two in the internal-key order.  [getRange2] does so for the files
    of both lists. *)
Theorem getRange_covers (this : VersionSet.t)
    (HL : KeyOrder.Laws (VersionSet.internalKeyComparator this))
    (inputs1 inputs2 : list FileMetaData) :
  let uc := VersionSet.internalKeyComparator this in
  inputs1 <> [] ->
  Forall valid_file (inputs1 ++ inputs2) ->
  getRange this [] = None
  /\ (exists s l,
        getRange this inputs1 = Some (s, l) /\ covers uc inputs1 s l)
  /\ (exists s l,
        getRange2 this inputs1 inputs2 = Some (s, l)
        /\ covers uc (inputs1 ++ inputs2) s l).
Proof.
  intros uc Hne Hvalid. split; [reflexivity|].
  assert (Hrange : forall inputs,
            inputs <> [] -> Forall valid_file inputs ->
            exists s l,
              getRange this inputs = Some (s, l) /\ covers uc inputs s l).
  { intros [|f rest] Hne' Hv; [congruence|].
    unfold getRange. cbn [length]. rewrite Nat2Z.inj_succ.
    destruct (Z.ltb_spec 0 (Z.succ (Z.of_nat (length rest)))); [|lia].
    cbn [assert mbind option_bind getRange_loop Z.eqb]. fold uc.
    apply Forall_cons in Hv as [Hf Hrest].
    destruct (getRange_loop_covers uc rest [f] (0 + 1) (smallest f)
                (largest f))
      as (s & l & Hrun & Hcov); [lia|now constructor|exact Hrest| |eauto].
    split; [|split].
    - exists f. split; [apply list_elem_of_singleton|]; reflexivity.
    - exists f. split; [apply list_elem_of_singleton|]; reflexivity.
    - constructor; [|constructor].
      split; apply le_refl; (exact HL || apply Hf). }
  split.
  - apply Hrange; [exact Hne|]. now apply Forall_app in Hvalid as [? _].
  - unfold getRange2. apply Hrange; [|exact Hvalid].
    destruct inputs1; [congruence|discriminate].
Qed.

Lemma sample_files_valid : Forall valid_file sample_files.
Proof. repeat constructor; vm_compute; discriminate. Qed.

Lemma getRange_covers_witness :
  getRange Samples.sample_versionSet [] = None
  /\ (exists s l,
        getRange Samples.sample_versionSet sample_files = Some (s, l)
        /\ covers Comparator.BytewiseComparator sample_files s l)
  /\ (exists s l,
        getRange2 Samples.sample_versionSet sample_files [] = Some (s, l)
        /\ covers Comparator.BytewiseComparator (sample_files ++ []) s l).
Proof.
  apply (getRange_covers Samples.sample_versionSet bytewise_order
           sample_files []).
  - discriminate.
  - rewrite app_nil_r. exact sample_files_valid.
Defined.

(** X22.  [findLargestKey] returns false on no files.  On files whose keys
    have their eight-byte tail, under a user comparator that orders the
    keys, it returns true and leaves in [largestKey] the largest key of one
    of the files, which no largest key of a file exceeds in the
    internal-key order. *)
Theorem findLargestKey_largest (uc : Comparator.t) (HL : KeyOrder.Laws uc)
    (files : list FileMetaData) :
  Forall valid_file files ->
  match files with
  | [] => findLargestKey (InternalKeyComparator.compare uc) files = Some None
  | _ :: _ =>
      exists l,
        findLargestKey (InternalKeyComparator.compare uc) files
        = Some (Some l)
        /\ (exists f, f ∈ files /\ l = largest f)
        /\ Forall (fun f => le uc (largest f) l) files
  end.
Proof.
  intros Hvalid. destruct files as [|first rest]; [reflexivity|].
  unfold findLargestKey.
  destruct (findLargestKey_loop uc (first :: rest) [] (largest first))
    as (l & Hrun & Hfrom & Hall); [exact Hvalid| |constructor|].
  - apply Forall_cons in Hvalid as [Hf _]. apply Hf.
  - exists l. rewrite Hrun. split; [reflexivity|]. split; [|exact Hall].
    destruct Hfrom as [->|Hfrom]; [|exact Hfrom].
    exists first. split; [left|reflexivity].
Qed.

Lemma findLargestKey_largest_witness :
  exists l,
    findLargestKey
      (InternalKeyComparator.compare Comparator.BytewiseComparator)
      sample_files
    = Some (Some l)
    /\ (exists f, f ∈ sample_files /\ l = largest f)
    /\ Forall (fun f => le Comparator.BytewiseComparator (largest f) l)
         sample_files.
Proof.
  apply (findLargestKey_largest Comparator.BytewiseComparator bytewise_order
           sample_files).
  exact sample_files_valid.
Defined.

(** The loop of [findSmallestBoundaryFile] keeps the boundary file with
    the smallest key among the files seen. *)
Lemma findSmallestBoundaryFile_loop (uc : Comparator.t)
    (HL : KeyOrder.Laws uc) (largestKey : Slice) :
  8 <= Buffer.size largestKey ->
  forall rest seen best,
    Forall valid_file rest ->
    Forall valid_file seen ->
    match best with
    | None => Forall (fun f => ~ boundary_file uc largestKey f) seen
    | Some b =>
        b ∈ seen /\ boundary_file uc largestKey b
        /\ Forall (fun f => boundary_file uc largestKey f ->
                            le uc (smallest b) (smallest f)) seen
    end ->
    exists best',
      fold_left
        (fun smallestBoundaryFile f =>
           smallestBoundaryFile ← smallestBoundaryFile;
           c ← InternalKeyComparator.compare uc (smallest f) largestKey;
           boundary ←
             (if 0 <? c then
                u1 ← InternalKey.userKey (smallest f);
                u2 ← InternalKey.userKey largestKey;
                Some (Comparator.compare uc u1 u2 =? 0)
              else Some false);
           if boundary : bool then
             match smallestBoundaryFile with
             | None => Some (Some f)
             | Some best =>
                 c' ← InternalKeyComparator.compare uc
                        (smallest f) (smallest best);
                 Some (if c' <? 0 then Some f else Some best)
             end
           else Some smallestBoundaryFile)
        rest (Some best)
      = Some best'
      /\ match best' with
         | None =>
             Forall (fun f => ~ boundary_file uc largestKey f) (seen ++ rest)
         | Some b =>
             b ∈ seen ++ rest /\ boundary_file uc largestKey b
             /\ Forall (fun f => boundary_file uc largestKey f ->
                                 le uc (smallest b) (smallest f))
                  (seen ++ rest)
         end.
Proof.
  intros Hk.
  match goal with |- context [fold_left ?F] => set (step := F) end.
  induction rest as [|f rest IH]; intros seen best Hrest Hseen Hinv.
  - exists best. rewrite app_nil_r. now split.
  - apply Forall_cons in Hrest as [Hf Hrest]. cbn [fold_left].
    unfold step at 2. cbn [mbind option_bind].
    destruct (boundary_test uc largestKey f Hf Hk)
      as (c & boundary & Hc & Htest & Hb).
    rewrite Hc. cbn [mbind option_bind]. rewrite Htest.
    cbn [mbind option_bind].
    assert (Hseen' : Forall valid_file (seen ++ [f]))
      by (apply Forall_app; split; [exact Hseen|now constructor]).
    assert (Hstep :
              forall best0,
                match best0 with
                | None =>
                    Forall (fun f => ~ boundary_file uc largestKey f)
                      (seen ++ [f])
                | Some b =>
                    b ∈ seen ++ [f] /\ boundary_file uc largestKey b
                    /\ Forall (fun f => boundary_file uc largestKey f ->
                                        le uc (smallest b) (smallest f))
                         (seen ++ [f])
                end ->
                exists best',
                  fold_left step rest (Some best0) = Some best'
                  /\ match best' with
                     | None =>
                         Forall (fun f => ~ boundary_file uc largestKey f)
                           (seen ++ f :: rest)
                     | Some b =>
                         b ∈ seen ++ f :: rest
                         /\ boundary_file uc largestKey b
                         /\ Forall (fun f => boundary_file uc largestKey f ->
                                             le uc (smallest b) (smallest f))
                              (seen ++ f :: rest)
                     end).
    { intros best0 Hinv0.
      destruct (IH (seen ++ [f]) best0 Hrest Hseen' Hinv0)
        as (best' & Hrun & Hres).
      exists best'. split; [exact Hrun|].
      now rewrite <- app_assoc in Hres. }
    destruct boundary.
    + assert (Hbf : boundary_file uc largestKey f) by now apply Hb.
      destruct best as [b|].
      * destruct Hinv as (Hin & Hbb & Hmin).
        assert (Hbv : valid_file b)
          by exact (proj1 (Forall_forall _ _) Hseen b Hin).
        destruct (compare_total uc (smallest f) (smallest b)) as [c' Hc'];
          [apply Hf|apply Hbv|].
        rewrite Hc'. cbn [mbind option_bind].
        destruct (Z.ltb_spec c' 0).
        -- apply Hstep. split; [apply elem_of_app; right;
                                now apply list_elem_of_singleton|].
           split; [exact Hbf|]. apply Forall_app. split.
           ++ eapply Forall_impl; [exact Hmin|]. intros g Hg Hgb.
              eapply le_trans; [exact HL|eapply le_of_lt; eauto|now apply Hg].
           ++ constructor; [|constructor]. intros _.
              apply le_refl; [exact HL|apply Hf].
        -- apply Hstep. split; [apply elem_of_app; now left|].
           split; [exact Hbb|]. apply Forall_app. split; [exact Hmin|].
           constructor; [|constructor]. intros _.
           eapply le_of_not_lt; [exact HL|exact Hc'|lia].
      * apply Hstep. split; [apply elem_of_app; right;
                             now apply list_elem_of_singleton|].
        split; [exact Hbf|]. apply Forall_app. split.
        -- eapply Forall_impl; [exact Hinv|]. intros g Hg Hgb. contradiction.
        -- constructor; [|constructor]. intros _.
           apply le_refl; [exact HL|apply Hf].
    + assert (Hnb : ~ boundary_file uc largestKey f).
      { intros Hbf. apply Hb in Hbf. discriminate. }
      apply Hstep. destruct best as [b|].
      * destruct Hinv as (Hin & Hbb & Hmin).
        split; [apply elem_of_app; now left|]. split; [exact Hbb|].
        apply Forall_app. split; [exact Hmin|].
        constructor; [|constructor]. intros Hbf. contradiction.
      * apply Forall_app. split; [exact Hinv|]. now repeat constructor.
Qed.

(** X23.  [findSmallestBoundaryFile] on level files and a key that have
    their eight-byte tails, under a user comparator that orders the keys:
    it returns [undefined] exactly when no level file is a boundary file
    of the key, that is, has a smallest key that compares greater than the
    key with the same user key; otherwise it returns a boundary file of the
    level whose smallest key no smallest key of a boundary file is
    below. *)
Theorem findSmallestBoundaryFile_smallest (uc : Comparator.t)
    (HL : KeyOrder.Laws uc) (levelFiles : list FileMetaData)
    (largestKey : Slice) :
  8 <= Buffer.size largestKey ->
  Forall valid_file levelFiles ->
  exists result,
    findSmallestBoundaryFile uc levelFiles largestKey = Some result
    /\ match result with
       | None =>
           Forall (fun f => ~ boundary_file uc largestKey f) levelFiles
       | Some b =>
           b ∈ levelFiles /\ boundary_file uc largestKey b
           /\ Forall (fun f => boundary_file uc largestKey f ->
                               le uc (smallest b) (smallest f)) levelFiles
       end.
Proof.
  intros Hk Hvalid.
  destruct (findSmallestBoundaryFile_loop uc HL largestKey Hk levelFiles []
              None Hvalid)
    as (result & Hrun & Hres); [constructor|constructor|].
  exists result. split; [exact Hrun|exact Hres].
Qed.

Lemma findSmallestBoundaryFile_smallest_witness :
  exists result,
    findSmallestBoundaryFile Comparator.BytewiseComparator sample_files
      (InternalKey.make [100] 7 kTypeValue)
    = Some result
    /\ match result with
       | None =>
           Forall (fun f =>
                     ~ boundary_file Comparator.BytewiseComparator
                         (InternalKey.make [100] 7 kTypeValue) f)
             sample_files
       | Some b =>
           b ∈ sample_files
           /\ boundary_file Comparator.BytewiseComparator
                (InternalKey.make [100] 7 kTypeValue) b
           /\ Forall (fun f =>
                        boundary_file Comparator.BytewiseComparator
                          (InternalKey.make [100] 7 kTypeValue) f ->
                        le Comparator.BytewiseComparator
                          (smallest b) (smallest f))
                sample_files
       end.
Proof.
  apply (findSmallestBoundaryFile_smallest Comparator.BytewiseComparator
           bytewise_order sample_files (InternalKey.make [100] 7 kTypeValue)).
  - vm_compute. discriminate.
  - exact sample_files_valid.
Defined.

(** X30.  The internal-key order is a total preorder.  Under a user
    comparator that orders the keys, [InternalKeyComparator.compare] throws
    on a key of fewer than eight bytes and returns on keys with their
    eight-byte tail; on these it is reflexive, total and transitive, and
    the sign of a comparison is the opposite of the sign of the comparison
    the other way round. *)
Theorem internal_key_order (uc : Comparator.t) (HL : KeyOrder.Laws uc)
    (a b d : Slice) :
  (Buffer.size a < 8 -> InternalKeyComparator.compare uc a b = None)
  /\ (8 <= Buffer.size a -> 8 <= Buffer.size b -> 8 <= Buffer.size d ->
      le uc a a
      /\ (le uc a b \/ le uc b a)
      /\ (le uc a b -> le uc b d -> le uc a d)
      /\ exists c c',
           InternalKeyComparator.compare uc a b = Some c
           /\ InternalKeyComparator.compare uc b a = Some c'
           /\ (c < 0 <-> 0 < c') /\ (c = 0 <-> c' = 0)).
Proof.
  split.
  - intros Ha. unfold InternalKeyComparator.compare, extractUserKey.
    destruct (Z.leb_spec 8 (Buffer.size a)); [lia|reflexivity].
  - intros Ha Hb Hd. split; [now apply le_refl|].
    destruct (compare_valid uc a b Ha Hb)
      as (ua & sa & ub & sb & Hua & Hsa & Hub & Hsb & Hab).
    assert (Hba : InternalKeyComparator.compare uc b a
                  = Some (MemTableEntry.order uc ub sb ua sa))
      by now rewrite (compare_parts uc b a ub ua sb sa).
    pose proof (order_flip uc ua sa ub sb) as H1.
    pose proof (order_flip uc ub sb ua sa) as H2.
    split; [|split].
    + destruct (Z.le_gt_cases (MemTableEntry.order uc ua sa ub sb) 0).
      * left. eexists. split; [exact Hab|assumption].
      * right. eexists. split; [exact Hba|lia].
    + apply le_trans. exact HL.
    + eexists _, _. split; [exact Hab|]. split; [exact Hba|]. lia.
Qed.

Lemma internal_key_order_witness :
  le Comparator.BytewiseComparator
    (InternalKey.make [97] 5 kTypeValue) (InternalKey.make [97] 5 kTypeValue)
  /\ (le Comparator.BytewiseComparator
        (InternalKey.make [97] 5 kTypeValue)
        (InternalKey.make [97] 3 kTypeValue)
      \/ le Comparator.BytewiseComparator
           (InternalKey.make [97] 3 kTypeValue)
           (InternalKey.make [97] 5 kTypeValue))
  /\ (le Comparator.BytewiseComparator
        (InternalKey.make [97] 5 kTypeValue)
        (InternalKey.make [97] 3 kTypeValue) ->
      le Comparator.BytewiseComparator
        (InternalKey.make [97] 3 kTypeValue)
        (InternalKey.make [98] 9 kTypeValue) ->
      le Comparator.BytewiseComparator
        (InternalKey.make [97] 5 kTypeValue)
        (InternalKey.make [98] 9 kTypeValue))
  /\ exists c c',
       InternalKeyComparator.compare Comparator.BytewiseComparator
         (InternalKey.make [97] 5 kTypeValue)
         (InternalKey.make [97] 3 kTypeValue) = Some c
       /\ InternalKeyComparator.compare Comparator.BytewiseComparator
            (InternalKey.make [97] 3 kTypeValue)
            (InternalKey.make [97] 5 kTypeValue) = Some c'
       /\ (c < 0 <-> 0 < c') /\ (c = 0 <-> c' = 0).
Proof.
  destruct (internal_key_order Comparator.BytewiseComparator bytewise_order
              (InternalKey.make [97] 5 kTypeValue)
              (InternalKey.make [97] 3 kTypeValue)
              (InternalKey.make [98] 9 kTypeValue)) as [_ Horder].
  apply Horder; vm_compute; discriminate.
Defined.

End KeyRangeTheorems.

(** ** Compactions: where an output stops *)

Section CompactionStops.

Import Format VersionFormat Compaction CompactionQueries.

Lemma totalFileSize_cons g (files : list FileMetaData) :
  totalFileSize (g :: files) = fileSize g + totalFileSize files.
Proof.
  unfold totalFileSize. cbn [fold_left].
  change (fold_left (fun sum file => sum + fileSize file) files
            (0 + fileSize g))
    with (fold_left (fun sum f => sum + fileSize f) files (0 + fileSize g)).
  rewrite getTotalBytes_from. unfold VersionSet.getTotalBytes. lia.
Qed.

(** The loop ends at the first grandparent from the index on whose largest
    key the key does not exceed, or behind the last one; it adds the sizes
    of the grandparents it passes when a key was seen before. *)
Lemma stop_loop_spec uc key (gps : list FileMetaData) seen :
  8 <= Buffer.size key ->
  Forall (fun g => 8 <= Buffer.size (largest g)) gps ->
  forall fuel i ov,
    0 <= i ->
    Z.of_nat (length gps) - i < Z.of_nat fuel ->
    exists i' ov',
      stop_loop (InternalKeyComparator.compare uc) key gps seen fuel i ov
      = Some (i', ov')
      /\ i <= i' <= Z.max i (Z.of_nat (length gps))
      /\ (forall j, i <= j < i' ->
            exists g c,
              gps !! Z.to_nat j = Some g
              /\ InternalKeyComparator.compare uc key (largest g) = Some c
              /\ 0 < c)
      /\ (i' < Z.of_nat (length gps) ->
          exists g c,
            gps !! Z.to_nat i' = Some g
            /\ InternalKeyComparator.compare uc key (largest g) = Some c
            /\ c <= 0)
      /\ ov' = ov + (if seen
                     then totalFileSize
                            (take (Z.to_nat (i' - i)) (drop (Z.to_nat i) gps))
                     else 0).
Proof.
  intros Hkey Hvalid. induction fuel as [|fuel IH]; intros i ov Hi Hfuel.
  - exists i, ov. split; [reflexivity|]. split; [lia|].
    split; [intros j Hj; lia|]. split; [lia|].
    rewrite Z.sub_diag. change (Z.to_nat 0) with 0%nat. rewrite take_0.
    destruct seen; [change (totalFileSize []) with 0|]; lia.
  - cbn [stop_loop]. destruct (Z.ltb_spec i (Z.of_nat (length gps))) as [Hlt|Hge].
    + destruct (Z.ltb_spec i 0); [lia|].
      destruct (lookup_lt_is_Some_2 gps (Z.to_nat i)) as [g Hg]; [lia|].
      rewrite Hg. cbn [mbind option_bind].
      destruct (compare_total uc key (largest g)) as [c Hc]; [exact Hkey| |].
      { exact (proj1 (Forall_forall _ _) Hvalid g
                 (list_elem_of_lookup_2 _ _ _ Hg)). }
      rewrite Hc. cbn [mbind option_bind].
      destruct (Z.ltb_spec 0 c) as [Hpos|Hneg].
      * destruct (IH (i + 1)
                    (if seen then ov + fileSize g else ov))
          as (i' & ov' & Hrun & Hrange & Hpassed & Hend & Hov); [lia|lia|].
        exists i', ov'. split; [exact Hrun|]. split; [lia|].
        split; [|split; [exact Hend|]].
        -- intros j Hj. destruct (Z.eq_dec j i) as [->|Hne];
             [exists g, c; auto|apply Hpassed; lia].
        -- rewrite Hov. destruct seen; [|lia].
           rewrite (drop_S _ _ _ Hg).
           replace (Z.to_nat (i' - i)) with (S (Z.to_nat (i' - (i + 1))))
             by lia.
           cbn [take]. rewrite totalFileSize_cons.
           replace (Z.to_nat (i + 1)) with (S (Z.to_nat i)) by lia. lia.
      * exists i, ov. split; [reflexivity|]. split; [lia|].
        split; [intros j Hj; lia|]. split; [intros _; exists g, c; auto|].
        rewrite Z.sub_diag. change (Z.to_nat 0) with 0%nat. rewrite take_0.
    destruct seen; [change (totalFileSize []) with 0|]; lia.
    + exists i, ov. split; [reflexivity|]. split; [lia|].
      split; [intros j Hj; lia|]. split; [lia|].
      rewrite Z.sub_diag. change (Z.to_nat 0) with 0%nat. rewrite take_0.
    destruct seen; [change (totalFileSize []) with 0|]; lia.
Qed.

(** X24.  [shouldStopBefore] on a compaction whose input version and
    grandparents are assigned, for keys that have their eight-byte tail.
    The call returns; the grandparent index moves forward over exactly the
    grandparents whose largest key the key exceeds; when a key was seen
    before, the sizes of the grandparents passed are added to the
    overlapped bytes.  The result is true exactly when the overlapped bytes
    then exceed ten times the maximum file size, and they are then reset to
    zero.  A key has now been seen. *)
Theorem shouldStopBefore_spec (this : t) (version : Version.t)
    (gps : list FileMetaData) (internalKey : Slice) :
  inputVersion this = Some version ->
  grandparents this = Some gps ->
  0 <= grandparentIndex this ->
  8 <= Buffer.size internalKey ->
  Forall (fun g => 8 <= Buffer.size (largest g)) gps ->
  exists stop this',
    shouldStopBefore this internalKey = Some (stop, this')
    /\ seenKey this' = true
    /\ grandparentIndex this <= grandparentIndex this'
       <= Z.max (grandparentIndex this) (Z.of_nat (length gps))
    /\ (forall j, grandparentIndex this <= j < grandparentIndex this' ->
          exists g c,
            gps !! Z.to_nat j = Some g
            /\ InternalKeyComparator.compare
                 (Version.internalKeyComparator (Version.versionSet version))
                 internalKey (largest g) = Some c
            /\ 0 < c)
    /\ (grandparentIndex this' < Z.of_nat (length gps) ->
        exists g c,
          gps !! Z.to_nat (grandparentIndex this') = Some g
          /\ InternalKeyComparator.compare
               (Version.internalKeyComparator (Version.versionSet version))
               internalKey (largest g) = Some c
          /\ c <= 0)
    /\ stop
       = (maxGrandParentOverlapBytes
            (Version._options (Version.versionSet version))
          <? overlappedBytes this
             + (if seenKey this
                then totalFileSize
                       (take (Z.to_nat (grandparentIndex this'
                                        - grandparentIndex this))
                          (drop (Z.to_nat (grandparentIndex this)) gps))
                else 0))
    /\ overlappedBytes this'
       = (if stop then 0
          else overlappedBytes this
               + (if seenKey this
                  then totalFileSize
                         (take (Z.to_nat (grandparentIndex this'
                                          - grandparentIndex this))
                            (drop (Z.to_nat (grandparentIndex this)) gps))
                  else 0)).
Proof.
  intros Hversion Hgps Hindex Hkey Hvalid. unfold shouldStopBefore.
  rewrite Hversion, Hgps. cbn [mbind option_bind]. cbv zeta.
  destruct (stop_loop_spec
              (Version.internalKeyComparator (Version.versionSet version))
              internalKey gps (seenKey this) Hkey Hvalid
              (S (length gps)) (grandparentIndex this) (overlappedBytes this))
    as (i' & ov' & Hrun & Hrange & Hpassed & Hend & Hov); [exact Hindex|lia|].
  rewrite Hrun. cbn [mbind option_bind].
  eexists _, _. split; [reflexivity|].
  cbn [seenKey grandparentIndex overlappedBytes]. rewrite <- Hov.
  repeat split; auto; lia.
Qed.

Lemma shouldStopBefore_spec_witness :
  exists stop this',
    shouldStopBefore sample_compaction (InternalKey.make [101] 4 kTypeValue)
    = Some (stop, this')
    /\ seenKey this' = true
    /\ stop = false
    /\ grandparentIndex this' = 2.
Proof.
  destruct (shouldStopBefore_spec sample_compaction Samples.sample_version
              KeyRange.sample_files (InternalKey.make [101] 4 kTypeValue))
    as (stop & this' & Hrun & Hseen & _).
  - reflexivity.
  - reflexivity.
  - cbn [grandparentIndex sample_compaction]. lia.
  - vm_compute. discriminate.
  - repeat constructor; vm_compute; discriminate.
  - exists stop, this'. split; [exact Hrun|]. split; [exact Hseen|].
    vm_compute in Hrun. injection Hrun as <- <-. split; reflexivity.
Defined.

(** X25.  The assertion of [makeInputIterator] holds for every compaction
    of a level that is not negative: the iterators it creates, one per
    level-0 input file and one per other level with input files, fit the
    array it allocates for them. *)
Theorem makeInputIterator_space (c : t) :
  0 <= level c -> iterator_count c <= iterator_space c.
Proof.
  intros Hlevel. unfold iterator_count, iterator_space.
  cbn [fold_left Z.eqb].
  destruct (Z.ltb_spec 0 (Z.of_nat (length (fst (inputs c)))));
    destruct (Z.ltb_spec 0 (Z.of_nat (length (snd (inputs c)))));
    destruct (Z.eqb_spec (level c + 0) 0);
    destruct (Z.eqb_spec (level c + 1) 0);
    destruct (Z.eqb_spec (level c) 0); lia.
Qed.

Lemma makeInputIterator_space_witness :
  iterator_count sample_compaction <= iterator_space sample_compaction.
Proof.
  apply (makeInputIterator_space sample_compaction).
  cbn [level sample_compaction]. lia.
Defined.

End CompactionStops.

(** ** The value of a memtable entry *)

Section MemTableValues.

Import Format MemTable MemTableEntry MemTableValue.

Lemma encodeLE_snoc : forall n v,
  Coding.encodeLE (S n) v
  = Coding.encodeLE n v ++ [(v / 256 ^ Z.of_nat n) mod 256].
Proof.
  induction n as [|n IH]; intros v.
  - cbn [Coding.encodeLE app]. now rewrite Z.div_1_r.
  - change (Coding.encodeLE (S (S n)) v)
      with (v mod 256 :: Coding.encodeLE (S n) (v / 256)).
    rewrite IH. cbn [Coding.encodeLE app]. do 3 f_equal.
    rewrite Nat2Z.inj_succ, Z.pow_succ_r, Z.div_div by lia. reflexivity.
Qed.

(** The entry that [add] builds, by its bytes: the length prefix, the user
    key, seven bytes of the sequence number, the type, the value with its
    length. *)
Lemma entry_buffer_bytes sequence valueType key value :
  entry_buffer sequence valueType key value
  = Coding.varint_encode (Buffer.size key + 8)
    ++ key
    ++ Coding.encodeLE 7 (sequence mod 2 ^ 64)
    ++ [ValueType_code valueType]
    ++ Coding.varint_encode (Buffer.size (value_bytes value))
    ++ value_bytes value.
Proof.
  rewrite entry_buffer_parts, make_unfold, make_tail_shape.
  rewrite <- !app_assoc. do 3 f_equal. now destruct valueType.
Qed.

Lemma size_encodeLE n v : Buffer.size (Coding.encodeLE n v) = Z.of_nat n.
Proof. unfold Buffer.size. now rewrite encodeLE_length. Qed.

(** [getValueSlice] on bytes that hold a byte below 128 at the index of
    the internal key size. *)
Lemma getValueSlice_at (entry front tail : Slice) n p b :
  Coding.varint_decode entry = Some (n, p) ->
  entry = front ++ [b] ++ tail ->
  Buffer.size front = n ->
  0 <= b < 128 ->
  getValueSlice entry
  = if b =? 0 then Some None
    else
      '(valueSize, bytes) ← Coding.varint_decode
                              (Buffer.slice_from entry (1 + n));
      Some (Some (Buffer.slice (Buffer.slice_from entry (1 + n))
                    bytes (bytes + valueSize))).
Proof.
  intros Hdec Hshape Hfront Hb. unfold getValueSlice. rewrite Hdec.
  cbn [mbind option_bind].
  assert (Hat : Buffer.slice_from entry n = [b] ++ tail)
    by (rewrite Hshape, <- Hfront; apply slice_from_app).
  rewrite Hat. cbn [app Coding.varint_decode].
  destruct (Z.ltb_spec b 128); [|lia]. cbn [mbind option_bind].
  reflexivity.
Qed.

(** X26.  [getValueSlice] on the entry that [add] builds for a user key of
    fewer than 120 bytes, whose length prefix is one byte: it returns
    [null] for a deletion and the value for a value. *)
Theorem getValueSlice_short_key sequence valueType key value :
  Buffer.size key + 8 < 128 ->
  Buffer.size (value_bytes value) < 2 ^ 53 ->
  getValueSlice (entry_buffer sequence valueType key value)
  = Some (match valueType with
          | kTypeDeletion => None
          | kTypeValue => Some (value_bytes value)
          end).
Proof.
  intros Hk Hv.
  pose proof (size_nonneg key) as Hkey.
  pose proof (size_nonneg (value_bytes value)) as Hval.
  set (entry := entry_buffer sequence valueType key value).
  set (front := Coding.varint_encode (Buffer.size key + 8) ++ key
                ++ Coding.encodeLE 7 (sequence mod 2 ^ 64)).
  set (tail := Coding.varint_encode (Buffer.size (value_bytes value))
               ++ value_bytes value).
  assert (Hshape : entry = front ++ [ValueType_code valueType] ++ tail).
  { unfold entry, front, tail. rewrite entry_buffer_bytes.
    now rewrite <- !app_assoc. }
  assert (Hprefix : Coding.varint_encode (Buffer.size key + 8)
                    = [Buffer.size key + 8]).
  { unfold Coding.varint_encode. cbn [Coding.varint_encode_fuel].
    destruct (Z.ltb_spec (Buffer.size key + 8) 128); [reflexivity|lia]. }
  assert (Hfront : Buffer.size front = Buffer.size key + 8).
  { unfold front. rewrite Hprefix, !size_app, size_encodeLE.
    change (Buffer.size [_]) with 1. lia. }
  assert (Hdec : Coding.varint_decode entry = Some (Buffer.size key + 8, 1)).
  { unfold entry. rewrite entry_buffer_bytes, varint_roundtrip by lia.
    now rewrite Hprefix. }
  rewrite (getValueSlice_at entry front tail _ _ _ Hdec Hshape Hfront)
    by (destruct valueType; cbn; lia).
  destruct valueType; [reflexivity|].
  change (ValueType_code kTypeValue =? 0) with false. cbv iota.
  assert (Hvalue : Buffer.slice_from entry (1 + (Buffer.size key + 8)) = tail).
  { rewrite Hshape.
    replace (front ++ [ValueType_code kTypeValue] ++ tail)
      with ((front ++ [ValueType_code kTypeValue]) ++ tail)
      by now rewrite <- app_assoc.
    replace (1 + (Buffer.size key + 8))
      with (Buffer.size (front ++ [ValueType_code kTypeValue]))
      by (rewrite size_app, Hfront; change (Buffer.size [_]) with 1; lia).
    apply slice_from_app. }
  rewrite Hvalue. unfold tail. rewrite varint_roundtrip by lia.
  cbn [mbind option_bind].
  replace (Coding.varint_encode (Buffer.size (value_bytes value))
           ++ value_bytes value)
    with (Coding.varint_encode (Buffer.size (value_bytes value))
          ++ value_bytes value ++ []) by now rewrite app_nil_r.
  now rewrite slice_middle.
Qed.

Lemma getValueSlice_short_key_witness :
  getValueSlice (entry_buffer 9 kTypeValue [107; 101; 121] (Some [118; 97]))
  = Some (Some (value_bytes (Some [118; 97]))).
Proof.
  apply (getValueSlice_short_key 9 kTypeValue [107; 101; 121]
           (Some [118; 97])).
  - change (Buffer.size [107; 101; 121]) with 3. lia.
  - change (Buffer.size (value_bytes (Some [118; 97]))) with 2. lia.
Defined.

(** X27.  [getValueSlice] reads the type at the index of the internal key
    size, which is the type byte only behind a length prefix of one byte.
    On the entry that [add] builds for a user key of 120 bytes or more (up
    to a prefix of two bytes) and a sequence number below [2^48], it reads
    the top byte of the sequence number, which is zero, and returns [null]:
    a value is reported as a deletion. *)
Theorem getValueSlice_long_key sequence valueType key value :
  128 <= Buffer.size key + 8 < 16384 ->
  0 <= sequence < 2 ^ 48 ->
  getValueSlice (entry_buffer sequence valueType key value) = Some None.
Proof.
  intros Hk Hs.
  set (entry := entry_buffer sequence valueType key value).
  set (len := Buffer.size key + 8) in *.
  set (front := Coding.varint_encode len ++ key
                ++ Coding.encodeLE 6 (sequence mod 2 ^ 64)).
  set (tail := [ValueType_code valueType]
               ++ Coding.varint_encode (Buffer.size (value_bytes value))
               ++ value_bytes value).
  assert (Htop : (sequence mod 2 ^ 64 / 256 ^ Z.of_nat 6) mod 256 = 0).
  { rewrite (Z.mod_small sequence) by lia.
    change (256 ^ Z.of_nat 6) with (2 ^ 48).
    rewrite Z.div_small by lia. reflexivity. }
  assert (Hshape : entry = front ++ [0] ++ tail).
  { unfold entry, front, tail. rewrite entry_buffer_bytes.
    change 7%nat with (S 6). rewrite encodeLE_snoc, Htop.
    fold len. now rewrite <- !app_assoc. }
  assert (Hprefix : Coding.varint_encode len
                    = [len mod 128 + 128; len / 128]).
  { unfold Coding.varint_encode. cbn [Coding.varint_encode_fuel].
    destruct (Z.ltb_spec len 128); [lia|].
    destruct (Z.ltb_spec (len / 128) 128) as [|Hbig]; [reflexivity|].
    assert (len / 128 < 128) by (apply Z.div_lt_upper_bound; lia). lia. }
  assert (Hfront : Buffer.size front = len).
  { unfold front. rewrite Hprefix, !size_app, size_encodeLE.
    change (Buffer.size [_; _]) with 2. unfold len. lia. }
  assert (Hdec : Coding.varint_decode entry = Some (len, 2)).
  { unfold entry. rewrite entry_buffer_bytes. fold len.
    rewrite varint_roundtrip by lia. now rewrite Hprefix. }
  now rewrite (getValueSlice_at entry front tail _ _ _ Hdec Hshape Hfront)
    by lia.
Qed.

Lemma getValueSlice_long_key_witness :
  getValueSlice (entry_buffer 9 kTypeValue (repeat 107 120) (Some [118; 97]))
  = Some None.
Proof.
  apply (getValueSlice_long_key 9 kTypeValue (repeat 107 120)
           (Some [118; 97])).
  - change (Buffer.size (repeat 107 120)) with 120. lia.
  - lia.
Defined.

End MemTableValues.

(** ** Compactions: the base level of a key *)

Section BaseLevels.

Import Format VersionFormat Compaction KeyOrder BaseLevel.

Lemma userKey_valid (k : Slice) :
  8 <= Buffer.size k -> is_Some (InternalKey.userKey k).
Proof.
  intros Hk. destruct (internal_key_parts k Hk) as (u & _ & Hu & _).
  exists u. exact Hu.
Qed.

Lemma base_files_spec uc key (files : list FileMetaData) :
  Forall valid_file files ->
  forall fuel ptr,
    0 <= ptr ->
    Z.of_nat (length files) - ptr < Z.of_nat fuel ->
    exists found ptr',
      base_files uc key files fuel ptr = Some (found, ptr')
      /\ 0 <= ptr'
      /\ (found = true -> exists f, f ∈ files /\ in_range uc key f)
      /\ (found = false -> passed uc key files ptr ptr').
Proof.
  intros Hvalid. induction fuel as [|fuel IH]; intros ptr Hptr Hfuel.
  - exists false, ptr. split; [reflexivity|]. split; [lia|].
    split; [discriminate|]. intros _. split; [lia|]. split; intros; lia.
  - cbn [base_files].
    destruct (Z.ltb_spec ptr (Z.of_nat (length files))) as [Hlt|Hge].
    + destruct (Z.ltb_spec ptr 0); [lia|].
      destruct (lookup_lt_is_Some_2 files (Z.to_nat ptr)) as [f Hf]; [lia|].
      rewrite Hf. cbn [mbind option_bind].
      assert (Hin : f ∈ files) by exact (list_elem_of_lookup_2 _ _ _ Hf).
      destruct (proj1 (Forall_forall _ _) Hvalid f Hin) as [Hsv Hlv].
      destruct (userKey_valid _ Hlv) as [lu Hlu].
      destruct (userKey_valid _ Hsv) as [su Hsu].
      rewrite Hlu. cbn [mbind option_bind].
      destruct (Z.leb_spec (Comparator.compare uc key lu) 0) as [Hle|Hgt].
      * rewrite Hsu. cbn [mbind option_bind].
        destruct (Z.leb_spec 0 (Comparator.compare uc key su)) as [Hin'|Hlow].
        -- exists true, ptr. split; [reflexivity|]. split; [lia|].
           split; [|discriminate]. intros _. exists f. split; [exact Hin|].
           exists su, lu. auto.
        -- exists false, ptr. split; [reflexivity|]. split; [lia|].
           split; [discriminate|]. intros _. split; [lia|].
           split; [intros; lia|]. intros _. exists f. split; [exact Hf|].
           exists su. auto.
      * destruct (IH (ptr + 1)) as (found & ptr' & Hrun & Hpos & Hyes & Hno);
          [lia|lia|].
        exists found, ptr'. split; [exact Hrun|]. split; [exact Hpos|].
        split; [exact Hyes|]. intros Hfound.
        destruct (Hno Hfound) as (Hrange & Hpassed & Hstop).
        split; [lia|]. split; [|exact Hstop]. intros j Hj.
        destruct (Z.eq_dec j ptr) as [->|Hne]; [|apply Hpassed; lia].
        exists f. split; [exact Hf|]. exists lu. auto.
    + exists false, ptr. split; [reflexivity|]. split; [lia|].
      split; [discriminate|]. intros _. split; [lia|]. split; intros; lia.
Qed.

Lemma base_levels_spec uc key (filesByLevel : list (list FileMetaData)) :
  Forall (Forall valid_file) filesByLevel ->
  forall count level ptrs,
    0 <= level ->
    (Z.to_nat level + count <= length filesByLevel)%nat ->
    length ptrs = length filesByLevel ->
    Forall (fun p => 0 <= p) ptrs ->
    exists result ptrs',
      base_levels uc key filesByLevel count level ptrs = Some (result, ptrs')
      /\ length ptrs' = length ptrs
      /\ Forall (fun p => 0 <= p) ptrs'
      /\ (forall l, (l < Z.to_nat level)%nat -> ptrs' !! l = ptrs !! l)
      /\ (result = false ->
          exists l files f,
            level <= l < level + Z.of_nat count
            /\ filesByLevel !! Z.to_nat l = Some files
            /\ f ∈ files /\ in_range uc key f)
      /\ (result = true ->
          forall l files ptr,
            level <= l < level + Z.of_nat count ->
            filesByLevel !! Z.to_nat l = Some files ->
            ptrs !! Z.to_nat l = Some ptr ->
            exists ptr',
              ptrs' !! Z.to_nat l = Some ptr'
              /\ passed uc key files ptr ptr').
Proof.
  intros Hvalid. induction count as [|count IH];
    intros level ptrs Hlevel Hcount Hlen Hpos.
  - exists true, ptrs. split; [reflexivity|]. split; [reflexivity|].
    split; [exact Hpos|]. split; [reflexivity|]. split; [discriminate|].
    intros _ l files ptr Hl. lia.
  - cbn [base_levels]. destruct (Z.ltb_spec level 0); [lia|].
    destruct (lookup_lt_is_Some_2 filesByLevel (Z.to_nat level))
      as [files Hfiles]; [lia|].
    rewrite Hfiles. cbn [mbind option_bind].
    destruct (lookup_lt_is_Some_2 ptrs (Z.to_nat level)) as [ptr Hptr];
      [lia|].
    rewrite Hptr.
    assert (Hfv : Forall valid_file files).
    { exact (proj1 (Forall_forall _ _) Hvalid files
               (list_elem_of_lookup_2 _ _ _ Hfiles)). }
    assert (Hp0 : 0 <= ptr).
    { exact (proj1 (Forall_forall _ _) Hpos ptr
               (list_elem_of_lookup_2 _ _ _ Hptr)). }
    destruct (base_files_spec uc key files Hfv (S (length files)) ptr)
      as (found & ptr' & Hrun & Hp' & Hyes & Hno); [exact Hp0|lia|].
    rewrite Hrun. cbn [mbind option_bind].
    set (ptrs1 := <[Z.to_nat level := ptr']> ptrs).
    assert (Hlen1 : length ptrs1 = length ptrs)
      by apply length_insert.
    assert (Hpos1 : Forall (fun p => 0 <= p) ptrs1).
    { unfold ptrs1. apply Forall_insert; [exact Hpos|exact Hp']. }
    destruct found.
    + exists false, ptrs1. split; [reflexivity|]. split; [exact Hlen1|].
      split; [exact Hpos1|]. split.
      * intros l Hl. unfold ptrs1. apply list_lookup_insert_ne. lia.
      * split; [|discriminate]. intros _.
        destruct (Hyes eq_refl) as (f & Hin & Hrange).
        exists level, files, f. split; [lia|]. split; [exact Hfiles|].
        split; [exact Hin|exact Hrange].
    + destruct (IH (level + 1) ptrs1)
        as (result & ptrs' & Hrec & Hlen' & Hpos' & Hkeep & Hfalse & Htrue);
        [lia|lia|congruence|exact Hpos1|].
      exists result, ptrs'. split; [exact Hrec|]. split; [congruence|].
      split; [exact Hpos'|]. split; [|split].
      * intros l Hl. rewrite Hkeep by lia. unfold ptrs1.
        apply list_lookup_insert_ne. lia.
      * intros Hres. destruct (Hfalse Hres) as (l & fs & f & Hl & Hfs & Hf).
        exists l, fs, f. split; [lia|]. split; [exact Hfs|exact Hf].
      * intros Hres l fs p Hl Hfs Hp.
        destruct (Z.eq_dec l level) as [->|Hne].
        -- exists ptr'. split.
           ++ rewrite Hkeep by lia. unfold ptrs1.
              apply list_lookup_insert_eq. lia.
           ++ assert (fs = files) by congruence. assert (p = ptr) by congruence.
              subst. now apply Hno.
        -- apply (Htrue Hres l fs p); [lia|exact Hfs|].
           unfold ptrs1. rewrite list_lookup_insert_ne by lia. exact Hp.
Qed.

(** X28.  [isBaseLevelForKey] on a compaction of a level from -2 to 5
    whose input version has seven levels of files with keys that have
    their eight-byte tail, and whose seven level pointers are not
    negative.  The call returns.  The result
    false names a file: in some level from [level + 2] on a file has the
    user key in its range.  With the result true the pointer of every level
    from [level + 2] on has only passed files that the user key is above,
    and has stopped behind the last file or at a file that the user key is
    below. *)
Theorem isBaseLevelForKey_spec (this : t) (version : Version.t)
    (userKey : Slice) :
  inputVersion this = Some version ->
  -2 <= level this <= 5 ->
  length (Version.files version) = 7%nat ->
  length (levelPtrs this) = 7%nat ->
  Forall (fun p => 0 <= p) (levelPtrs this) ->
  Forall (Forall valid_file) (Version.files version) ->
  exists result this',
    isBaseLevelForKey this userKey = Some (result, this')
    /\ length (levelPtrs this') = 7%nat
    /\ Forall (fun p => 0 <= p) (levelPtrs this')
    /\ (result = false ->
        exists l files f,
          level this + 2 <= l < Config.kNumLevels
          /\ Version.files version !! Z.to_nat l = Some files
          /\ f ∈ files
          /\ in_range
               (Version.internalKeyComparator (Version.versionSet version))
               userKey f)
    /\ (result = true ->
        forall l files ptr,
          level this + 2 <= l < Config.kNumLevels ->
          Version.files version !! Z.to_nat l = Some files ->
          levelPtrs this !! Z.to_nat l = Some ptr ->
          exists ptr',
            levelPtrs this' !! Z.to_nat l = Some ptr'
            /\ passed
                 (Version.internalKeyComparator (Version.versionSet version))
                 userKey files ptr ptr').
Proof.
  intros Hversion Hlevel Hfiles Hptrs Hpos Hvalid. unfold isBaseLevelForKey.
  rewrite Hversion. cbn [mbind option_bind]. cbv zeta.
  destruct (base_levels_spec
              (Version.internalKeyComparator (Version.versionSet version))
              userKey (Version.files version) Hvalid
              (Z.to_nat (Config.kNumLevels - (level this + 2)))
              (level this + 2) (levelPtrs this))
    as (result & ptrs' & Hrun & Hlen & Hpos' & _ & Hfalse & Htrue);
    [lia|unfold Config.kNumLevels; lia|congruence|exact Hpos|].
  rewrite Hrun. cbn [mbind option_bind].
  eexists _, _. split; [reflexivity|]. cbn [levelPtrs].
  split; [congruence|]. split; [exact Hpos'|].
  assert (Hend : forall l,
            level this + 2 <= l
            < level this + 2
              + Z.of_nat (Z.to_nat (Config.kNumLevels - (level this + 2)))
            <-> level this + 2 <= l < Config.kNumLevels)
    by (intros l; unfold Config.kNumLevels; lia).
  split.
  - intros Hres. destruct (Hfalse Hres) as (l & fs & f & Hl & Hrest).
    exists l, fs, f. split; [now apply Hend|exact Hrest].
  - intros Hres l fs p Hl. apply (Htrue Hres). now apply Hend.
Qed.

Lemma isBaseLevelForKey_spec_witness :
  exists result this',
    isBaseLevelForKey sample_compaction [99] = Some (result, this')
    /\ result = false
    /\ length (levelPtrs this') = 7%nat.
Proof.
  destruct (isBaseLevelForKey_spec sample_compaction sample_version [99])
    as (result & this' & Hrun & Hlen & _).
  - reflexivity.
  - cbn [level sample_compaction]. lia.
  - reflexivity.
  - reflexivity.
  - repeat constructor; lia.
  - repeat constructor; vm_compute; discriminate.
  - exists result, this'. split; [exact Hrun|]. split; [|exact Hlen].
    vm_compute in Hrun. now injection Hrun as <- _.
Defined.

End BaseLevels.

(** ** The boundary files of a compaction *)

Section BoundaryFiles.

Import Format VersionFormat KeyOrder KeyRange BoundaryInputs.

Context (uc : Comparator.t) {HL : KeyOrder.Laws uc}.

Lemma filter_length_lt {A : Type} (P Q : A -> bool) (b : A) :
  forall l : list A,
    (forall x, x ∈ l -> Q x = true -> P x = true) ->
    b ∈ l -> P b = true -> Q b = false ->
    (length (List.filter Q l) < length (List.filter P l))%nat.
Proof.
  assert (Hle : forall l : list A,
            (forall x, x ∈ l -> Q x = true -> P x = true) ->
            (length (List.filter Q l) <= length (List.filter P l))%nat).
  { induction l as [|x l IH]; intros Himp; [reflexivity|].
    cbn [List.filter].
    assert (Hrec : (length (List.filter Q l) <= length (List.filter P l))%nat)
      by (apply IH; intros y Hy; apply Himp; now right).
    pose proof (Himp x ltac:(left) ) as Hx.
    destruct (Q x); [rewrite Hx by reflexivity; cbn [length]; lia|].
    destruct (P x); cbn [length]; lia. }
  induction l as [|x l IH]; intros Himp Hin HP HQ.
  - now apply elem_of_nil in Hin.
  - cbn [List.filter]. apply elem_of_cons in Hin as [<-|Hin].
    + rewrite HP, HQ. cbn [length].
      pose proof (Hle l ltac:(intros y Hy; apply Himp; now right)). lia.
    + assert (Hrec : (length (List.filter Q l) < length (List.filter P l))%nat)
        by (apply IH; auto; intros y Hy; apply Himp; now right).
      pose proof (Himp x ltac:(left)) as Hx.
      destruct (Q x); [rewrite Hx by reflexivity; cbn [length]; lia|].
      destruct (P x); cbn [length]; lia.
Qed.

Lemma files_above_bound levelFiles key :
  (files_above uc levelFiles key <= length levelFiles)%nat.
Proof. unfold files_above. apply List.filter_length_le. Qed.

(** A boundary file that is ordered starts above the key and not above its
    own largest key, and whatever starts above its largest key starts above
    the key. *)
Lemma files_above_decreases levelFiles key b :
  Forall valid_file levelFiles ->
  8 <= Buffer.size key ->
  b ∈ levelFiles ->
  boundary_file uc key b ->
  ordered_file uc b ->
  (files_above uc levelFiles (largest b) < files_above uc levelFiles key)%nat.
Proof.
  intros Hvalid Hkey Hin [(c & Hc & Hpos) _] (c0 & Hc0 & Hle0).
  unfold files_above. apply (filter_length_lt _ _ b); [|exact Hin| |].
  - intros f Hf Habove. unfold starts_above in *.
    destruct (proj1 (Forall_forall _ _) Hvalid f Hf) as [Hfs _].
    destruct (compare_total uc (smallest f) key Hfs Hkey) as [c1 Hc1].
    rewrite Hc1. destruct (Z.ltb_spec 0 c1); [reflexivity|]. exfalso.
    destruct (InternalKeyComparator.compare uc (smallest f) (largest b))
      as [c2|] eqn:Hc2; [|discriminate].
    apply Z.ltb_lt in Habove.
    assert (Hchain : le uc (smallest f) (largest b)).
    { eapply le_trans; [exact HL|exists c1; split; [exact Hc1|lia]|].
      eapply le_trans; [exact HL| |exists c0; split; [exact Hc0|exact Hle0]].
      eapply le_of_not_lt; [exact HL|exact Hc|lia]. }
    destruct Hchain as (c3 & Hc3 & Hle3). rewrite Hc2 in Hc3.
    injection Hc3 as <-. lia.
  - unfold starts_above. rewrite Hc. now apply Z.ltb_lt.
  - unfold starts_above. rewrite Hc0. now apply Z.ltb_ge.
Qed.

Lemma boundary_loop_returns levelFiles :
  Forall valid_file levelFiles ->
  Forall (ordered_file uc) levelFiles ->
  forall fuel key acc,
    8 <= Buffer.size key ->
    (files_above uc levelFiles key < fuel)%nat ->
    exists added,
      boundary_loop uc levelFiles fuel key acc = Returned (acc ++ added)
      /\ boundary_chain uc levelFiles key added
      /\ (length added <= files_above uc levelFiles key)%nat.
Proof.
  intros Hvalid Hordered.
  induction fuel as [|fuel IH]; intros key acc Hkey Hfuel; [lia|].
  cbn [boundary_loop].
  destruct (findSmallestBoundaryFile_loop uc HL key Hkey levelFiles [] None
              Hvalid)
    as (result & Hfind & Hres); [constructor|constructor|].
  unfold findSmallestBoundaryFile. rewrite Hfind.
  destruct result as [b|].
  - destruct Hres as (Hin & Hb & _).
    assert (Hbv : valid_file b)
      by exact (proj1 (Forall_forall _ _) Hvalid b Hin).
    assert (Hbo : ordered_file uc b)
      by exact (proj1 (Forall_forall _ _) Hordered b Hin).
    pose proof (files_above_decreases levelFiles key b Hvalid Hkey Hin Hb Hbo)
      as Hless.
    destruct (IH (largest b) (acc ++ [b])) as (added & Hrun & Hchain & Hlen);
      [apply Hbv|lia|].
    exists (b :: added). split; [|split].
    + rewrite Hrun. now rewrite <- app_assoc.
    + cbn [boundary_chain]. auto.
    + cbn [length]. lia.
  - exists []. rewrite app_nil_r. split; [reflexivity|].
    split; [exact Hres|]. cbn [length]. lia.
Qed.

End BoundaryFiles.

Section BoundaryFilesTheorem.

Import Format VersionFormat KeyOrder KeyRange BoundaryInputs.

(** X29.  [addBoundaryInputs] ends.  For level files and compaction files
    whose keys have their eight-byte tail, where no level file has its
    smallest key above its largest key, under a user comparator that orders
    the keys, the loop returns within as many rounds as the level has
    files, and one more to see that it is done.  It leaves the compaction
    files followed by files of the level: each is a boundary file of the
    largest key before it, and the last largest key has no boundary file
    in the level.  Without compaction files it adds nothing. *)
Theorem addBoundaryInputs_returns (uc : Comparator.t) (HL : KeyOrder.Laws uc)
    (levelFiles compactionFiles : list FileMetaData) (fuel : nat) :
  Forall valid_file levelFiles ->
  Forall valid_file compactionFiles ->
  Forall (ordered_file uc) levelFiles ->
  (length levelFiles < fuel)%nat ->
  exists added,
    addBoundaryInputs uc levelFiles compactionFiles fuel
    = Returned (compactionFiles ++ added)
    /\ (length added <= length levelFiles)%nat
    /\ match compactionFiles with
       | [] => added = []
       | _ :: _ =>
           exists largestKey,
             findLargestKey (InternalKeyComparator.compare uc) compactionFiles
             = Some (Some largestKey)
             /\ boundary_chain uc levelFiles largestKey added
       end.
Proof.
  intros Hlevel Hcompaction Hordered Hfuel. unfold addBoundaryInputs.
  destruct compactionFiles as [|first rest].
  - exists []. split; [reflexivity|]. split; [|reflexivity].
    cbn [length]. lia.
  - assert (Hlargest :
              exists f,
                f ∈ first :: rest
                /\ findLargestKey (InternalKeyComparator.compare uc)
                     (first :: rest)
                   = Some (Some (largest f))).
    { unfold findLargestKey.
      destruct (findLargestKey_loop uc (first :: rest) [] (largest first))
        as (l & Hrun & Hfrom & _); [exact Hcompaction| |constructor|].
      - apply Forall_cons in Hcompaction as [Hf _]. apply Hf.
      - rewrite Hrun. destruct Hfrom as [->|(f & Hf & ->)].
        + exists first. split; [left|reflexivity].
        + exists f. split; [exact Hf|reflexivity]. }
    destruct Hlargest as (f & Hf & Hrun). rewrite Hrun.
    assert (Hkey : 8 <= Buffer.size (largest f)).
    { exact (proj2 (proj1 (Forall_forall _ _) Hcompaction f Hf)). }
    pose proof (files_above_bound uc levelFiles (largest f)) as Hbound.
    destruct (boundary_loop_returns uc levelFiles Hlevel Hordered fuel
                (largest f) (first :: rest) Hkey)
      as (added & Hloop & Hchain & Hlen); [lia|].
    exists added. split; [exact Hloop|]. split; [lia|].
    exists (largest f). split; [reflexivity|exact Hchain].
Qed.

Lemma sample_files_ordered :
  Forall (ordered_file Comparator.BytewiseComparator) sample_files.
Proof.
  unfold sample_files.
  repeat (apply Forall_cons; split;
          [unfold ordered_file, le; vm_compute; eexists;
           split; [reflexivity|discriminate]|]).
  apply Forall_nil_2.
Qed.

Lemma addBoundaryInputs_returns_witness :
  exists added,
    addBoundaryInputs Comparator.BytewiseComparator sample_files
      (take 1 sample_files) 4
    = Returned (take 1 sample_files ++ added)
    /\ (length added <= length sample_files)%nat
    /\ exists largestKey,
         findLargestKey
           (InternalKeyComparator.compare Comparator.BytewiseComparator)
           (take 1 sample_files)
         = Some (Some largestKey)
         /\ boundary_chain Comparator.BytewiseComparator sample_files
              largestKey added.
Proof.
  apply (addBoundaryInputs_returns Comparator.BytewiseComparator
           bytewise_order sample_files (take 1 sample_files) 4).
  - exact sample_files_valid.
  - repeat constructor; vm_compute; discriminate.
  - exact sample_files_ordered.
  - cbn [length sample_files]. lia.
Defined.

End BoundaryFilesTheorem.
